(** * multi-reindex: the job backlog manager

    A shallow embedding of [src/app/manager.js] (module [App] below) and of
    its sibling implementation [src/unnamed/part_000] (module [Part000]),
    together with the properties of the backlog, of the filters and of the
    orchestration that the specification states.

    Conventions of the embedding:
    - a promise chain is a computation in the monad [M]: a function from
      the state to a result and a new state; a rejected promise and a
      synchronous [throw] are both the result [Throw e];
    - the Redis server behind the client is a record [Store]; each client
      command is one atomic function on it;
    - JavaScript numbers are used for document counts only, so they are
      integers ([Z]) or [NaN]. *)

From Stdlib Require Import ZArith Ascii String Permutation.
From stdpp Require Import gmap strings list fin_maps.

Local Open Scope string_scope.
Local Open Scope list_scope.
Local Open Scope Z_scope.

(** ** JavaScript numbers, [String(n)] and [parseInt] *)

(** The numbers of the engine are doubles.  [Num z] stands for the double
    that is the integer [z], which exists, and is added, written and read
    back as below, for the integers [Number.isSafeInteger] accepts
    (magnitude below 2^53); beyond them the engine rounds, writes an
    exponent from 1e21 on and knows [Infinity], which this type does not.
    A statement that needs a count to be read back as it was written, or
    a sum to be exact, asks for it with [safe_count], [exact_sum] or
    [exact_total] below. *)
Inductive JsNum : Type :=
| Num (z : Z)
| NaN.

#[global] Instance JsNum_eq_dec : EqDecision JsNum.
Proof. solve_decision. Defined.

(** [a + b] on numbers; exact while the sum is a safe integer. *)
Definition js_add (a b : JsNum) : JsNum :=
  match a, b with
  | Num x, Num y => Num (x + y)
  | _, _ => NaN
  end.

Definition digit_char (d : Z) : ascii := ascii_of_nat (48 + Z.to_nat d).

Fixpoint digits_of (fuel : nat) (n : Z) : list ascii :=
  match fuel with
  | O => []
  | S fuel' =>
      if n <? 10 then [digit_char n]
      else digits_of fuel' (n / 10) ++ [digit_char (n mod 10)]
  end.

(** The decimal digits of a non-negative integer, most significant first. *)
Definition decimal (n : Z) : list ascii :=
  digits_of (S (Z.to_nat (Z.log2 n))) n.

(** [String(n)], which is also what the Redis client sends for a number:
    [NaN], or the decimal digits of an integer (of magnitude below 1e21). *)
Definition toString (n : JsNum) : string :=
  match n with
  | NaN => "NaN"
  | Num z =>
      if z <? 0 then String "-" (string_of_list_ascii (decimal (- z)))
      else string_of_list_ascii (decimal z)
  end.

(** [StrWhiteSpaceChar], on the ASCII range. *)
Definition is_whitespace (c : ascii) : bool :=
  let n := nat_of_ascii c in
  ((9 <=? n) && (n <=? 13))%nat || (n =? 32)%nat.

(** The value of [c] as a digit in the given radix, if it is one. *)
Definition digit_val (radix : Z) (c : ascii) : option Z :=
  let n := Z.of_nat (nat_of_ascii c) in
  let v :=
    if (48 <=? n) && (n <=? 57) then Some (n - 48)
    else if (97 <=? n) && (n <=? 122) then Some (n - 87)
    else if (65 <=? n) && (n <=? 90) then Some (n - 55)
    else None in
  match v with
  | Some d => if d <? radix then Some d else None
  | None => None
  end.

(** Reads the longest prefix of digits; [acc] is [None] until a digit is seen. *)
Fixpoint parse_digits (radix : Z) (acc : option Z) (s : list ascii) : option Z :=
  match s with
  | [] => acc
  | c :: s' =>
      match digit_val radix c with
      | Some d => parse_digits radix (Some (default 0 acc * radix + d)) s'
      | None => acc
      end
  end.

Fixpoint skip_whitespace (s : list ascii) : list ascii :=
  match s with
  | c :: s' => if is_whitespace c then skip_whitespace s' else s
  | [] => []
  end.

(** After the sign: an optional [0x] / [0X] prefix selects radix 16. *)
Definition parse_unsigned (s : list ascii) : option Z :=
  match s with
  | c1 :: c2 :: s' =>
      if Ascii.eqb c1 "0" && (Ascii.eqb c2 "x" || Ascii.eqb c2 "X")
      then parse_digits 16 None s'
      else parse_digits 10 None s
  | _ => parse_digits 10 None s
  end.

(** The sign, and the text after it. *)
Definition parse_sign (s : list ascii) : Z * list ascii :=
  match s with
  | c :: s' =>
      if Ascii.eqb c "-" then (-1, s')
      else if Ascii.eqb c "+" then (1, s')
      else (1, s)
  | [] => (1, s)
  end.

(** [parseInt(s)] with no radix argument; the integer read is the number
    the engine returns while it is a safe integer. *)
Definition parseInt (s : string) : JsNum :=
  let '(sign, body) := parse_sign (skip_whitespace (list_ascii_of_string s)) in
  match parse_unsigned body with
  | Some v => Num (sign * v)
  | None => NaN
  end.

(** [_.reduce(counts, (total, count) => total + parseInt(count), 0)] *)
Definition sum_counts (counts : list string) : JsNum :=
  foldl (fun total count => js_add total (parseInt count)) (Num 0) counts.

(** ** Results and errors *)

Inductive JsError : Type :=
| Error (message : string)
| TypeError (message : string).

Inductive Result (A : Type) : Type :=
| Ok (a : A)
| Throw (e : JsError).
Arguments Ok {A} a.
Arguments Throw {A} e.

(** ** The Job entity *)

(** Modelled from the spec: [src/app/job.js], required by both managers as
    ['./job'], is not among the sources.  The spec (section 3 and section 6)
    gives a job a collection name, a sub-collection name and a count, and
    an id that is the collection name, a separator and the sub-collection
    name; construction fails when a name contains the separator.  The
    separator is the one the spec writes in its scenario ([B:t1]). *)
Record Job : Type := mkJob {
  index : string;
  type : string;
  count : JsNum
}.

#[global] Instance Job_eq_dec : EqDecision Job.
Proof. solve_decision. Defined.

(** A plain object [{index, type, count}], as the job factory builds it and
    as a caller may hand it to [queueJob]. *)
Record JobParams : Type := mkParams {
  params_index : string;
  params_type : string;
  params_count : option JsNum
}.

Definition separator : ascii := ":"%char.

Definition has_separator (s : string) : bool :=
  existsb (Ascii.eqb separator) (list_ascii_of_string s).

(** Modelled from the spec: [new Job(params)]; the count is "unknown/zero"
    until it is set. *)
Definition Job_new (p : JobParams) : Result Job :=
  if has_separator (params_index p) || has_separator (params_type p)
  then Throw (Error "job names must not contain the separator")
  else Ok (mkJob (params_index p) (params_type p)
                 (default (Num 0) (params_count p))).

(** Modelled from the spec: [job.getID()]. *)
Definition getID (j : Job) : string :=
  index j +:+ String separator (type j).

(** Splits at the first separator. *)
Fixpoint split_id (s : string) : option (string * string) :=
  match s with
  | EmptyString => None
  | String c s' =>
      if Ascii.eqb separator c then Some (EmptyString, s')
      else match split_id s' with
           | Some (a, b) => Some (String c a, b)
           | None => None
           end
  end.

(** Modelled from the spec: [Job.createFromID(id, count)], the inverse of
    [getID]; [count] is the store's reply for the hash field, a string or
    [null]. *)
Definition createFromID (id : string) (reply : option string) : Result Job :=
  match split_id id with
  | Some (i, t) =>
      Job_new (mkParams i t (parseInt <$> reply))
  | None => Throw (Error "malformed job id")
  end.

(** What the constructor guarantees of every [Job] it returns. *)
Definition Job_wf (j : Job) : bool :=
  negb (has_separator (index j)) && negb (has_separator (type j)).

(** The argument of [queueJob] and [completeJob]: a [Job], a plain object
    to be wrapped ([job instanceof Job] decides), or no object at all
    ([null], [undefined]). *)
Inductive JobArg : Type :=
| IsJob (j : Job)
| IsParams (p : JobParams)
| IsNull.

(** Modelled from the spec: [new Job(null)].  The constructor reads the
    collection and the sub-collection name of its argument (section 3);
    [null] and [undefined] have no property to read, and the read is the
    engine's TypeError. *)
Definition Job_of_null : Result Job :=
  Throw (TypeError "Cannot read property 'index' of null").

(** [if (!(job instanceof Job)) job = new Job(job)] *)
Definition coerce_job (a : JobArg) : Result Job :=
  match a with
  | IsJob j => Ok j
  | IsParams p => Job_new p
  | IsNull => Job_of_null
  end.

(** ** The shared store *)

(** The three keys the managers use ([BACKLOG_QUEUE_KEY], [BACKLOG_HSET_KEY],
    [COMPLETED_KEY]).  Redis has no empty list or hash: an absent key and
    an empty value are the same state. *)
Record Store : Type := mkStore {
  backlog_queue : list string;
  backlog_hset : gmap string string;
  completed : gmap string string
}.

Definition empty_store : Store := mkStore [] ∅ ∅.

Inductive ListKey : Type := BACKLOG_QUEUE_KEY.
Inductive HashKey : Type := BACKLOG_HSET_KEY | COMPLETED_KEY.
Inductive Key : Type := KList (k : ListKey) | KHash (k : HashKey).

Definition get_hash (k : HashKey) (s : Store) : gmap string string :=
  match k with
  | BACKLOG_HSET_KEY => backlog_hset s
  | COMPLETED_KEY => completed s
  end.

Definition set_hash (k : HashKey) (h : gmap string string) (s : Store) : Store :=
  match k with
  | BACKLOG_HSET_KEY => mkStore (backlog_queue s) h (completed s)
  | COMPLETED_KEY => mkStore (backlog_queue s) (backlog_hset s) h
  end.

Definition set_queue (q : list string) (s : Store) : Store :=
  mkStore q (backlog_hset s) (completed s).

(** The commands, each atomic: the reply and the store after it. *)
Module Redis.

Definition lpop (_ : ListKey) (s : Store) : option string * Store :=
  match backlog_queue s with
  | [] => (None, s)
  | id :: q => (Some id, set_queue q s)
  end.

Definition rpush (_ : ListKey) (v : string) (s : Store) : Z * Store :=
  let q := backlog_queue s ++ [v] in
  (Z.of_nat (length q), set_queue q s).

(** Replies with the number of fields created: 0 when the field existed. *)
Definition hset (k : HashKey) (field value : string) (s : Store) : Z * Store :=
  let h := get_hash k s in
  (match h !! field with Some _ => 0 | None => 1 end,
   set_hash k (<[field := value]> h) s).

Definition hget (k : HashKey) (field : string) (s : Store)
  : option string * Store :=
  (get_hash k s !! field, s).

Definition hdel (k : HashKey) (field : string) (s : Store) : Z * Store :=
  let h := get_hash k s in
  (match h !! field with Some _ => 1 | None => 0 end,
   set_hash k (delete field h) s).

(** The client turns the reply into an object, field to value. *)
Definition hgetall (k : HashKey) (s : Store)
  : list (string * string) * Store :=
  (map_to_list (get_hash k s), s).

Definition hvals (k : HashKey) (s : Store) : list string * Store :=
  (snd <$> map_to_list (get_hash k s), s).

Definition del (k : Key) (s : Store) : Z * Store :=
  match k with
  | KList _ =>
      (match backlog_queue s with [] => 0 | _ => 1 end, set_queue [] s)
  | KHash h =>
      (if decide (get_hash h s = ∅) then 0 else 1, set_hash h ∅ s)
  end.

End Redis.

(** ** The source system *)

(** What [source.count] resolves with in its [count] field. *)
Inductive CountValue : Type :=
| CountNumber (n : JsNum)
| CountString (s : string)
| CountMissing.

(** [String(v)] *)
Definition count_text (v : CountValue) : string :=
  match v with
  | CountNumber n => toString n
  | CountString s => s
  | CountMissing => "undefined"
  end.

(** One index of the response of [indices.get]: its mappings, sub-collection
    name to mapping body (opaque here), in the order of the object's keys. *)
Record IndexBody : Type := mkIndexBody {
  body_mappings : list (string * string)
}.

(** The same object once [getIndices] has set its [name]. *)
Record IndexObj : Type := mkIndexObj {
  index_name : string;
  mappings : list (string * string)
}.

(** A mapping once [filterIndicesAndTypes] has set its [name]. *)
Record TypeObj : Type := mkTypeObj {
  type_name : string;
  type_body : string
}.

Class Named (T : Type) : Type := name_of : T -> string.
#[global] Instance IndexObj_named : Named IndexObj := index_name.
#[global] Instance TypeObj_named : Named TypeObj := type_name.

(** The client of the source system: each request either resolves or
    rejects. *)
Record Source : Type := mkSource {
  source_count : string -> string -> Result CountValue;
  source_indices_get : string -> Result (list (string * IndexBody))
}.

(** ** Events, state and the promise monad *)

Inductive Event : Type :=
| LogInfo (message : string)
| LogWarnQueued (job : Job)          (* `job: ${job} already in queue` *)
| RequestCount (index type : string) (* source.count({index, type}) is sent *)
| ReplyCount (index type : string)   (* its promise is settled *)
| RequestIndices (names : string).   (* client.indices.get({index, ...}) *)

(** [V] is the record of the module-level variables of the manager. *)
Record St (V : Type) : Type := mkSt {
  vars : V;
  store : Store;
  events : list Event
}.
Arguments mkSt {V} vars store events.
Arguments vars {V} _.
Arguments store {V} _.
Arguments events {V} _.

Definition M (V A : Type) : Type := St V -> Result A * St V.

#[global] Instance M_ret {V} : MRet (M V) :=
  fun A (a : A) st => (Ok a, st).

(** [m.then(k)] *)
#[global] Instance M_bind {V} : MBind (M V) :=
  fun A B (k : A -> M V B) (m : M V A) st =>
    match m st with
    | (Ok a, st') => k a st'
    | (Throw e, st') => (Throw e, st')
    end.

Definition throw {V A} (e : JsError) : M V A := fun st => (Throw e, st).

(** Lifts a synchronous result. *)
Definition lift_result {V A} (r : Result A) : M V A := fun st => (r, st).

Definition redis {V A} (cmd : Store -> A * Store) : M V A :=
  fun st =>
    let '(a, s) := cmd (store st) in
    (Ok a, mkSt (vars st) s (events st)).

Definition emit {V} (e : Event) : M V unit :=
  fun st => (Ok tt, mkSt (vars st) (store st) (events st ++ [e])).

(** [source.count({index, type})]: the request goes out, and the chain goes
    on when the reply is in, with the result or with the rejection. *)
Definition ask_count {V} (src : Source) (index type : string) : M V CountValue :=
  fun st =>
    (source_count src index type,
     mkSt (vars st) (store st)
          (events st ++ [RequestCount index type; ReplyCount index type])).

Definition get_vars {V} : M V V := fun st => (Ok (vars st), st).

Definition put_vars {V} (v : V) : M V unit :=
  fun st => (Ok tt, mkSt v (store st) (events st)).

(** [Promise.mapSeries(xs, f)]: [f] on each element in order, the next call
    starting when the previous promise has resolved; the first rejection
    rejects the whole. *)
Fixpoint mapSeries {V A B} (f : A -> M V B) (xs : list A) : M V (list B) :=
  match xs with
  | [] => mret []
  | x :: xs' =>
      y ← f x;
      ys ← mapSeries f xs';
      mret (y :: ys)
  end.

(** [Promise.each(xs, f)]: as [mapSeries], resolving with the input. *)
Definition each {V A B} (f : A -> M V B) (xs : list A) : M V (list A) :=
  mapSeries f xs;; mret xs.

(** ** Functions and patterns handed to the manager *)

(** A JavaScript function used as a predicate: [length] is its declared
    arity; lodash calls it with the value, its position and the whole
    collection.  The result is its truthiness. *)
Record JsFunction (T : Type) : Type := mkFunction {
  fn_length : nat;
  fn_call : T -> nat -> list T -> bool
}.
Arguments mkFunction {T} fn_length fn_call.
Arguments fn_length {T} _.
Arguments fn_call {T} _.

(** A function used as a comparator of index names; the sign of the result
    orders them. *)
Record JsComparator : Type := mkComparator {
  cmp_length : nat;
  cmp_call : string -> string -> Z
}.

(** A regular expression without the [g] and [y] flags, such as
    [new RegExp(text)] builds: [test], all that is used of it, then
    depends on the name only.  With one of these flags a pattern keeps
    [lastIndex] from one call of [test] to the next; such patterns are not
    modelled. *)
Record RegExp : Type := mkRegExp {
  regexp_test : string -> bool
}.

(** What [require(path)] finds. *)
Inductive Export (F : Type) : Type :=
| ExportFunction (f : F)
| ExportOther.
Arguments ExportFunction {F} f.
Arguments ExportOther {F}.

(** The runtime around the manager: the module loader and the compiler of
    regular expressions. *)
Class Runtime : Type := mkRuntime {
  require_filter : forall T, string -> option (Export (JsFunction T));
  require_comparator : string -> option (Export JsComparator);
  RegExp_new : string -> Result RegExp
}.

(** [_.filter(xs, f)] *)
Definition lodash_filter {T} (f : JsFunction T) (xs : list T) : list T :=
  snd <$> List.filter (fun '(i, x) => fn_call f x i xs) (imap pair xs).

(** [Array.prototype.sort(cmp)], as the engine of the build (Node 6.2)
    sorts an array of at most ten elements: each element is moved left
    past the elements that compare greater, [cmp] being called with the
    earlier element first.  The prefix already sorted is held in reverse.
    A longer array is sorted by another procedure; what is stated of the
    order below asks for a consistent comparator, with which every sort
    of the language gives an ordered result. *)
Fixpoint sort_insert {A} (cmp : A -> A -> Z) (element : A) (sorted_rev : list A)
  : list A :=
  match sorted_rev with
  | [] => [element]
  | tmp :: rest =>
      if 0 <? cmp tmp element then tmp :: sort_insert cmp element rest
      else element :: sorted_rev
  end.

Definition Array_sort {A} (cmp : A -> A -> Z) (xs : list A) : list A :=
  rev (foldl (fun sorted_rev x => sort_insert cmp x sorted_rev) [] xs).

(** [path.extname]: the extension of the last segment of the path, from its
    last dot; empty when that segment has no dot or only a leading one. *)
Fixpoint drop_trailing_slashes_rev (rev_path : list ascii) : list ascii :=
  match rev_path with
  | "/"%char :: rest => drop_trailing_slashes_rev rest
  | _ => rev_path
  end.

Fixpoint take_segment_rev (rev_path : list ascii) : list ascii :=
  match rev_path with
  | [] => []
  | "/"%char :: _ => []
  | c :: rest => c :: take_segment_rev rest
  end.

(** On the reversed segment: the characters after the last dot, reversed,
    and what precedes that dot. *)
Fixpoint split_last_dot_rev (rev_seg : list ascii)
  : option (list ascii * list ascii) :=
  match rev_seg with
  | [] => None
  | "."%char :: before => Some ([], before)
  | c :: rest =>
      match split_last_dot_rev rest with
      | Some (ext_rev, before) => Some (c :: ext_rev, before)
      | None => None
      end
  end.

Definition extname (p : string) : string :=
  let seg_rev :=
    take_segment_rev (drop_trailing_slashes_rev (rev (list_ascii_of_string p))) in
  match split_last_dot_rev seg_rev with
  | None => ""
  | Some (ext_rev, before) =>
      match before, ext_rev with
      | [], _ => ""                      (* ".bashrc", "." *)
      | ["."%char], [] => ""             (* ".." *)
      | _, _ => string_of_list_ascii ("."%char :: rev ext_rev)
      end
  end.

(** A plain object: its own enumerable keys in their order, each with its
    value; no key occurs twice. *)
Abbreviation JsObject V := (list (string * V)) (only parsing).

(** [object[key]] *)
Fixpoint get_property {V} (object : JsObject V) (key : string) : option V :=
  match object with
  | [] => None
  | (k, v) :: rest =>
      if String.eqb k key then Some v else get_property rest key
  end.

(** [_.pick(object, key)] for one key: the object of that property alone,
    empty when [object] has no such key. *)
Definition lodash_pick {V} (object : JsObject V) (key : string) : JsObject V :=
  match get_property object key with
  | Some v => [(key, v)]
  | None => []
  end.

(** [Job.createFromID] over the entries of a hash reply, as [_.map] applies
    it; the first failure is thrown. *)
Fixpoint jobs_of_entries (entries : list (string * string)) : Result (list Job) :=
  match entries with
  | [] => Ok []
  | (jobID, count) :: rest =>
      match createFromID jobID (Some count) with
      | Throw e => Throw e
      | Ok job =>
          match jobs_of_entries rest with
          | Throw e => Throw e
          | Ok jobs => Ok (job :: jobs)
          end
      end
  end.

(** Modelled from the spec: [JSON.parse(job)] in [initialize] goes through
    the string conversion of a [Job], which [job.js] defines; the spec has
    the completed entry's index name compared, so the parsed object carries
    the job's own fields. *)
Definition JSON_parse (j : Job) : JobParams :=
  mkParams (index j) (type j) (Some (count j)).

(** [_.find(objects, {index: name})], as a truth value. *)
Definition find_index (objects : list JobParams) (name : string) : bool :=
  existsb (fun o => String.eqb (params_index o) name) objects.

(** The entry of the filtered list: an index and its selected type names. *)
Record Target : Type := mkTarget {
  target_index : string;
  target_types : list string
}.

(** What [setIndexFilter] and [setTypeFilter] are given. *)
Inductive FilterArg (T : Type) : Type :=
| FilterString (s : string)
| FilterRegExp (r : RegExp)
| FilterFunction (f : JsFunction T)
| FilterOther.
Arguments FilterString {T} s.
Arguments FilterRegExp {T} r.
Arguments FilterFunction {T} f.
Arguments FilterOther {T}.

(** What [setIndexComparator] is given. *)
Inductive ComparatorArg : Type :=
| ComparatorString (s : string)
| ComparatorFunction (c : JsComparator)
| ComparatorOther.

(** [(target) => regex.test(target.name)]; the log line of the wrapper is
    left out. *)
Definition regexp_filter {T} `{Named T} (r : RegExp) : JsFunction T :=
  mkFunction 1%nat (fun target _ _ => regexp_test r (name_of target)).

(** The reduce of [prepareNewJobs]: one plain job per index and type. *)
Definition expand_targets (targets : list Target) : list JobParams :=
  foldl (fun result target =>
           result ++ ((fun t => mkParams (target_index target) t None)
                        <$> target_types target))
        [] targets.

(** The reduce of [getIndices]: the response with each name set. *)
Definition name_indices (response : list (string * IndexBody)) : list IndexObj :=
  foldl (fun result '(name, body) =>
           result ++ [mkIndexObj name (body_mappings body)])
        [] response.

(** The inner reduce of [filterIndicesAndTypes]. *)
Definition name_types (ms : list (string * string)) : list TypeObj :=
  foldl (fun inner_result '(name, body) => inner_result ++ [mkTypeObj name body])
        [] ms.

(** * [src/app/manager.js] *)

Module App.

(** The module-level variables [indexFilter], [indexComparator],
    [typeFilter] and [source].  The fifth, [redis], is the client whose
    server is the [store] of the state; [Instances] below keeps it as a
    variable too. *)
Record ModVars : Type := mkVars {
  indexFilter : option (JsFunction IndexObj);
  indexComparator : option JsComparator;
  typeFilter : option (JsFunction TypeObj);
  source : option Source
}.

Definition initial_vars : ModVars := mkVars None None None None.

#[local] Abbreviation M := (M ModVars).

Definition fetchJob : M (option Job) :=
  jobID ← redis (Redis.lpop BACKLOG_QUEUE_KEY);
  match jobID with
  | None => mret None
  | Some jobID =>
      count ← redis (Redis.hget BACKLOG_HSET_KEY jobID);
      job ← lift_result (createFromID jobID count);
      redis (Redis.hdel BACKLOG_HSET_KEY (getID job));;
      mret (Some job)
  end.

(** Resolves with nothing when the job was already queued, else with the
    reply of the push. *)
Definition queueJob (job : JobArg) : M (option Z) :=
  job ← lift_result (coerce_job job);
  numberAdded ← redis (Redis.hset BACKLOG_HSET_KEY (getID job)
                                  (toString (count job)));
  if numberAdded =? 0 then
    emit (LogWarnQueued job);;
    mret None
  else
    len ← redis (Redis.rpush BACKLOG_QUEUE_KEY (getID job));
    mret (Some len).

Definition completeJob (job : JobArg) : M Z :=
  job ← lift_result (coerce_job job);
  redis (Redis.hset COMPLETED_KEY (getID job) (toString (count job))).

Definition clearBacklogJobs : M Z :=
  emit (LogInfo "clearing existing backlog");;
  redis (Redis.del (KList BACKLOG_QUEUE_KEY));;
  redis (Redis.del (KHash BACKLOG_HSET_KEY)).

Definition getBacklogJobs : M (list Job) :=
  jobsAndCounts ← redis (Redis.hgetall BACKLOG_HSET_KEY);
  lift_result (jobs_of_entries jobsAndCounts).

Definition getBacklogCount : M JsNum :=
  counts ← redis (Redis.hvals BACKLOG_HSET_KEY);
  mret (sum_counts counts).

Definition getCompletedJobs : M (list Job) :=
  jobsAndCounts ← redis (Redis.hgetall COMPLETED_KEY);
  lift_result (jobs_of_entries jobsAndCounts).

Definition getCompletedCount : M JsNum :=
  counts ← redis (Redis.hvals COMPLETED_KEY);
  mret (sum_counts counts).

Definition clearCompletedJobs : M Z :=
  redis (Redis.del (KHash COMPLETED_KEY)).

(** The callback of [addCountToJobs]. *)
Definition count_job (job : JobParams) : M JobParams :=
  v ← get_vars;
  match source v with
  | None => throw (TypeError "Cannot read property 'count' of null")
  | Some src =>
      result ← ask_count src (params_index job) (params_type job);
      mret (mkParams (params_index job) (params_type job)
                     (Some (parseInt (count_text result))))
  end.

Definition addCountToJobs (jobs : list JobParams) : M (list JobParams) :=
  emit (LogInfo "counting docs in existing indices");;
  mapSeries count_job jobs.

Definition getIndices (client : option Source) (targetIndices : string)
  : M (list IndexObj) :=
  match client with
  | None => throw (TypeError "Cannot read property 'indices' of null")
  | Some client =>
      emit (RequestIndices targetIndices);;
      response ← lift_result (source_indices_get client targetIndices);
      mret (name_indices response)
  end.

Definition filterIndicesAndTypes (allIndices : list IndexObj)
  : M (list Target) :=
  v ← get_vars;
  let selectedIndices :=
    match indexFilter v with
    | Some f => lodash_filter f allIndices
    | None => allIndices
    end in
  mret (foldl (fun result index =>
           let allTypes := name_types (mappings index) in
           let selectedTypes :=
             match typeFilter v with
             | Some f => lodash_filter f allTypes
             | None => allTypes
             end in
           let typeNames := type_name <$> selectedTypes in
           if (0 <? length typeNames)%nat
           then result ++ [mkTarget (index_name index) typeNames]
           else result)
         [] selectedIndices).

Definition prepareNewJobs (indexNames : string) : M (list JobParams) :=
  emit (LogInfo "preparing new jobs");;
  v ← get_vars;
  allIndices ← getIndices (source v) indexNames;
  filteredTargets ← filterIndicesAndTypes allIndices;
  v ← get_vars;
  let sortedTarget :=
    match indexComparator v with
    | Some cmp =>
        Array_sort (fun a b => cmp_call cmp (target_index a) (target_index b))
                   filteredTargets
    | None => filteredTargets
    end in
  mret (expand_targets sortedTarget).

Definition initialize (indexNames : string) (ignoreCompleted : bool)
  : M (list JobParams) :=
  emit (LogInfo "initializing job backlog..");;
  clearBacklogJobs;;
  potentialJobs ← prepareNewJobs indexNames;
  remaining ←
    (if ignoreCompleted then
       clearCompletedJobs;;
       mret potentialJobs
     else
       completed ← getCompletedJobs;
       let completedJobs := JSON_parse <$> completed in
       mret (List.filter
               (fun potentialJob =>
                  negb (find_index completedJobs (params_index potentialJob)))
               potentialJobs));
  jobs ← addCountToJobs remaining;
  emit (LogInfo "Adding jobs to queue");;
  each (fun job => queueJob (IsParams job)) jobs.

Section WithRuntime.
Context `{Runtime}.

Definition getFilterFunction {T} `{Named T} (filter : FilterArg T)
  : M (JsFunction T) :=
  filterFunction ←
    match filter with
    | FilterString s =>
        let extension := extname s in
        if (1 <? String.length extension)%nat then
          if negb (String.eqb extension ".js") then
            throw (Error "filter was interpreted as a path to a non-js file")
          else
            match require_filter T s with
            | None =>
                throw (Error "filter was interpreted as a path and cannot be found")
            | Some loaded =>
                emit (LogInfo "Loaded filter as module");;
                match loaded with
                | ExportFunction f => mret f
                | ExportOther =>
                    throw (Error "filter was interpreted as a path and module does not return a function")
                end
            end
        else
          regex ← lift_result (RegExp_new s);
          emit (LogInfo "Loaded filter as regex");;
          mret (regexp_filter regex)
    | FilterRegExp r =>
        emit (LogInfo "Loaded filter as regex");;
        mret (regexp_filter r)
    | FilterFunction f =>
        emit (LogInfo "Loaded filter as function");;
        mret f
    | FilterOther =>
        throw (Error "filter could not be interpreted")
    end;
  if (fn_length filterFunction <? 1)%nat then
    throw (Error "filter function must take at least one argument")
  else mret filterFunction.

Definition setIndexFilter (filter : FilterArg IndexObj) : M unit :=
  f ← getFilterFunction filter;
  v ← get_vars;
  put_vars (mkVars (Some f) (indexComparator v) (typeFilter v) (source v));;
  emit (LogInfo "set index filter: ").

Definition setIndexComparator (comparator : ComparatorArg) : M unit :=
  comparator ←
    match comparator with
    | ComparatorString s =>
        match require_comparator s with
        | None => throw (Error "Cannot find module")
        | Some loaded => mret loaded
        end
    | ComparatorFunction c => mret (ExportFunction c)
    | ComparatorOther => mret ExportOther
    end;
  match comparator with
  | ExportFunction c =>
      if negb (cmp_length c =? 2)%nat then
        throw (Error "comparator must be a function that takes 2 arguments")
      else
        v ← get_vars;
        put_vars (mkVars (indexFilter v) (Some c) (typeFilter v) (source v));;
        emit (LogInfo "set comparator")
  | ExportOther =>
      throw (Error "comparator must be a function that takes 2 arguments")
  end.

Definition setTypeFilter (filter : FilterArg TypeObj) : M unit :=
  f ← getFilterFunction filter;
  v ← get_vars;
  put_vars (mkVars (indexFilter v) (indexComparator v) (Some f) (source v));;
  emit (LogInfo "set type filter: ").

End WithRuntime.

(** [self._resetFiltersAndComparators] *)
Definition resetFiltersAndComparators : M unit :=
  v ← get_vars;
  put_vars (mkVars None None None (source v)).

End App.

(** * [src/unnamed/part_000] *)

Module Part000.

(** A filter is stored as it was given: a pattern or a function. *)
Inductive Filter (T : Type) : Type :=
| IsRegExp (r : RegExp)
| IsFunction (f : JsFunction T).
Arguments IsRegExp {T} r.
Arguments IsFunction {T} f.

(** The module-level variables; the store client is an import of the
    module, its server the [store] of the state. *)
Record ModVars : Type := mkVars {
  indexFilter : option (Filter IndexObj);
  indexComparator : option JsComparator;
  typeFilter : option (Filter TypeObj);
  source : option Source;
  totalCount : JsNum
}.

Definition initial_vars : ModVars := mkVars None None None None (Num 0).

#[local] Abbreviation M := (M ModVars).

(** [!job]: a [Job] and a plain object are both truthy, [null] and
    [undefined] are not. *)
Definition falsy (job : JobArg) : bool :=
  match job with
  | IsJob _ => false
  | IsParams _ => false
  | IsNull => true
  end.

Definition fetchJob : M (option Job) :=
  jobID ← redis (Redis.lpop BACKLOG_QUEUE_KEY);
  match jobID with
  | None => mret None
  | Some jobID =>
      count ← redis (Redis.hget BACKLOG_HSET_KEY jobID);
      job ← lift_result (createFromID jobID count);
      redis (Redis.hdel BACKLOG_HSET_KEY (getID job));;
      mret (Some job)
  end.

Definition queueJob (job : JobArg) : M (option Z) :=
  if falsy job then throw (Error "job must be provided")
  else
    job ← lift_result (coerce_job job);
    numberAdded ← redis (Redis.hset BACKLOG_HSET_KEY (getID job)
                                    (toString (count job)));
    if numberAdded =? 0 then
      emit (LogWarnQueued job);;
      mret None
    else
      len ← redis (Redis.rpush BACKLOG_QUEUE_KEY (getID job));
      mret (Some len).

Definition completeJob (job : JobArg) : M Z :=
  job ← lift_result (coerce_job job);
  redis (Redis.hset COMPLETED_KEY (getID job) (toString (count job))).

Definition clearBacklogJobs : M Z :=
  emit (LogInfo "clearing existing backlog");;
  redis (Redis.del (KList BACKLOG_QUEUE_KEY));;
  redis (Redis.del (KHash BACKLOG_HSET_KEY)).

(** [jobs || []]: an array is truthy, so this is [jobs]. *)
Definition getBacklogJobs : M (list Job) :=
  jobsAndCounts ← redis (Redis.hgetall BACKLOG_HSET_KEY);
  lift_result (jobs_of_entries jobsAndCounts).

(** The reply of [hvals] is an array, never [null]: the guard of the
    source does not fire. *)
Definition getBacklogCount : M JsNum :=
  counts ← redis (Redis.hvals BACKLOG_HSET_KEY);
  mret (sum_counts counts).

Definition getCompletedJobs : M (list Job) :=
  jobsAndCounts ← redis (Redis.hgetall COMPLETED_KEY);
  lift_result (jobs_of_entries jobsAndCounts).

Definition getCompletedCount : M JsNum :=
  counts ← redis (Redis.hvals COMPLETED_KEY);
  mret (sum_counts counts).

Definition clearCompletedJobs : M Z :=
  redis (Redis.del (KHash COMPLETED_KEY)).

(** [_picked(input)] on a plain object that has no [length] property
    (lodash takes an object with a numeric [length] for an array and visits
    its indices): one object per own key, in the order of the keys, each
    made by [_.pick(input, key)].  No function of the file calls it. *)
Definition _picked {V} (input : JsObject V) : list (JsObject V) :=
  foldl (fun result '(key, _) => result ++ [lodash_pick input key]) [] input.

(** [updateJobStatus(job)]: the body is empty. *)
Definition updateJobStatus (job : JobArg) : M unit := mret tt.

(** [self.getTotalCount] *)
Definition getTotalCount : M JsNum :=
  v ← get_vars;
  mret (totalCount v).

(** The callback of [addCountToJobs]. *)
Definition count_job (job : JobParams) : M JobParams :=
  v ← get_vars;
  match source v with
  | None => throw (TypeError "Cannot read property 'count' of null")
  | Some src =>
      result ← ask_count src (params_index job) (params_type job);
      let count := parseInt (count_text result) in
      v ← get_vars;
      put_vars (mkVars (indexFilter v) (indexComparator v) (typeFilter v)
                       (source v) (js_add (totalCount v) count));;
      mret (mkParams (params_index job) (params_type job) (Some count))
  end.

Definition addCountToJobs (jobs : list JobParams) : M (list JobParams) :=
  emit (LogInfo "counting docs in existing indices");;
  mapSeries count_job jobs.

Definition getIndices (client : option Source) (targetIndices : string)
  : M (list IndexObj) :=
  match client with
  | None => throw (TypeError "Cannot read property 'indices' of null")
  | Some client =>
      emit (RequestIndices targetIndices);;
      response ← lift_result (source_indices_get client targetIndices);
      mret (name_indices response)
  end.

(** The three branches on a stored filter. *)
Definition apply_filter {T} `{Named T} (filter : option (Filter T))
  (xs : list T) : list T :=
  match filter with
  | Some (IsRegExp r) => lodash_filter (regexp_filter r) xs
  | Some (IsFunction f) => lodash_filter f xs
  | None => xs
  end.

Definition filterIndicesAndTypes (allIndices : list IndexObj)
  : M (list Target) :=
  v ← get_vars;
  let selectedIndices := apply_filter (indexFilter v) allIndices in
  mret (foldl (fun result index =>
           let allTypes := name_types (mappings index) in
           let selectedTypes := apply_filter (typeFilter v) allTypes in
           let typeNames := type_name <$> selectedTypes in
           if (0 <? length typeNames)%nat
           then result ++ [mkTarget (index_name index) typeNames]
           else result)
         [] selectedIndices).

Definition prepareNewJobs (indexNames : string) : M (list JobParams) :=
  emit (LogInfo "preparing new jobs");;
  v ← get_vars;
  allIndices ← getIndices (source v) indexNames;
  filteredTargets ← filterIndicesAndTypes allIndices;
  v ← get_vars;
  let sortedTarget :=
    match indexComparator v with
    | Some cmp =>
        Array_sort (fun a b => cmp_call cmp (target_index a) (target_index b))
                   filteredTargets
    | None => filteredTargets
    end in
  mret (expand_targets sortedTarget).

(** [getCompletedJobs] resolves with an array, so the [null] test of the
    source is never true. *)
Definition initialize (indexNames : string) (ignoreCompleted : bool)
  : M (list JobParams) :=
  clearBacklogJobs;;
  potentialJobs ← prepareNewJobs indexNames;
  remaining ←
    (if ignoreCompleted then
       clearCompletedJobs;;
       mret potentialJobs
     else
       completed ← getCompletedJobs;
       let completedJobs := JSON_parse <$> completed in
       mret (List.filter
               (fun potentialJob =>
                  negb (find_index completedJobs (params_index potentialJob)))
               potentialJobs));
  jobs ← addCountToJobs remaining;
  emit (LogInfo "Adding jobs to queue");;
  each (fun job => queueJob (IsParams job)) jobs.

(** The test shared by [setIndexFilter] and [setTypeFilter]. *)
Definition check_filter {T} (filter : FilterArg T) : Result (Filter T) :=
  match filter with
  | FilterRegExp r => Ok (IsRegExp r)
  | FilterFunction f =>
      if (fn_length f =? 1)%nat then Ok (IsFunction f)
      else Throw (Error "filter must be a regex or function that takes 1 argument")
  | _ => Throw (Error "filter must be a regex or function that takes 1 argument")
  end.

Definition setIndexFilter (filter : FilterArg IndexObj) : M unit :=
  f ← lift_result (check_filter filter);
  v ← get_vars;
  put_vars (mkVars (Some f) (indexComparator v) (typeFilter v) (source v)
                   (totalCount v)).

Definition setIndexComparator (comparator : ComparatorArg) : M unit :=
  match comparator with
  | ComparatorFunction c =>
      if negb (cmp_length c =? 2)%nat then
        throw (Error "comparator must be a function that takes 2 arguments")
      else
        v ← get_vars;
        put_vars (mkVars (indexFilter v) (Some c) (typeFilter v) (source v)
                         (totalCount v))
  | _ => throw (Error "comparator must be a function that takes 2 arguments")
  end.

Definition setTypeFilter (filter : FilterArg TypeObj) : M unit :=
  f ← lift_result (check_filter filter);
  v ← get_vars;
  put_vars (mkVars (indexFilter v) (indexComparator v) (Some f) (source v)
                   (totalCount v)).

Definition resetFiltersAndComparators : M unit :=
  v ← get_vars;
  put_vars (mkVars None None None (source v) (totalCount v)).

End Part000.

(** * Instances of the manager of [src/app/manager.js]

    The constructor copies the module's functions into the new object and
    assigns the module-level [source] and [redis]; the functions read the
    module-level variables, never the object. *)

Module Instances.
Section WithRuntime.
Context `{Runtime}.

#[local] Abbreviation M := (M App.ModVars).

(** A store client; the server it is connected to is found in [servers]. *)
Definition Client : Type := nat.

(** The object [self] after the constructor. *)
Record Instance : Type := mkInstance {
  self_source : Source;
  self_setIndexFilter : FilterArg IndexObj -> M unit;
  self_setIndexComparator : ComparatorArg -> M unit;
  self_setTypeFilter : FilterArg TypeObj -> M unit;
  self_getFilterFunction : forall T, Named T -> FilterArg T -> M (JsFunction T);
  self_getIndices : option Source -> string -> M (list IndexObj);
  self_filterIndicesAndTypes : list IndexObj -> M (list Target);
  self_fetchJob : M (option Job);
  self_queueJob : JobArg -> M (option Z);
  self_completeJob : JobArg -> M Z;
  self_getCompletedJobs : M (list Job);
  self_getCompletedCount : M JsNum;
  self_getBacklogJobs : M (list Job);
  self_getBacklogCount : M JsNum;
  self_clearBacklogJobs : M Z;
  self_clearCompletedJobs : M Z;
  self_prepareNewJobs : string -> M (list JobParams);
  self_initialize : string -> bool -> M (list JobParams);
  self_addCountToJobs : list JobParams -> M (list JobParams);
  self_resetFiltersAndComparators : M unit
}.

(** The module once loaded: its variables, the servers reachable through
    the clients, the log and the objects constructed so far. *)
Record World : Type := mkWorld {
  mod_vars : App.ModVars;
  redis_var : option Client;
  servers : gmap Client Store;
  log : list Event;
  instances : list Instance
}.

(** The module just loaded: every variable is [null]. *)
Definition loaded (servers : gmap Client Store) : World :=
  mkWorld App.initial_vars None servers [] [].

Definition server_of (w : World) (c : Client) : Store :=
  default empty_store (servers w !! c).

(** The object [self] at the end of the constructor: [self.source], then
    the functions of the module, one per method. *)
Definition Manager_self (sourceEs : Source) : Instance :=
  mkInstance sourceEs
    App.setIndexFilter App.setIndexComparator App.setTypeFilter
    (fun T _ => App.getFilterFunction)
    App.getIndices App.filterIndicesAndTypes
    App.fetchJob App.queueJob App.completeJob
    App.getCompletedJobs App.getCompletedCount
    App.getBacklogJobs App.getBacklogCount
    App.clearBacklogJobs App.clearCompletedJobs
    App.prepareNewJobs App.initialize
    App.addCountToJobs App.resetFiltersAndComparators.

(** [new Manager(sourceEs, redisClient)]: the position of the new object
    and the world after the constructor, which has assigned the
    module-level [source] and [redis]. *)
Definition Manager (sourceEs : Source) (redisClient : Client) (w : World)
  : nat * World :=
  let v := mod_vars w in
  (length (instances w),
   mkWorld (App.mkVars (App.indexFilter v) (App.indexComparator v)
                       (App.typeFilter v) (Some sourceEs))
           (Some redisClient) (servers w) (log w)
           (instances w ++ [Manager_self sourceEs])).

(** Runs a function of the module in the world: on the variables as they
    are now and on the server of the client that [redis] holds now. *)
Definition run {A} (m : M A) (w : World) : Result A * World :=
  match redis_var w with
  | None => (Throw (TypeError "redis is null"), w)
  | Some c =>
      let '(r, st) := m (mkSt (mod_vars w) (server_of w c) (log w)) in
      (r, mkWorld (vars st) (Some c) (<[c := store st]> (servers w))
                  (events st) (instances w))
  end.

(** [object.method(...)]: the method is read off the object [self] and
    called. *)
Definition call {A} (self : nat) (method : Instance -> M A) (w : World)
  : Result A * World :=
  match instances w !! self with
  | None => (Throw (TypeError "undefined is not an object"), w)
  | Some object => run (method object) w
  end.

End WithRuntime.
End Instances.

(** * Instances of the manager of [src/unnamed/part_000]

    The same construction; the store client is an import of the module, so
    every object of the process works on the one server. *)

Module Instances000.

#[local] Abbreviation M := (M Part000.ModVars).

(** The object [self] after the constructor. *)
Record Instance : Type := mkInstance {
  self_source : Source;
  self_setIndexFilter : FilterArg IndexObj -> M unit;
  self_setIndexComparator : ComparatorArg -> M unit;
  self_setTypeFilter : FilterArg TypeObj -> M unit;
  self_getIndices : option Source -> string -> M (list IndexObj);
  self_filterIndicesAndTypes : list IndexObj -> M (list Target);
  self_fetchJob : M (option Job);
  self_queueJob : JobArg -> M (option Z);
  self_completeJob : JobArg -> M Z;
  self_getCompletedJobs : M (list Job);
  self_getCompletedCount : M JsNum;
  self_getBacklogJobs : M (list Job);
  self_getBacklogCount : M JsNum;
  self_getTotalCount : M JsNum;
  self_clearBacklogJobs : M Z;
  self_clearCompletedJobs : M Z;
  self_prepareNewJobs : string -> M (list JobParams);
  self_initialize : string -> bool -> M (list JobParams);
  self_addCountToJobs : list JobParams -> M (list JobParams);
  self_resetFiltersAndComparators : M unit
}.

Record World : Type := mkWorld {
  mod_vars : Part000.ModVars;
  server : Store;
  log : list Event;
  instances : list Instance
}.

(** The module just loaded. *)
Definition loaded (s : Store) : World :=
  mkWorld Part000.initial_vars s [] [].

Definition Manager_self (sourceEs : Source) : Instance :=
  mkInstance sourceEs
    Part000.setIndexFilter Part000.setIndexComparator Part000.setTypeFilter
    Part000.getIndices Part000.filterIndicesAndTypes
    Part000.fetchJob Part000.queueJob Part000.completeJob
    Part000.getCompletedJobs Part000.getCompletedCount
    Part000.getBacklogJobs Part000.getBacklogCount
    Part000.getTotalCount
    Part000.clearBacklogJobs Part000.clearCompletedJobs
    Part000.prepareNewJobs Part000.initialize
    Part000.addCountToJobs Part000.resetFiltersAndComparators.

(** [new Manager(sourceEs)] *)
Definition Manager (sourceEs : Source) (w : World) : nat * World :=
  let v := mod_vars w in
  (length (instances w),
   mkWorld (Part000.mkVars (Part000.indexFilter v) (Part000.indexComparator v)
                           (Part000.typeFilter v) (Some sourceEs)
                           (Part000.totalCount v))
           (server w) (log w) (instances w ++ [Manager_self sourceEs])).

Definition run {A} (m : M A) (w : World) : Result A * World :=
  let '(r, st) := m (mkSt (mod_vars w) (server w) (log w)) in
  (r, mkWorld (vars st) (store st) (events st) (instances w)).

Definition call {A} (self : nat) (method : Instance -> M A) (w : World)
  : Result A * World :=
  match instances w !! self with
  | None => (Throw (TypeError "undefined is not an object"), w)
  | Some object => run (method object) w
  end.

End Instances000.

(** * Concurrent callers of [fetchJob]

    Each caller runs the promise chain of [fetchJob]; every command it
    sends is atomic on the server, and the commands of different callers
    interleave in any order. *)

Module Workers.

(** Where a caller is in the chain. *)
Inductive Worker : Type :=
| Calling                    (* [lpop] not yet sent *)
| Popped (jobID : string)    (* [lpop] replied; [hget] not yet sent *)
| Created (job : Job)        (* the job is built; [hdel] not yet sent *)
| Returned (r : Result (option Job)).

(** The next command of a caller, on the server. *)
Definition worker_step (w : Worker) (s : Store) : option (Worker * Store) :=
  match w with
  | Calling =>
      let '(jobID, s') := Redis.lpop BACKLOG_QUEUE_KEY s in
      Some (match jobID with
            | None => Returned (Ok None)
            | Some jobID => Popped jobID
            end, s')
  | Popped jobID =>
      let '(count, s') := Redis.hget BACKLOG_HSET_KEY jobID s in
      Some (match createFromID jobID count with
            | Ok job => Created job
            | Throw e => Returned (Throw e)
            end, s')
  | Created job =>
      let '(_, s') := Redis.hdel BACKLOG_HSET_KEY (getID job) s in
      Some (Returned (Ok (Some job)), s')
  | Returned _ => None
  end.

Record System : Type := mkSystem {
  server : Store;
  workers : list Worker
}.

(** Caller [i] sends its next command. *)
Definition step (i : nat) (σ : System) : option System :=
  match workers σ !! i with
  | None => None
  | Some w =>
      match worker_step w (server σ) with
      | None => None
      | Some (w', s') => Some (mkSystem s' (<[i := w']> (workers σ)))
      end
  end.

(** A schedule names the caller that moves at each step. *)
Fixpoint exec (schedule : list nat) (σ : System) : option System :=
  match schedule with
  | [] => Some σ
  | i :: rest =>
      match step i σ with
      | None => None
      | Some σ' => exec rest σ'
      end
  end.

Definition start (s : Store) (n : nat) : System :=
  mkSystem s (replicate n Calling).

Definition returned (w : Worker) : bool :=
  match w with Returned _ => true | _ => false end.

(** The job a caller returned, if it returned one. *)
Definition job_of (w : Worker) : option Job :=
  match w with Returned (Ok (Some job)) => Some job | _ => None end.

(** "No job available". *)
Definition no_job (w : Worker) : bool :=
  match w with Returned (Ok None) => true | _ => false end.

(** The first caller that has not returned. *)
Fixpoint first_running (ws : list Worker) : option nat :=
  match ws with
  | [] => None
  | w :: ws' => if returned w then S <$> first_running ws' else Some 0%nat
  end.

(** The schedule that lets the callers run one after the other, each to
    its end. *)
Fixpoint one_by_one (fuel : nat) (σ : System) : list nat :=
  match fuel with
  | O => []
  | S fuel' =>
      match first_running (workers σ) with
      | None => []
      | Some i =>
          match step i σ with
          | Some σ' => i :: one_by_one fuel' σ'
          | None => []
          end
      end
  end.

(** The ids a caller has taken off the queue. *)
Definition held (w : Worker) : list string :=
  match w with
  | Popped jobID => [jobID]
  | Created job => [getID job]
  | Returned (Ok (Some job)) => [getID job]
  | _ => []
  end.

Definition failed (w : Worker) : bool :=
  match w with Returned (Throw _) => true | _ => false end.

(** The commands a caller may still send. *)
Definition remaining (w : Worker) : nat :=
  match w with
  | Calling => 3
  | Popped _ => 2
  | Created _ => 1
  | Returned _ => 0
  end%nat.

(** The ids all the callers have taken. *)
Definition all_held (ws : list Worker) : list string := mjoin (held <$> ws).

(** What every interleaving keeps true, [ids] being the queue at the start:
    each id is in the queue or with one caller; a caller was told "no job"
    only once the queue was empty; no caller failed. *)
Definition consistent (ids : list string) (σ : System) : Prop :=
  backlog_queue (server σ) ++ all_held (workers σ) ≡ₚ ids
  /\ (Exists (fun w => no_job w = true) (workers σ) ->
      backlog_queue (server σ) = [])
  /\ Forall (fun w => failed w = false) (workers σ).

End Workers.

(** * Vocabulary of the statements *)

(** The backlog as sequential use leaves it: the queue holds no id twice,
    holds exactly the ids of the hash, and every id is the id of a job. *)
Definition backlog_ok (s : Store) : Prop :=
  NoDup (backlog_queue s)
  /\ (forall id, id ∈ backlog_queue s <-> is_Some (backlog_hset s !! id))
  /\ (forall id, id ∈ backlog_queue s ->
        exists j, Job_wf j = true /\ getID j = id).

(** The ids of a hash are ids of jobs. *)
Definition hash_ok (h : gmap string string) : Prop :=
  forall id, is_Some (h !! id) -> exists j, Job_wf j = true /\ getID j = id.

(** A [Job] handed to the manager came from the constructor. *)
Definition arg_wf (a : JobArg) : bool :=
  match a with
  | IsJob j => Job_wf j
  | IsParams _ => true
  | IsNull => true
  end.

(** The characters [String(n)] is made of. *)
Definition is_decimal (c : ascii) : Prop :=
  exists d, 0 <= d < 10 /\ c = digit_char d.

(** The total of the counts of a list of jobs, added as the reducer of
    [getBacklogCount] adds them. *)
Definition total_count (jobs : list Job) : JsNum :=
  foldl js_add (Num 0) (count <$> jobs).

(** The whole store as sequential use leaves it. *)
Definition store_ok (s : Store) : Prop :=
  backlog_ok s /\ hash_ok (completed s).

(** The operations a process performs on the backlog and the ledger. *)
Inductive Op : Type :=
| QueueJob (job : JobArg)
| FetchJob
| CompleteJob (job : JobArg)
| ClearBacklogJobs
| ClearCompletedJobs.

Definition op_wf (o : Op) : bool :=
  match o with
  | QueueJob a | CompleteJob a => arg_wf a
  | _ => true
  end.

(** The state after a promise, resolved or rejected. *)
Definition after {V A} (m : M V A) (st : St V) : St V := snd (m st).

Definition perform (o : Op) : St App.ModVars -> St App.ModVars :=
  match o with
  | QueueJob a => after (App.queueJob a)
  | FetchJob => after App.fetchJob
  | CompleteJob a => after (App.completeJob a)
  | ClearBacklogJobs => after App.clearBacklogJobs
  | ClearCompletedJobs => after App.clearCompletedJobs
  end.

(** The operations one after the other, each awaited. *)
Definition perform_all (ops : list Op) (st : St App.ModVars) : St App.ModVars :=
  foldl (fun st o => perform o st) st ops.

Definition perform_000 (o : Op) : St Part000.ModVars -> St Part000.ModVars :=
  match o with
  | QueueJob a => after (Part000.queueJob a)
  | FetchJob => after Part000.fetchJob
  | CompleteJob a => after (Part000.completeJob a)
  | ClearBacklogJobs => after Part000.clearBacklogJobs
  | ClearCompletedJobs => after Part000.clearCompletedJobs
  end.

Definition perform_all_000 (ops : list Op) (st : St Part000.ModVars)
  : St Part000.ModVars :=
  foldl (fun st o => perform_000 o st) st ops.

(** A fresh process on an empty store. *)
Definition fresh : St App.ModVars := mkSt App.initial_vars empty_store [].
Definition fresh_000 : St Part000.ModVars :=
  mkSt Part000.initial_vars empty_store [].

(** ** Sample data *)

Definition job_A1 : Job := mkJob "A" "t1" (Num 3).
Definition job_A2 : Job := mkJob "A" "t2" (Num 7).
Definition job_B1 : Job := mkJob "B" "t1" (Num 5).

(** A backlog that holds [B:t1] only. *)
Definition store_B1 : Store :=
  mkStore ["B:t1"] {["B:t1" := "5"]} ∅.

(** A backlog of two jobs, [A:t1] then [B:t1]. *)
Definition store_A1_B1 : Store :=
  mkStore ["A:t1"; "B:t1"] {["A:t1" := "3"; "B:t1" := "5"]} ∅.

(** A short life of the backlog. *)
Definition sample_ops : list Op :=
  [QueueJob (IsJob job_A1); QueueJob (IsParams (mkParams "B" "t1" (Some (Num 5))));
   QueueJob (IsJob job_A1); FetchJob; CompleteJob (IsJob job_A1)].

(** ** The filters, as the specification words them *)

(** Whether a predicate accepts the candidate at position [i] of [xs]; with
    no filter set every candidate is accepted. *)
Definition accepts {T} (filter : option (JsFunction T)) (xs : list T)
  (i : nat) (x : T) : bool :=
  match filter with
  | Some f => fn_call f x i xs
  | None => true
  end.

(** The candidates accepted, in their order. *)
Definition kept {T} (filter : option (JsFunction T)) (xs : list T) : list T :=
  omap (fun '(i, x) => if accepts filter xs i x then Some x else None)
       (imap pair xs).

(** The sub-collections of an index, as the type predicate sees them. *)
Definition types_of (index : IndexObj) : list TypeObj :=
  (fun '(name, body) => mkTypeObj name body) <$> mappings index.

(** The names of the sub-collections of an index that the type predicate
    accepts. *)
Definition kept_types (typeFilter : option (JsFunction TypeObj))
  (index : IndexObj) : list string :=
  type_name <$> kept typeFilter (types_of index).

(** The entry of an index in the result: none when no sub-collection is
    kept. *)
Definition kept_target (typeFilter : option (JsFunction TypeObj))
  (index : IndexObj) : option Target :=
  match kept_types typeFilter index with
  | [] => None
  | names => Some (mkTarget (index_name index) names)
  end.

Definition kept_targets (indexFilter : option (JsFunction IndexObj))
  (typeFilter : option (JsFunction TypeObj)) (allIndices : list IndexObj)
  : list Target :=
  omap (kept_target typeFilter) (kept indexFilter allIndices).

(** The predicate a stored filter of [part_000] stands for. *)
Definition filter_function {T} `{Named T} (f : Part000.Filter T) : JsFunction T :=
  match f with
  | Part000.IsRegExp r => regexp_filter r
  | Part000.IsFunction f => f
  end.

(** A runtime for the examples: no module on disk, and patterns read as
    plain prefixes. *)
Definition sample_runtime : Runtime :=
  mkRuntime (fun _ _ => None) (fun _ => None)
            (fun s => Ok (mkRegExp (String.prefix s))).

(** [(index, position) => true], a predicate of declared arity two. *)
Definition two_argument_filter : JsFunction IndexObj :=
  mkFunction 2%nat (fun _ _ _ => true).

(** ** Count enrichment, as the specification words it *)

(** The count a reply of the source stands for. *)
Definition count_of (v : CountValue) : JsNum := parseInt (count_text v).

(** The job with its count set from the reply. *)
Definition counted (job : JobParams) (v : CountValue) : JobParams :=
  mkParams (params_index job) (params_type job) (Some (count_of v)).

(** The source answers the count query of [job] with [v]. *)
Definition answers (src : Source) (job : JobParams) (v : CountValue) : Prop :=
  source_count src (params_index job) (params_type job) = Ok v.

(** The query of [job] fails with [e]. *)
Definition refuses (src : Source) (job : JobParams) (e : JsError) : Prop :=
  source_count src (params_index job) (params_type job) = Throw e.

(** The trace of queries made one at a time: each request is followed by
    its reply before the next request is sent. *)
Definition one_at_a_time (jobs : list JobParams) : list Event :=
  jobs ≫= fun job =>
    [RequestCount (params_index job) (params_type job);
     ReplyCount (params_index job) (params_type job)].

(** [totalCount] of [part_000] set to [n]. *)
Definition with_total (v : Part000.ModVars) (n : JsNum) : Part000.ModVars :=
  Part000.mkVars (Part000.indexFilter v) (Part000.indexComparator v)
                 (Part000.typeFilter v) (Part000.source v) n.

(** A source for the examples: two indices, three sub-collections, and a
    count for each; anything else is an error. *)
Definition sample_source : Source :=
  mkSource
    (fun index type =>
       if String.eqb index "A" && String.eqb type "t1" then Ok (CountNumber (Num 3))
       else if String.eqb index "A" && String.eqb type "t2" then Ok (CountString "7")
       else if String.eqb index "B" && String.eqb type "t1" then Ok (CountNumber (Num 5))
       else Throw (Error "index_not_found_exception"))
    (fun _ =>
       Ok [("A", mkIndexBody [("t1", "{}"); ("t2", "{}")]);
           ("B", mkIndexBody [("t1", "{}")])]).

Definition params_A1 : JobParams := mkParams "A" "t1" None.
Definition params_A2 : JobParams := mkParams "A" "t2" None.
Definition params_B1 : JobParams := mkParams "B" "t1" None.
Definition params_C1 : JobParams := mkParams "C" "t1" None.

(** A process of [manager.js] constructed on [sample_source]. *)
Definition sample_state : St App.ModVars :=
  mkSt (App.mkVars None None None (Some sample_source)) empty_store [].

(** A process of [part_000] constructed on [sample_source]. *)
Definition sample_state_000 : St Part000.ModVars :=
  mkSt (Part000.mkVars None None None (Some sample_source) (Num 0))
       empty_store [].

(** [(a, b) => a < b ? 1 : (a > b ? -1 : 0)]: descending by name. *)
Definition descending : JsComparator :=
  mkComparator 2%nat
    (fun a b =>
       match String.compare a b with
       | Lt => 1
       | Eq => 0
       | Gt => -1
       end).

(** [sample_state] with the comparator set. *)
Definition scenario_state : St App.ModVars :=
  mkSt (App.mkVars None (Some descending) None (Some sample_source))
       (mkStore ["stale:job"] {["stale:job" := "1"]} {["A:t1" := "3"]}) [].

(** Index and type of a plain job. *)
Definition target_of (p : JobParams) : string * string :=
  (params_index p, params_type p).

(** The id of the job a plain object stands for. *)
Definition params_id (p : JobParams) : string :=
  params_index p +:+ String separator (params_type p).

(** The [ReconcileCompleted] stage: the jobs that go on to enrichment. *)
Definition reconcile (ignoreCompleted : bool) (ledger : gmap string string)
  (prepared : list JobParams) : Result (list JobParams) :=
  if ignoreCompleted then Ok prepared
  else
    match jobs_of_entries (map_to_list ledger) with
    | Ok completed =>
        Ok (List.filter
              (fun p => negb (find_index (JSON_parse <$> completed)
                                         (params_index p)))
              prepared)
    | Throw e => Throw e
    end.

(** [queueJob] as [initialize] calls it. *)
Definition enqueue (job : JobParams) : M App.ModVars (option Z) :=
  App.queueJob (IsParams job).

(** ** The two managers side by side *)

(** The variables of [manager.js] that configure it as [part_000] is
    configured: a stored pattern becomes its predicate. *)
Definition app_vars_of (v : Part000.ModVars) : App.ModVars :=
  App.mkVars (filter_function <$> Part000.indexFilter v)
             (Part000.indexComparator v)
             (filter_function <$> Part000.typeFilter v)
             (Part000.source v).

(** States of the two managers on the same store with the same
    configuration; the logs and the total of [part_000] are free. *)
Definition related (sta : St App.ModVars) (stp : St Part000.ModVars) : Prop :=
  store sta = store stp /\ vars sta = app_vars_of (vars stp).

(** From related states the two promises settle alike and leave related
    states. *)
Definition simulates {A} (m : M App.ModVars A) (m' : M Part000.ModVars A)
  : Prop :=
  forall sta stp,
    related sta stp ->
    fst (m sta) = fst (m' stp) /\ related (snd (m sta)) (snd (m' stp)).

(** What claim C4 asks of [initialize], given the ledger before the call,
    the jobs [prepareNewJobs] yields, the store left by
    [initialize(names, false)], the store left by [initialize(names, true)]
    and what the latter resolves with. *)
Definition reconciles (ledger : gmap string string)
  (prepare : Result (list JobParams)) (resumed restarted : Store)
  (restart_result : Result (list JobParams)) : Prop :=
  (* ignoreCompleted = false: no id in the queue is the id of a job whose
     index is the index of an entry of the ledger *)
  (forall id, id ∈ backlog_queue resumed ->
     exists job,
       Job_wf job = true /\ getID job = id
       /\ forall done_id done_count done_job,
            ledger !! done_id = Some done_count ->
            createFromID done_id (Some done_count) = Ok done_job ->
            index done_job <> index job)
  /\ completed resumed = ledger
  (* ignoreCompleted = true: the ledger is cleared, and the queue holds the
     prepared jobs, all of them when the call resolves *)
  /\ (forall prepared,
        prepare = Ok prepared ->
        completed restarted = ∅
        /\ (forall id, id ∈ backlog_queue restarted ->
              exists p job,
                p ∈ prepared /\ Job_wf job = true
                /\ index job = params_index p /\ type job = params_type p
                /\ getID job = id)
        /\ (forall jobs,
              restart_result = Ok jobs ->
              target_of <$> jobs = target_of <$> prepared
              /\ forall p, p ∈ prepared ->
                   exists job,
                     Job_wf job = true
                     /\ index job = params_index p /\ type job = params_type p
                     /\ getID job ∈ backlog_queue restarted)).

(** The source counts the documents of [job], and the names of [job] make
    a job id. *)
Definition countable (src : Source) (job : JobParams) : Prop :=
  (exists v, answers src job v)
  /\ has_separator (params_index job) = false
  /\ has_separator (params_type job) = false.

(** The ledger holds an entry whose index is [name]. *)
Definition completed_index (ledger : gmap string string) (name : string)
  : Prop :=
  exists done_id done_count done_job,
    ledger !! done_id = Some done_count
    /\ createFromID done_id (Some done_count) = Ok done_job
    /\ index done_job = name.

(** What claim C4 asks of [initialize] once the source has answered, given
    the ledger before the call and the jobs prepared: what
    [initialize(names, true)] resolves with and the store it leaves, and
    the same of [initialize(names, false)]. *)
Definition enqueues (ledger : gmap string string) (prepared : list JobParams)
  (restart_result : Result (list JobParams)) (restarted : Store)
  (resume_result : Result (list JobParams)) (resumed : Store) : Prop :=
  (* ignoreCompleted = true: the call resolves with the prepared jobs, the
     ledger is empty and the queue holds their ids, and no other *)
  (exists jobs,
     restart_result = Ok jobs
     /\ target_of <$> jobs = target_of <$> prepared
     /\ completed restarted = ∅
     /\ forall id, id ∈ backlog_queue restarted <-> id ∈ params_id <$> prepared)
  (* ignoreCompleted = false, on a ledger whose ids are ids of jobs: the
     call resolves with the prepared jobs whose index is not the index of
     an entry of the ledger, the ledger is kept and the queue holds their
     ids, and no other *)
  /\ (hash_ok ledger ->
      exists jobs remaining,
        resume_result = Ok jobs
        /\ target_of <$> jobs = target_of <$> remaining
        /\ (forall p, p ∈ remaining
                      <-> p ∈ prepared
                          /\ ~ completed_index ledger (params_index p))
        /\ completed resumed = ledger
        /\ forall id, id ∈ backlog_queue resumed
                      <-> id ∈ params_id <$> remaining).

(** The jobs [prepareNewJobs] builds from the response of the source, under
    the filters and the comparator of [v]. *)
Definition prepared_jobs (v : App.ModVars)
  (response : list (string * IndexBody)) : list JobParams :=
  let filteredTargets :=
    kept_targets (App.indexFilter v) (App.typeFilter v) (name_indices response) in
  expand_targets
    match App.indexComparator v with
    | Some cmp =>
        Array_sort (fun a b => cmp_call cmp (target_index a) (target_index b))
                   filteredTargets
    | None => filteredTargets
    end.

(** A second source for the examples: one index, [Z], of one type. *)
Definition other_source : Source :=
  mkSource (fun _ _ => Ok (CountNumber (Num 1)))
           (fun _ => Ok [("Z", mkIndexBody [("t9", "{}")])]).

(** A predicate that accepts the candidates named [B]. *)
Definition only_B : JsFunction IndexObj :=
  mkFunction 1%nat (fun index _ _ => String.eqb (index_name index) "B").

(** One process, two managers: the first on [sample_source] and the store
    client 0, the second on [other_source] and the store client 1. *)
Definition two_managers : Instances.World :=
  snd (@Instances.Manager sample_runtime other_source 1%nat
         (snd (@Instances.Manager sample_runtime sample_source 0%nat
                 (Instances.loaded ∅)))).

(** The same two managers in a process of [part_000]. *)
Definition two_managers_000 : Instances000.World :=
  snd (Instances000.Manager other_source
         (snd (Instances000.Manager sample_source
                 (Instances000.loaded empty_store)))).

(** * Concurrent callers of [queueJob]

    Each caller has built its [Job] (the synchronous start of [queueJob])
    and sends the commands of the chain: [hset], and then [rpush] when the
    field was created.  The commands of different callers interleave; the
    warning goes to the log of the caller's process, which the server does
    not see. *)

Module Queuers.

(** Where a caller is in the chain. *)
Inductive Caller : Type :=
| Calling (job : Job)          (* [hset] not yet sent *)
| Added (job : Job)            (* [hset] replied 1; [rpush] not yet sent *)
| Returned (reply : option Z). (* resolved: with nothing, or with the reply of the push *)

(** The next command of a caller, on the server. *)
Definition caller_step (c : Caller) (s : Store) : option (Caller * Store) :=
  match c with
  | Calling job =>
      let '(numberAdded, s') :=
        Redis.hset BACKLOG_HSET_KEY (getID job) (toString (count job)) s in
      Some (if numberAdded =? 0 then Returned None else Added job, s')
  | Added job =>
      let '(len, s') := Redis.rpush BACKLOG_QUEUE_KEY (getID job) s in
      Some (Returned (Some len), s')
  | Returned _ => None
  end.

Record System : Type := mkSystem {
  server : Store;
  callers : list Caller
}.

(** Caller [i] sends its next command. *)
Definition step (i : nat) (σ : System) : option System :=
  match callers σ !! i with
  | None => None
  | Some c =>
      match caller_step c (server σ) with
      | None => None
      | Some (c', s') => Some (mkSystem s' (<[i := c']> (callers σ)))
      end
  end.

(** A schedule names the caller that moves at each step. *)
Fixpoint exec (schedule : list nat) (σ : System) : option System :=
  match schedule with
  | [] => Some σ
  | i :: rest =>
      match step i σ with
      | None => None
      | Some σ' => exec rest σ'
      end
  end.

(** One caller per job, none has sent a command yet. *)
Definition start (s : Store) (jobs : list Job) : System :=
  mkSystem s (Calling <$> jobs).

Definition returned (c : Caller) : bool :=
  match c with Returned _ => true | _ => false end.

(** The caller's push went through. *)
Definition pushed (c : Caller) : bool :=
  match c with Returned (Some _) => true | _ => false end.

(** The ids whose field is created and whose push is still to come. *)
Definition pending (c : Caller) : list string :=
  match c with Added job => [getID job] | _ => [] end.

Definition all_pending (cs : list Caller) : list string := mjoin (pending <$> cs).

(** The ids the callers have not yet written. *)
Definition unsent (c : Caller) : list string :=
  match c with Calling job => [getID job] | _ => [] end.

(** The commands a caller may still send. *)
Definition remaining (c : Caller) : nat :=
  match c with
  | Calling _ => 2
  | Added _ => 1
  | Returned _ => 0
  end%nat.

(** The first caller that has not returned. *)
Fixpoint first_running (cs : list Caller) : option nat :=
  match cs with
  | [] => None
  | c :: cs' => if returned c then S <$> first_running cs' else Some 0%nat
  end.

(** The schedule that lets the callers run one after the other. *)
Fixpoint one_by_one (fuel : nat) (σ : System) : list nat :=
  match fuel with
  | O => []
  | S fuel' =>
      match first_running (callers σ) with
      | None => []
      | Some i =>
          match step i σ with
          | Some σ' => i :: one_by_one fuel' σ'
          | None => []
          end
      end
  end.

Definition all_unsent (cs : list Caller) : list string := mjoin (unsent <$> cs).

(** What every interleaving keeps true: no id is twice among the ids
    queued and the ids about to be pushed, and these are the ids of the
    hash. *)
Definition consistent (σ : System) : Prop :=
  NoDup (backlog_queue (server σ) ++ all_pending (callers σ))
  /\ forall id,
       id ∈ backlog_queue (server σ) ++ all_pending (callers σ)
       <-> is_Some (backlog_hset (server σ) !! id).

(** How a system stands to the store [s] and the jobs it started from: the
    queue has grown at its end by one id per push that went through; every
    id queued, about to be pushed or still to be written was in the queue
    or is the id of a job; the id of every job is still to be written or is
    in the hash. *)
Definition reached_from (s : Store) (jobs : list Job) (σ : System) : Prop :=
  (exists added,
     backlog_queue (server σ) = backlog_queue s ++ added
     /\ length (filter (fun c => pushed c = true) (callers σ)) = length added)
  /\ (forall id,
        id ∈ backlog_queue (server σ) ++ all_pending (callers σ)
             ++ all_unsent (callers σ) ->
        id ∈ backlog_queue s \/ id ∈ getID <$> jobs)
  /\ (forall j,
        j ∈ jobs ->
        getID j ∈ all_unsent (callers σ)
        \/ is_Some (backlog_hset (server σ) !! getID j)).

End Queuers.

(** * Vocabulary of the further properties *)

(** [Number.isSafeInteger(n)]: the counts that the engine holds, writes
    with [String] and reads back with [parseInt] as this file does.  An
    integer of magnitude below 2^53 is a double, its text is its plain
    decimals, and [parseInt] reads them back. *)
Definition safe_count (n : JsNum) : bool :=
  match n with
  | Num z => Z.abs z <? 2 ^ 53
  | NaN => false
  end.

(** What a count weighs in a total: its magnitude; [NaN] is too heavy for
    any total. *)
Definition weight (n : JsNum) : Z :=
  match n with
  | Num z => Z.abs z
  | NaN => 2 ^ 53
  end.

(** Counts that add up exactly: each is an integer, and the magnitudes
    together stay below 2^53, so every sum of some of them, in whichever
    order, is a safe integer. *)
Definition exact_sum (counts : list JsNum) : bool :=
  foldr (fun n rest => weight n + rest) 0 counts <? 2 ^ 53.

(** Stored values that add up exactly, as [parseInt] reads them. *)
Definition exact_total (values : list string) : bool :=
  exact_sum (parseInt <$> values).

(** The values kept in a hash. *)
Definition hash_values (h : gmap string string) : list string :=
  (map_to_list h).*2.

(** What the backlog hash keeps of a job. *)
Definition entry_of (j : Job) : string * string :=
  (getID j, toString (count j)).

(** [queueJob] on each job in turn, each call awaited. *)
Definition queue_all (jobs : list Job) : M App.ModVars (list (option Z)) :=
  mapSeries (fun j => App.queueJob (IsJob j)) jobs.

(** [fetchJob] called [n] times, each call awaited. *)
Definition fetch_times (n : nat) : M App.ModVars (list (option Job)) :=
  mapSeries (fun _ : unit => App.fetchJob) (replicate n tt).

(** The [Job] a plain object with a count becomes in [queueJob]. *)
Definition job_of_params (p : JobParams) : Job :=
  mkJob (params_index p) (params_type p) (default (Num 0) (params_count p)).

(** Every index of a response with every one of its sub-collections, in the
    order of the response. *)
Definition all_jobs_of (response : list (string * IndexBody)) : list JobParams :=
  response ≫= fun '(name, body) =>
    (fun '(type, _) => mkParams name type None) <$> body_mappings body.

(** The variables with no comparator. *)
Definition without_comparator (v : App.ModVars) : App.ModVars :=
  App.mkVars (App.indexFilter v) None (App.typeFilter v) (App.source v).

(** A consistent comparison function, as the language asks of the argument
    of [sort]: called the other way round it answers with the opposite
    sign (so names that compare equal do so both ways, and a name equals
    itself), and what it puts in order stays in order through a third.
    The names then fall into classes that it orders totally, and every
    sort that follows the language leaves them in that order. *)
Definition consistent_comparator (cmp : JsComparator) : Prop :=
  (forall a b, Z.sgn (cmp_call cmp b a) = - Z.sgn (cmp_call cmp a b))
  /\ (forall a b c,
        cmp_call cmp a b <= 0 -> cmp_call cmp b c <= 0 -> cmp_call cmp a c <= 0).

(** Wherever [a] is before [b] in the list, [R a b]. *)
Definition in_order {A} (R : A -> A -> Prop) (l : list A) : Prop :=
  forall before a between b behind,
    l = before ++ a :: between ++ b :: behind -> R a b.

(** No name comes before a name the comparator puts first. *)
Definition ordered_by (cmp : JsComparator) (names : list string) : Prop :=
  in_order (fun a b => cmp_call cmp a b <= 0) names.

(** [(a, b) => a.length - b.length]: shorter names first. *)
Definition by_length : JsComparator :=
  mkComparator 2%nat
    (fun a b => Z.of_nat (String.length a) - Z.of_nat (String.length b)).

(** A filter given as text: [prefix], a dot and [ext]. *)
Definition dotted (prefix ext : string) : string :=
  prefix +:+ String "."%char ext.

(** The text has none of the given character. *)
Definition free_of (c : ascii) (s : string) : bool :=
  negb (existsb (Ascii.eqb c) (list_ascii_of_string s)).

(** The last character of a text is not a slash, and there is one. *)
Definition ends_in_name (s : string) : bool :=
  match rev (list_ascii_of_string s) with
  | [] => false
  | c :: _ => negb (Ascii.eqb c "/"%char)
  end.

(** A third source for the examples: two indices with names of different
    lengths. *)
Definition named_source : Source :=
  mkSource (fun _ _ => Ok (CountNumber (Num 1)))
           (fun _ => Ok [("logs-2016", mkIndexBody [("event", "{}")]);
                         ("db", mkIndexBody [("user", "{}"); ("order", "{}")])]).

(** A source that lists an index, [C], whose documents it cannot count. *)
Definition failing_source : Source :=
  mkSource
    (fun index type =>
       if String.eqb index "A" then Ok (CountNumber (Num 3))
       else Throw (Error "index_not_found_exception"))
    (fun _ => Ok [("A", mkIndexBody [("t1", "{}")]);
                  ("C", mkIndexBody [("t1", "{}")])]).

(** A source whose discovery request is refused. *)
Definition unreachable_source : Source :=
  mkSource (fun _ _ => Throw (Error "No Living connections"))
           (fun _ => Throw (Error "No Living connections")).

(** * Numbers as text *)

Example parseInt_examples :
  parseInt "42" = Num 42 /\ parseInt "  -17abc" = Num (-17) /\
  parseInt "0x1f" = Num 31 /\ parseInt "" = NaN /\ parseInt "NaN" = NaN /\
  parseInt "+8" = Num 8 /\ parseInt "12.7" = Num 12 /\
  parseInt "undefined" = NaN /\ parseInt "007" = Num 7.
Proof. repeat split; reflexivity. Qed.

Example toString_examples :
  toString (Num 0) = "0" /\ toString (Num 1530) = "1530" /\
  toString (Num (-42)) = "-42" /\ toString NaN = "NaN".
Proof. repeat split; reflexivity. Qed.

Example extname_examples :
  extname "filters/only_logs.js" = ".js" /\ extname "^logstash" = "" /\
  extname "a.b/c" = "" /\ extname ".bashrc" = "" /\ extname ".." = "" /\
  extname "index.coffee.md" = ".md" /\ extname "file." = "." /\
  extname "logs-.*" = ".*" /\ extname "dir.d/" = ".d".
Proof. repeat split; reflexivity. Qed.

Example Array_sort_example :
  Array_sort (fun a b => b - a) [3; 1; 2; 5; 4] = [5; 4; 3; 2; 1] /\
  Array_sort (fun a b => a / 10 - b / 10) [21; 10; 22; 11] = [10; 11; 21; 22].
Proof. split; reflexivity. Qed.

Example getID_example :
  getID (mkJob "A" "t1" (Num 3)) = "A:t1" /\
  createFromID "A:t1" (Some "3") = Ok (mkJob "A" "t1" (Num 3)) /\
  createFromID "A:t1:x" (Some "3") = Throw (Error "job names must not contain the separator") /\
  createFromID "At1" (Some "3") = Throw (Error "malformed job id").
Proof. repeat split; reflexivity. Qed.

Lemma nat_of_digit_char d :
  0 <= d < 10 -> nat_of_ascii (digit_char d) = (48 + Z.to_nat d)%nat.
Proof.
  intros Hd. unfold digit_char. apply nat_ascii_embedding. lia.
Qed.

Lemma digit_val_digit_char d :
  0 <= d < 10 -> digit_val 10 (digit_char d) = Some d.
Proof.
  intros Hd. unfold digit_val. rewrite nat_of_digit_char by done.
  replace (Z.of_nat (48 + Z.to_nat d)) with (48 + d) by lia.
  replace ((48 <=? 48 + d) && (48 + d <=? 57)) with true
    by (symmetry; apply andb_true_iff; split; apply Z.leb_le; lia).
  replace (48 + d - 48) with d by lia.
  by replace (d <? 10) with true by (symmetry; apply Z.ltb_lt; lia).
Qed.

Lemma is_decimal_not_char c (other : ascii) :
  is_decimal c ->
  (nat_of_ascii other < 48 \/ 57 < nat_of_ascii other)%nat ->
  Ascii.eqb c other = false.
Proof.
  intros (d & Hd & ->) Hother. apply Ascii.eqb_neq. intros Heq.
  apply (f_equal nat_of_ascii) in Heq. rewrite nat_of_digit_char in Heq by done.
  lia.
Qed.

Lemma is_decimal_not_whitespace c : is_decimal c -> is_whitespace c = false.
Proof.
  intros (d & Hd & ->). unfold is_whitespace.
  rewrite nat_of_digit_char by done.
  apply orb_false_iff. split.
  - apply andb_false_iff. right. apply Nat.leb_gt. lia.
  - apply Nat.eqb_neq. lia.
Qed.

Lemma digits_of_decimal fuel n :
  0 <= n -> Forall is_decimal (digits_of fuel n).
Proof.
  revert n. induction fuel as [|fuel IH]; intros n Hn; cbn [digits_of];
    [constructor|].
  destruct (Z.ltb_spec n 10).
  - repeat constructor. exists n. split; [lia | done].
  - apply Forall_app. split.
    + apply IH. apply Z.div_pos; lia.
    + repeat constructor. exists (n mod 10). split; [|done].
      apply Z.mod_pos_bound. lia.
Qed.

Lemma parse_digits_cons_decimal acc d l :
  0 <= d < 10 ->
  parse_digits 10 acc (digit_char d :: l)
  = parse_digits 10 (Some (default 0 acc * 10 + d)) l.
Proof.
  intros Hd. cbn [parse_digits]. by rewrite digit_val_digit_char.
Qed.

Lemma parse_digits_app acc l1 l2 :
  Forall is_decimal l1 ->
  parse_digits 10 acc (l1 ++ l2) = parse_digits 10 (parse_digits 10 acc l1) l2.
Proof.
  intros Hl. revert acc. induction Hl as [|c l1 (d & Hd & ->) _ IH]; intros acc.
  - done.
  - rewrite <- app_comm_cons, !parse_digits_cons_decimal by done. apply IH.
Qed.

Lemma parse_digits_of fuel n :
  0 <= n < 2 ^ Z.of_nat (S fuel) ->
  parse_digits 10 None (digits_of (S fuel) n) = Some n.
Proof.
  revert n. induction fuel as [|fuel IH]; intros n Hn.
  - change (2 ^ Z.of_nat 1) with 2 in Hn. cbn [digits_of].
    replace (n <? 10) with true by (symmetry; apply Z.ltb_lt; lia).
    rewrite parse_digits_cons_decimal by lia. cbn [parse_digits default].
    f_equal; lia.
  - remember (S fuel) as fuel' eqn:Hfuel. cbn [digits_of].
    destruct (Z.ltb_spec n 10) as [Hlt|Hge].
    + rewrite parse_digits_cons_decimal by lia. cbn [parse_digits default].
    f_equal; lia.
    + rewrite parse_digits_app by (apply digits_of_decimal, Z.div_pos; lia).
      subst fuel'. rewrite IH.
      * rewrite parse_digits_cons_decimal by (apply Z.mod_pos_bound; lia).
        cbn. f_equal.
        pose proof (Z.div_mod n 10 ltac:(lia)). lia.
      * split; [apply Z.div_pos; lia|].
        rewrite (Nat2Z.inj_succ (S fuel)), Z.pow_succ_r in Hn by lia.
        apply Z.div_lt_upper_bound; lia.
Qed.

Lemma decimal_digits n : 0 <= n -> Forall is_decimal (decimal n).
Proof. apply digits_of_decimal. Qed.

Lemma decimal_nonempty n : decimal n <> [].
Proof.
  unfold decimal. cbn [digits_of]. destruct (n <? 10); [done|].
  intros Heq. by apply app_eq_nil in Heq as [_ ?].
Qed.

Lemma parse_decimal n : 0 <= n -> parse_digits 10 None (decimal n) = Some n.
Proof.
  intros Hn. apply parse_digits_of. split; [done|].
  destruct (decide (n = 0)) as [->|Hne]; [done|].
  rewrite Nat2Z.inj_succ, Z2Nat.id by apply Z.log2_nonneg.
  apply Z.log2_spec. lia.
Qed.

Lemma parse_unsigned_decimal l :
  Forall is_decimal l -> parse_unsigned l = parse_digits 10 None l.
Proof.
  intros Hl. unfold parse_unsigned.
  destruct Hl as [|c1 l Hc1 [|c2 l' Hc2 _]]; try done.
  rewrite (is_decimal_not_char c2 "x"), (is_decimal_not_char c2 "X");
    [| done | right; vm_compute; lia | done | right; vm_compute; lia].
  by rewrite andb_false_r.
Qed.

(** [parseInt(String(n))] is [n]: a count survives the store, which keeps
    text. *)
Lemma parseInt_toString n : parseInt (toString n) = n.
Proof.
  destruct n as [z|]; [|reflexivity].
  unfold toString, parseInt.
  destruct (Z.ltb_spec z 0) as [Hneg|Hpos].
  - cbn [list_ascii_of_string]. rewrite list_ascii_of_string_of_list_ascii.
    change (skip_whitespace ("-"%char :: decimal (- z)))
      with ("-"%char :: decimal (- z)).
    change (parse_sign ("-"%char :: decimal (- z))) with (-1, decimal (- z)).
    cbv beta iota.
    rewrite parse_unsigned_decimal, parse_decimal
      by (try apply decimal_digits; lia).
    f_equal. lia.
  - rewrite list_ascii_of_string_of_list_ascii.
    pose proof (decimal_digits z Hpos) as Hd.
    pose proof (decimal_nonempty z) as Hne.
    destruct (decimal z) as [|c l] eqn:Hz; [done|].
    apply Forall_cons in Hd as Hd'. destruct Hd' as [Hc _].
    cbn [skip_whitespace]. rewrite is_decimal_not_whitespace by done.
    unfold parse_sign.
    rewrite (is_decimal_not_char c "-"), (is_decimal_not_char c "+");
      [| done | left; vm_compute; lia | done | left; vm_compute; lia].
    cbv beta iota. rewrite parse_unsigned_decimal by done.
    rewrite <- Hz, parse_decimal by done. f_equal. lia.
Qed.

(** * Job ids *)

Lemma append_cons c a b : String c a +:+ b = String c (a +:+ b).
Proof. reflexivity. Qed.

Lemma has_separator_app a b :
  has_separator (a +:+ b) = has_separator a || has_separator b.
Proof.
  unfold has_separator. induction a as [|c a IH]; [done|].
  rewrite append_cons. cbn [list_ascii_of_string existsb].
  rewrite <- orb_assoc. f_equal. apply IH.
Qed.

Lemma split_id_getID a b :
  has_separator a = false ->
  split_id (a +:+ String separator b) = Some (a, b).
Proof.
  unfold has_separator. induction a as [|c a IH]; intros Ha.
  - done.
  - cbn [list_ascii_of_string existsb] in Ha.
    apply orb_false_iff in Ha as [Hc Ha].
    rewrite append_cons. cbn [split_id]. by rewrite Hc, (IH Ha).
Qed.

Lemma split_id_inv id a b :
  split_id id = Some (a, b) ->
  id = a +:+ String separator b /\ has_separator a = false.
Proof.
  revert a. induction id as [|c id IH]; intros a Hs; [done|].
  cbn [split_id] in Hs. destruct (Ascii.eqb separator c) eqn:Hc.
  - apply Ascii.eqb_eq in Hc as <-. by injection Hs as <- <-.
  - destruct (split_id id) as [[a' b']|] eqn:Hid; [|done].
    injection Hs as <- <-. destruct (IH a' eq_refl) as [-> Ha'].
    split; [done|]. unfold has_separator in *.
    cbn [list_ascii_of_string existsb]. by rewrite Hc.
Qed.

Lemma Job_new_ok p j :
  Job_new p = Ok j ->
  j = mkJob (params_index p) (params_type p) (default (Num 0) (params_count p))
  /\ Job_wf j = true.
Proof.
  unfold Job_new, Job_wf.
  destruct (has_separator (params_index p)) eqn:Hi;
    destruct (has_separator (params_type p)) eqn:Ht; try done.
  intros [= <-]. split; [done|]. cbn [index type]. by rewrite Hi, Ht.
Qed.

Lemma Job_new_wf i t c :
  Job_wf (mkJob i t (default (Num 0) c)) = true ->
  Job_new (mkParams i t c) = Ok (mkJob i t (default (Num 0) c)).
Proof.
  unfold Job_new, Job_wf. cbn [index type params_index params_type params_count].
  intros [Hi Ht]%andb_true_iff.
  apply negb_true_iff in Hi, Ht. by rewrite Hi, Ht.
Qed.

(** A job built from an id has that id. *)
Lemma createFromID_getID id reply j :
  createFromID id reply = Ok j -> getID j = id /\ Job_wf j = true.
Proof.
  unfold createFromID. destruct (split_id id) as [[i t]|] eqn:Hs; [|done].
  intros [-> Hwf]%Job_new_ok. apply split_id_inv in Hs as [-> _]. done.
Qed.

Lemma createFromID_count id reply j :
  createFromID id (Some reply) = Ok j -> count j = parseInt reply.
Proof.
  unfold createFromID. destruct (split_id id) as [[i t]|] eqn:Hs; [|done].
  by intros [-> _]%Job_new_ok.
Qed.

(** The id of a job gives the job back, with the count the store kept. *)
Lemma createFromID_of_job j :
  Job_wf j = true ->
  createFromID (getID j) (Some (toString (count j))) = Ok j.
Proof.
  intros Hwf. unfold createFromID, getID.
  pose proof Hwf as [Hi Ht]%andb_true_iff. apply negb_true_iff in Hi.
  rewrite split_id_getID by done. cbn [fmap option_fmap option_map].
  rewrite parseInt_toString. destruct j as [i t c].
  by apply (Job_new_wf i t (Some c)).
Qed.

Lemma createFromID_wf_id j reply :
  Job_wf j = true ->
  exists j', createFromID (getID j) reply = Ok j'
             /\ index j' = index j /\ type j' = type j.
Proof.
  intros Hwf. unfold createFromID, getID.
  pose proof Hwf as [Hi Ht]%andb_true_iff. apply negb_true_iff in Hi.
  rewrite split_id_getID by done.
  eexists. split; [apply Job_new_wf|done]. done.
Qed.

Lemma split_id_of_job j :
  Job_wf j = true -> split_id (getID j) = Some (index j, type j).
Proof.
  intros [Hi _]%andb_true_iff. apply negb_true_iff in Hi.
  by apply split_id_getID.
Qed.

Lemma getID_inj j1 j2 :
  Job_wf j1 = true -> Job_wf j2 = true -> getID j1 = getID j2 ->
  index j1 = index j2 /\ type j1 = type j2.
Proof.
  intros H1%split_id_of_job H2%split_id_of_job Heq.
  rewrite Heq, H2 in H1. by injection H1 as -> ->.
Qed.

(** * The two managers on the backlog *)

(** Unfolds the promise chain down to the store commands. *)
Ltac run_chain :=
  repeat progress
    (unfold mbind, mret, M_bind, M_ret, lift_result, redis, emit, throw,
       get_vars, put_vars, after,
       Redis.lpop, Redis.rpush, Redis.hset, Redis.hget, Redis.hdel,
       Redis.hgetall, Redis.hvals, Redis.del;
     cbn [vars store events fst snd get_hash set_hash set_queue
          backlog_queue backlog_hset completed];
     try change (0 =? 0) with true; try change (1 =? 0) with false;
     cbv beta iota).

Lemma fetchJob_same v v' s ev :
  Part000.fetchJob (mkSt v' s ev)
  = (fst (App.fetchJob (mkSt v s ev)),
     mkSt v' (store (snd (App.fetchJob (mkSt v s ev))))
             (events (snd (App.fetchJob (mkSt v s ev)))))
  /\ vars (snd (App.fetchJob (mkSt v s ev))) = v.
Proof.
  unfold Part000.fetchJob, App.fetchJob, Redis.lpop. run_chain.
  destruct (backlog_queue s) as [|id q]; [done|]. run_chain.
  unfold Redis.hget. run_chain.
  destruct (createFromID id _) as [job|e]; [|done].
  done.
Qed.

(** What the constructor wraps, or finds wrapped, is an object. *)
Lemma coerce_job_truthy a j : coerce_job a = Ok j -> Part000.falsy a = false.
Proof. by destruct a. Qed.

Lemma queueJob_same job v v' s ev :
  Part000.falsy job = false ->
  Part000.queueJob job (mkSt v' s ev)
  = (fst (App.queueJob job (mkSt v s ev)),
     mkSt v' (store (snd (App.queueJob job (mkSt v s ev))))
             (events (snd (App.queueJob job (mkSt v s ev)))))
  /\ vars (snd (App.queueJob job (mkSt v s ev))) = v.
Proof.
  intros Hjob. unfold Part000.queueJob, App.queueJob. rewrite Hjob.
  run_chain. destruct (coerce_job job) as [j|e]; [|done].
  unfold Redis.hset. run_chain. cbn [get_hash].
  destruct (backlog_hset s !! getID j); run_chain; done.
Qed.

(** Without a job, [queueJob] of [part_000] throws at its guard and that of
    [manager.js] in the constructor; neither has sent a command. *)
Lemma queueJob_null (sta : St App.ModVars) (stp : St Part000.ModVars) :
  App.queueJob IsNull sta
  = (Throw (TypeError "Cannot read property 'index' of null"), sta)
  /\ Part000.queueJob IsNull stp = (Throw (Error "job must be provided"), stp).
Proof. done. Qed.

(** Whatever the argument, the two leave the same store and log. *)
Lemma queueJob_same_state job v v' s ev :
  snd (Part000.queueJob job (mkSt v' s ev))
  = mkSt v' (store (snd (App.queueJob job (mkSt v s ev))))
            (events (snd (App.queueJob job (mkSt v s ev))))
  /\ vars (snd (App.queueJob job (mkSt v s ev))) = v.
Proof.
  destruct (Part000.falsy job) eqn:Hjob.
  - by destruct job.
  - by destruct (queueJob_same job v v' s ev Hjob) as [-> ?].
Qed.

Lemma completeJob_same job v v' s ev :
  Part000.completeJob job (mkSt v' s ev)
  = (fst (App.completeJob job (mkSt v s ev)),
     mkSt v' (store (snd (App.completeJob job (mkSt v s ev))))
             (events (snd (App.completeJob job (mkSt v s ev)))))
  /\ vars (snd (App.completeJob job (mkSt v s ev))) = v.
Proof.
  unfold Part000.completeJob, App.completeJob. run_chain.
  destruct (coerce_job job) as [j|e]; done.
Qed.

(** ** What each operation of [src/app/manager.js] does to the store *)

Section Operations.
Variable st : St App.ModVars.

Let queue := backlog_queue (store st).
Let hset := backlog_hset (store st).
Let ledger := completed (store st).

Lemma fetchJob_empty :
  queue = [] -> App.fetchJob st = (Ok None, st).
Proof.
  subst queue. intros Hq. unfold App.fetchJob, Redis.lpop. run_chain.
  rewrite Hq. by destruct st as [v [q h c] e].
Qed.

Lemma fetchJob_front id q j :
  queue = id :: q ->
  createFromID id (hset !! id) = Ok j ->
  App.fetchJob st
  = (Ok (Some j),
     mkSt (vars st) (mkStore q (delete id hset) ledger) (events st)).
Proof.
  subst queue hset ledger. intros Hq Hj.
  unfold App.fetchJob, Redis.lpop. run_chain. rewrite Hq.
  unfold Redis.hget. run_chain. cbn [get_hash set_queue backlog_hset].
  rewrite Hj. apply createFromID_getID in Hj as [Hid _]. by rewrite Hid.
Qed.

Lemma fetchJob_malformed id q e :
  queue = id :: q ->
  createFromID id (hset !! id) = Throw e ->
  App.fetchJob st
  = (Throw e, mkSt (vars st) (mkStore q hset ledger) (events st)).
Proof.
  subst queue hset ledger. intros Hq Hj.
  unfold App.fetchJob, Redis.lpop. run_chain. rewrite Hq.
  unfold Redis.hget. run_chain. cbn [get_hash set_queue backlog_hset].
  by rewrite Hj.
Qed.

Lemma queueJob_fresh a j :
  coerce_job a = Ok j ->
  hset !! getID j = None ->
  App.queueJob a st
  = (Ok (Some (Z.of_nat (length (queue ++ [getID j])))),
     mkSt (vars st)
          (mkStore (queue ++ [getID j])
                   (<[getID j := toString (count j)]> hset) ledger)
          (events st)).
Proof.
  subst queue hset ledger. intros Ha Hfresh.
  unfold App.queueJob. run_chain. rewrite Ha.
  unfold Redis.hset. run_chain. cbn [get_hash]. rewrite Hfresh. done.
Qed.

Lemma queueJob_present a j old :
  coerce_job a = Ok j ->
  hset !! getID j = Some old ->
  App.queueJob a st
  = (Ok None,
     mkSt (vars st)
          (mkStore queue (<[getID j := toString (count j)]> hset) ledger)
          (events st ++ [LogWarnQueued j])).
Proof.
  subst queue hset ledger. intros Ha Hold.
  unfold App.queueJob. run_chain. rewrite Ha.
  unfold Redis.hset. run_chain. cbn [get_hash]. rewrite Hold. done.
Qed.

Lemma queueJob_rejected a e :
  coerce_job a = Throw e -> App.queueJob a st = (Throw e, st).
Proof.
  intros Ha. unfold App.queueJob. run_chain. by rewrite Ha.
Qed.

Lemma completeJob_run a j :
  coerce_job a = Ok j ->
  App.completeJob a st
  = (Ok (match ledger !! getID j with Some _ => 0 | None => 1 end),
     mkSt (vars st)
          (mkStore queue hset (<[getID j := toString (count j)]> ledger))
          (events st)).
Proof.
  subst queue hset ledger. intros Ha.
  unfold App.completeJob. run_chain. by rewrite Ha.
Qed.

Lemma completeJob_rejected a e :
  coerce_job a = Throw e -> App.completeJob a st = (Throw e, st).
Proof.
  intros Ha. unfold App.completeJob. run_chain. by rewrite Ha.
Qed.

Lemma clearBacklogJobs_run :
  after App.clearBacklogJobs st
  = mkSt (vars st) (mkStore [] ∅ ledger)
         (events st ++ [LogInfo "clearing existing backlog"])
  /\ exists n, fst (App.clearBacklogJobs st) = Ok n.
Proof.
  subst queue hset ledger. unfold App.clearBacklogJobs. run_chain.
  split; [done | eauto].
Qed.

Lemma clearCompletedJobs_run :
  after App.clearCompletedJobs st
  = mkSt (vars st) (mkStore queue hset ∅) (events st)
  /\ exists n, fst (App.clearCompletedJobs st) = Ok n.
Proof.
  subst queue hset ledger. unfold App.clearCompletedJobs. run_chain.
  split; [done | eauto].
Qed.

End Operations.

(** ** The invariant of the store *)

Lemma coerce_job_wf a j :
  arg_wf a = true -> coerce_job a = Ok j -> Job_wf j = true.
Proof.
  destruct a as [j'|p|]; cbn.
  - by intros ? [= <-].
  - by intros _ [_ ?]%Job_new_ok.
  - done.
Qed.

Lemma backlog_ok_cleared ledger : backlog_ok (mkStore [] ∅ ledger).
Proof.
  split; [constructor|]. split; cbn.
  - intros id. rewrite lookup_empty. split.
    + by intros ?%elem_of_nil.
    + by intros [? ?].
  - by intros id ?%elem_of_nil.
Qed.

Lemma hash_ok_empty : hash_ok ∅.
Proof. intros id. rewrite lookup_empty. by intros [? ?]. Qed.

Lemma store_ok_empty : store_ok empty_store.
Proof. split; [apply backlog_ok_cleared | apply hash_ok_empty]. Qed.

Lemma queueJob_backlog_ok a st :
  arg_wf a = true -> backlog_ok (store st) ->
  backlog_ok (store (after (App.queueJob a) st))
  /\ completed (store (after (App.queueJob a) st)) = completed (store st).
Proof.
  intros Hwf (Hnd & Hiff & Hids). unfold after.
  destruct (coerce_job a) as [j|e] eqn:Ha;
    [|by rewrite (queueJob_rejected st a e Ha)].
  pose proof (coerce_job_wf a j Hwf Ha) as Hj.
  destruct (backlog_hset (store st) !! getID j) as [old|] eqn:Hold.
  - rewrite (queueJob_present st a j old Ha Hold). cbn.
    split; [|done]. split; [done|]. split; [|done]. cbn. intros id.
    destruct (decide (getID j = id)) as [<-|Hne].
    + rewrite lookup_insert_eq, Hiff, Hold. split; eauto.
    + by rewrite lookup_insert_ne.
  - rewrite (queueJob_fresh st a j Ha Hold). cbn.
    assert (getID j ∉ backlog_queue (store st)) as Hnotin.
    { intros [? Hsome]%Hiff. congruence. }
    split; [|done]. split; [|split]; cbn.
    + apply NoDup_app. repeat split; [done| |apply NoDup_singleton].
      intros x Hx ->%list_elem_of_singleton. done.
    + intros id. rewrite elem_of_app, list_elem_of_singleton.
      destruct (decide (getID j = id)) as [<-|Hne].
      * rewrite lookup_insert_eq. split; eauto.
      * rewrite lookup_insert_ne, Hiff by done. split; [|by left].
        by intros [?| ->].
    + intros id [Hin| ->%list_elem_of_singleton]%elem_of_app; eauto.
Qed.

Lemma fetchJob_backlog_ok st :
  backlog_ok (store st) ->
  backlog_ok (store (after App.fetchJob st))
  /\ completed (store (after App.fetchJob st)) = completed (store st).
Proof.
  intros (Hnd & Hiff & Hids). unfold after.
  destruct (backlog_queue (store st)) as [|id q] eqn:Hq.
  - rewrite (fetchJob_empty st Hq). cbn. split; [|done].
    split; [by rewrite Hq|]. by rewrite Hq.
  - destruct (Hids id) as (j & Hj & <-); [by left|].
    destruct (createFromID_wf_id j (backlog_hset (store st) !! getID j) Hj)
      as (j' & Hj' & _).
    rewrite (fetchJob_front st (getID j) q j' Hq Hj'). cbn.
    apply NoDup_cons in Hnd as [Hnotin Hnd].
    split; [|done]. split; [done|]. split; cbn.
    + intros id. destruct (decide (getID j = id)) as [<-|Hne].
      * rewrite lookup_delete_eq. split; [done | by intros [? ?]].
      * rewrite lookup_delete_ne, <- Hiff, elem_of_cons by done.
        split; [by right | by intros [->|?]].
    + intros id Hin. apply Hids. by right.
Qed.

Lemma completeJob_ok a st :
  arg_wf a = true -> store_ok (store st) ->
  store_ok (store (after (App.completeJob a) st)).
Proof.
  intros Hwf [Hbacklog Hledger]. unfold after.
  destruct (coerce_job a) as [j|e] eqn:Ha;
    [|by rewrite (completeJob_rejected st a e Ha)].
  pose proof (coerce_job_wf a j Hwf Ha) as Hj.
  rewrite (completeJob_run st a j Ha). cbn. split; [done|].
  intros id His. cbn in His. destruct (decide (getID j = id)) as [<-|Hne].
  - eauto.
  - rewrite lookup_insert_ne in His by done. by apply Hledger.
Qed.

Lemma perform_ok o st :
  op_wf o = true -> store_ok (store st) -> store_ok (store (perform o st)).
Proof.
  intros Hwf Hok. destruct o as [a| |a| |]; cbn [perform].
  - destruct Hok as [Hb Hl].
    destruct (queueJob_backlog_ok a st Hwf Hb) as [? Heq].
    split; [done | by rewrite Heq].
  - destruct Hok as [Hb Hl].
    destruct (fetchJob_backlog_ok st Hb) as [? Heq].
    split; [done | by rewrite Heq].
  - by apply completeJob_ok.
  - destruct (clearBacklogJobs_run st) as [-> _]. cbn.
    destruct Hok as [_ Hledger]. split; [apply backlog_ok_cleared | done].
  - destruct (clearCompletedJobs_run st) as [-> _]. cbn.
    destruct Hok as [Hbacklog _]. split; [done | apply hash_ok_empty].
Qed.

Lemma perform_all_ok ops st :
  forallb op_wf ops = true -> store_ok (store st) ->
  store_ok (store (perform_all ops st)).
Proof.
  revert st. induction ops as [|o ops IH]; intros st Hwf Hok; [done|].
  cbn in Hwf. apply andb_true_iff in Hwf as [Ho Hops].
  cbn. apply IH; [done|]. by apply perform_ok.
Qed.

(** ** Counting entries *)

Lemma filter_none {A} (P : A -> Prop) `{forall x, Decision (P x)} (l : list A) :
  (forall x, x ∈ l -> ~ P x) -> filter P l = [].
Proof.
  induction l as [|y l IH]; intros Hall; [done|].
  rewrite filter_cons_False by (apply Hall; by left).
  apply IH. intros x Hx. apply Hall. by right.
Qed.

(** In a list without two entries of the same key, the key of an entry
    selects that entry only. *)
Lemma one_entry_per_key {A B} `{EqDecision B} (f : A -> B) (l : list A) x :
  NoDup (f <$> l) -> x ∈ l ->
  length (filter (fun y => f y = f x) l) = 1%nat.
Proof.
  induction l as [|y l IH]; intros Hnd Hin; [by apply elem_of_nil in Hin|].
  rewrite fmap_cons in Hnd. apply NoDup_cons in Hnd as [Hy Hnd].
  destruct (decide (f y = f x)) as [Heq|Hne].
  - rewrite filter_cons_True by done. cbn. f_equal.
    rewrite filter_none; [done|]. intros z Hz Hfz. apply Hy.
    rewrite Heq, <- Hfz. by apply list_elem_of_fmap_2.
  - rewrite filter_cons_False by done. apply IH; [done|].
    apply elem_of_cons in Hin as [->|]; done.
Qed.

Lemma length_filter_fmap {A B} (f : A -> B) (P : B -> Prop)
    `{forall y, Decision (P y)} (l : list A) :
  length (filter P (f <$> l)) = length (filter (fun x => P (f x)) l).
Proof.
  induction l as [|x l IH]; [done|].
  rewrite fmap_cons, !filter_cons. case_decide; cbn; by rewrite IH.
Qed.

Lemma one_occurrence {A} `{EqDecision A} (x : A) (l : list A) :
  NoDup l -> x ∈ l -> length (filter (fun y => y = x) l) = 1%nat.
Proof.
  intros Hnd Hin. apply (one_entry_per_key (fun y => y) l x); [|done].
  by rewrite list_fmap_id.
Qed.

(** ** Jobs out of a hash *)

Lemma jobs_of_entries_ok entries :
  (forall e, e ∈ entries -> exists j, Job_wf j = true /\ getID j = e.1) ->
  exists jobs,
    jobs_of_entries entries = Ok jobs
    /\ getID <$> jobs = entries.*1
    /\ count <$> jobs = parseInt <$> entries.*2.
Proof.
  induction entries as [|[id c] entries IH]; intros Hids.
  - by exists [].
  - destruct (Hids (id, c)) as (j & Hj & Hid); [by left|]. cbn in Hid.
    destruct (createFromID_wf_id j (Some c) Hj) as (j' & Hj' & _).
    rewrite Hid in Hj'.
    destruct IH as (jobs & Hjobs & Hkeys & Hcounts).
    { intros e He. apply Hids. by right. }
    exists (j' :: jobs). cbn [jobs_of_entries]. rewrite Hj', Hjobs.
    split; [done|]. rewrite !fmap_cons, Hkeys, Hcounts. cbn.
    apply createFromID_getID in Hj' as Hid'. destruct Hid' as [-> _].
    by rewrite (createFromID_count _ _ _ Hj').
Qed.

Lemma jobs_of_entries_inv entries jobs :
  jobs_of_entries entries = Ok jobs ->
  getID <$> jobs = entries.*1 /\ count <$> jobs = parseInt <$> entries.*2.
Proof.
  revert jobs. induction entries as [|[id c] entries IH]; intros jobs.
  - by intros [= <-].
  - cbn [jobs_of_entries].
    destruct (createFromID id (Some c)) as [j|] eqn:Hj; [|done].
    destruct (jobs_of_entries entries) as [jobs'|]; [|done].
    intros [= <-]. destruct (IH jobs' eq_refl) as [Hkeys Hcounts].
    rewrite !fmap_cons, Hkeys, Hcounts. cbn.
    apply createFromID_getID in Hj as Hid. destruct Hid as [-> _].
    by rewrite (createFromID_count _ _ _ Hj).
Qed.

Lemma hash_entries_ok (h : gmap string string) :
  hash_ok h ->
  forall e, e ∈ map_to_list h -> exists j, Job_wf j = true /\ getID j = e.1.
Proof.
  intros Hok [id c] He%elem_of_map_to_list. apply Hok. cbn. eauto.
Qed.

Lemma backlog_hash_ok s : backlog_ok s -> hash_ok (backlog_hset s).
Proof.
  intros (_ & Hiff & Hids) id His. apply Hids. by apply Hiff.
Qed.

(** * Queueing a job twice *)

(** Claim C3.  Dedup invariant of queueJob: on a backlog as sequential use
    leaves it, calling [queueJob(J)] twice in a row leaves exactly one
    occurrence of J's id in the backlog queue and exactly one entry with J's
    id in the backlog hash (so [getBacklogJobs] returns exactly one job with
    that id); the second call resolves without error and only logs the
    warning; the queue holds no id twice.  [part_000] does the same. *)
Theorem queueJob_twice_leaves_one (st : St App.ModVars) (a : JobArg) (J : Job) :
  backlog_ok (store st) ->
  arg_wf a = true ->
  coerce_job a = Ok J ->
  let st1 := after (App.queueJob a) st in
  let st2 := after (App.queueJob a) st1 in
  fst (App.queueJob a st1) = Ok None
  /\ events st2 = events st1 ++ [LogWarnQueued J]
  /\ length (filter (fun id => id = getID J) (backlog_queue (store st2))) = 1%nat
  /\ NoDup (backlog_queue (store st2))
  /\ backlog_hset (store st2) !! getID J = Some (toString (count J))
  /\ length (filter (fun e => e.1 = getID J)
                    (map_to_list (backlog_hset (store st2)))) = 1%nat
  /\ (exists jobs,
        fst (App.getBacklogJobs st2) = Ok jobs
        /\ length (filter (fun j => getID j = getID J) jobs) = 1%nat)
  /\ (forall vp : Part000.ModVars,
        let stp1 :=
          after (Part000.queueJob a) (mkSt vp (store st) (events st)) in
        Part000.queueJob a stp1 = (Ok None, mkSt vp (store st2) (events st2))).
Proof.
  intros Hok Hwf Ha st1 st2.
  destruct (queueJob_backlog_ok a st Hwf Hok) as [Hok1 _]. fold st1 in Hok1.
  assert (backlog_hset (store st1) !! getID J = Some (toString (count J)))
    as Hin1.
  { subst st1. unfold after.
    destruct (backlog_hset (store st) !! getID J) as [old|] eqn:Hold.
    - rewrite (queueJob_present st a J old Ha Hold). cbn.
      apply lookup_insert_eq.
    - rewrite (queueJob_fresh st a J Ha Hold). cbn. apply lookup_insert_eq. }
  pose proof (queueJob_present st1 a J _ Ha Hin1) as Hsecond.
  assert (st2 = mkSt (vars st1) (store st1) (events st1 ++ [LogWarnQueued J]))
    as Hst2.
  { subst st2. unfold after. rewrite Hsecond. cbn. f_equal.
    destruct (store st1) as [q h c]. cbn in *. f_equal.
    by apply insert_id. }
  destruct Hok1 as (Hnd & Hiff & Hids).
  assert (getID J ∈ backlog_queue (store st1)) as Hqueued
    by (apply Hiff; eauto).
  split; [by rewrite Hsecond|]. rewrite Hst2. cbn [store events].
  split; [done|]. split; [by apply one_occurrence|]. split; [done|].
  split; [done|].
  assert (length (filter (fun e : string * string => e.1 = getID J)
                         (map_to_list (backlog_hset (store st1)))) = 1%nat)
    as Hentry.
  { apply (one_entry_per_key fst _ (getID J, toString (count J))).
    - apply NoDup_fst_map_to_list.
    - by apply elem_of_map_to_list. }
  split; [done|]. split.
  - destruct (jobs_of_entries_ok (map_to_list (backlog_hset (store st1))))
      as (jobs & Hjobs & Hkeys & _).
    { apply hash_entries_ok. intros id His. apply Hids. by apply Hiff. }
    exists jobs. split.
    + unfold App.getBacklogJobs. run_chain. by rewrite Hjobs.
    + pose proof (length_filter_fmap getID (fun id => id = getID J) jobs)
        as Hjobs_ids.
      pose proof (length_filter_fmap fst (fun id => id = getID J)
                    (map_to_list (backlog_hset (store st1)))) as Hentry_ids.
      rewrite Hkeys in Hjobs_ids.
      etrans; [symmetry; exact Hjobs_ids|]. etrans; [exact Hentry_ids|].
      exact Hentry.
  - intros vp. cbv zeta.
    destruct (queueJob_same a (vars st) vp (store st) (events st)
                (coerce_job_truthy a J Ha)) as [H1 _].
    assert (after (Part000.queueJob a) (mkSt vp (store st) (events st))
            = mkSt vp (store st1) (events st1)) as ->.
    { subst st1. unfold after. rewrite H1. by destruct st. }
    destruct (queueJob_same a (vars st1) vp (store st1) (events st1)
                (coerce_job_truthy a J Ha))
      as [H2 _].
    rewrite H2.
    replace (mkSt (vars st1) (store st1) (events st1)) with st1
      by (by destruct st1).
    change ((App.queueJob a st1).2) with st2. rewrite Hst2.
    by rewrite Hsecond.
Qed.

(** * Counts and enumerations *)

Lemma js_add_comm a b : js_add a b = js_add b a.
Proof. destruct a, b; cbn; f_equal; lia. Qed.

Lemma js_add_assoc a b c : js_add a (js_add b c) = js_add (js_add a b) c.
Proof. destruct a, b, c; cbn; f_equal; lia. Qed.

Lemma sum_counts_parse counts acc :
  foldl (fun total count => js_add total (parseInt count)) acc counts
  = foldl js_add acc (parseInt <$> counts).
Proof.
  revert acc. induction counts as [|c counts IH]; intros acc; [done|].
  cbn. apply IH.
Qed.

(** The total does not depend on the order in which the store lists the
    values. *)
Lemma foldl_js_add_perm acc l1 l2 :
  l1 ≡ₚ l2 -> foldl js_add acc l1 = foldl js_add acc l2.
Proof.
  intros Hp. revert acc.
  induction Hp as [|x l1 l2 _ IH|x y l|l1 l2 l3 _ IH1 _ IH2]; intros acc; cbn.
  - done.
  - apply IH.
  - f_equal. rewrite <- !js_add_assoc. f_equal. apply js_add_comm.
  - by rewrite IH1.
Qed.

Lemma sum_counts_perm l1 l2 : l1 ≡ₚ l2 -> sum_counts l1 = sum_counts l2.
Proof.
  intros Hp. unfold sum_counts. rewrite !sum_counts_parse.
  apply foldl_js_add_perm. by apply fmap_Permutation.
Qed.

Lemma total_count_entries entries jobs :
  jobs_of_entries entries = Ok jobs ->
  total_count jobs = sum_counts entries.*2.
Proof.
  intros [_ Hcounts]%jobs_of_entries_inv.
  unfold total_count, sum_counts. by rewrite Hcounts, sum_counts_parse.
Qed.

(** The two readings of a hash, for any state of the store. *)
Lemma hash_count_agrees (k : HashKey) (s : Store) jobs :
  jobs_of_entries (fst (Redis.hgetall k s)) = Ok jobs ->
  sum_counts (fst (Redis.hvals k s)) = total_count jobs.
Proof.
  intros Hjobs. symmetry. by apply total_count_entries.
Qed.

Lemma getBacklog_agree st :
  hash_ok (backlog_hset (store st)) ->
  exists jobs,
    App.getBacklogJobs st = (Ok jobs, st)
    /\ App.getBacklogCount st = (Ok (total_count jobs), st).
Proof.
  intros Hok.
  destruct (jobs_of_entries_ok (map_to_list (backlog_hset (store st))))
    as (jobs & Hjobs & _); [by apply hash_entries_ok|].
  exists jobs. unfold App.getBacklogJobs, App.getBacklogCount. run_chain.
  rewrite Hjobs, (total_count_entries _ _ Hjobs).
  by destruct st as [v [q h c] e].
Qed.

Lemma getCompleted_agree st :
  hash_ok (completed (store st)) ->
  exists jobs,
    App.getCompletedJobs st = (Ok jobs, st)
    /\ App.getCompletedCount st = (Ok (total_count jobs), st).
Proof.
  intros Hok.
  destruct (jobs_of_entries_ok (map_to_list (completed (store st))))
    as (jobs & Hjobs & _); [by apply hash_entries_ok|].
  exists jobs. unfold App.getCompletedJobs, App.getCompletedCount. run_chain.
  rewrite Hjobs, (total_count_entries _ _ Hjobs).
  by destruct st as [v [q h c] e].
Qed.

(** The readers of [part_000] are those of [manager.js]. *)
Lemma readers_same v v' s ev :
  let st := mkSt v s ev in
  let stp := mkSt v' s ev in
  Part000.getBacklogJobs stp = (fst (App.getBacklogJobs st), stp)
  /\ Part000.getBacklogCount stp = (fst (App.getBacklogCount st), stp)
  /\ Part000.getCompletedJobs stp = (fst (App.getCompletedJobs st), stp)
  /\ Part000.getCompletedCount stp = (fst (App.getCompletedCount st), stp).
Proof.
  cbv zeta.
  unfold Part000.getBacklogJobs, App.getBacklogJobs, Part000.getBacklogCount,
    App.getBacklogCount, Part000.getCompletedJobs, App.getCompletedJobs,
    Part000.getCompletedCount, App.getCompletedCount.
  run_chain. destruct s as [q h c]. cbn. done.
Qed.

Lemma perform_same o v v' s ev :
  perform_000 o (mkSt v' s ev)
  = mkSt v' (store (perform o (mkSt v s ev))) (events (perform o (mkSt v s ev)))
  /\ vars (perform o (mkSt v s ev)) = v.
Proof.
  destruct o as [a| |a| |]; cbn [perform perform_000]; unfold after.
  - destruct (queueJob_same_state a v v' s ev) as [-> ?]. done.
  - destruct (fetchJob_same v v' s ev) as [-> ?]. done.
  - destruct (completeJob_same a v v' s ev) as [-> ?]. done.
  - unfold Part000.clearBacklogJobs, App.clearBacklogJobs. by run_chain.
  - unfold Part000.clearCompletedJobs, App.clearCompletedJobs. by run_chain.
Qed.

Lemma perform_all_same ops v v' s ev :
  perform_all_000 ops (mkSt v' s ev)
  = mkSt v' (store (perform_all ops (mkSt v s ev)))
            (events (perform_all ops (mkSt v s ev)))
  /\ vars (perform_all ops (mkSt v s ev)) = v.
Proof.
  revert s ev. induction ops as [|o ops IH]; intros s ev; [done|].
  cbn. destruct (perform_same o v v' s ev) as [-> Hv].
  destruct (perform o (mkSt v s ev)) as [v1 s1 ev1] eqn:Hp. cbn in *.
  subst v1. apply IH.
Qed.

Lemma count_of_empty_hash st :
  (backlog_hset (store st) = ∅ -> App.getBacklogCount st = (Ok (Num 0), st))
  /\ (completed (store st) = ∅ -> App.getCompletedCount st = (Ok (Num 0), st)).
Proof.
  unfold App.getBacklogCount, App.getCompletedCount. run_chain.
  destruct st as [v [q h c] e]. cbn.
  split; intros ->; by rewrite map_to_list_empty.
Qed.

(** Claim C7.  Count/enumeration agreement: after any sequence of
    [queueJob] / [fetchJob] / [completeJob] / clear operations,
    [getBacklogCount()] is the sum of the counts of the jobs that
    [getBacklogJobs()] returns, and [getCompletedCount()] that of
    [getCompletedJobs()]; on an empty (absent) hash the count is 0.  Both
    managers. *)
Theorem count_is_sum_of_enumerated_jobs
    (st0 : St App.ModVars) (vp : Part000.ModVars) (ops : list Op) :
  store_ok (store st0) ->
  forallb op_wf ops = true ->
  let st := perform_all ops st0 in
  let stp := perform_all_000 ops (mkSt vp (store st0) (events st0)) in
  (exists jobs,
     App.getBacklogJobs st = (Ok jobs, st)
     /\ App.getBacklogCount st = (Ok (total_count jobs), st))
  /\ (exists jobs,
        App.getCompletedJobs st = (Ok jobs, st)
        /\ App.getCompletedCount st = (Ok (total_count jobs), st))
  /\ (backlog_hset (store st) = ∅ -> App.getBacklogCount st = (Ok (Num 0), st))
  /\ (completed (store st) = ∅ -> App.getCompletedCount st = (Ok (Num 0), st))
  /\ (exists jobs,
        Part000.getBacklogJobs stp = (Ok jobs, stp)
        /\ Part000.getBacklogCount stp = (Ok (total_count jobs), stp))
  /\ (exists jobs,
        Part000.getCompletedJobs stp = (Ok jobs, stp)
        /\ Part000.getCompletedCount stp = (Ok (total_count jobs), stp))
  /\ (backlog_hset (store stp) = ∅ ->
        Part000.getBacklogCount stp = (Ok (Num 0), stp))
  /\ (completed (store stp) = ∅ ->
        Part000.getCompletedCount stp = (Ok (Num 0), stp)).
Proof.
  intros Hok Hwf st stp.
  pose proof (perform_all_ok ops st0 Hwf Hok) as [Hbacklog Hledger].
  fold st in Hbacklog, Hledger.
  pose proof (getBacklog_agree st (backlog_hash_ok _ Hbacklog)) as Hb.
  pose proof (getCompleted_agree st Hledger) as Hc.
  pose proof (count_of_empty_hash st) as [Hb0 Hc0].
  assert (stp = mkSt vp (store st) (events st)) as Hstp.
  { subst stp st.
    destruct (perform_all_same ops (vars st0) vp (store st0) (events st0))
      as [-> _]. by destruct st0. }
  destruct (readers_same (vars st) vp (store st) (events st))
    as (Rbj & Rbc & Rcj & Rcc).
  rewrite <- Hstp in Rbj, Rbc, Rcj, Rcc.
  replace (mkSt (vars st) (store st) (events st)) with st
    in Rbj, Rbc, Rcj, Rcc by (by destruct st).
  split; [done|]. split; [done|]. split; [done|]. split; [done|].
  destruct Hb as (jobs & Hj & Hn). destruct Hc as (done_jobs & Hdj & Hdn).
  split; [exists jobs; by rewrite Rbj, Rbc, Hj, Hn|].
  split; [exists done_jobs; by rewrite Rcj, Rcc, Hdj, Hdn|].
  assert (store stp = store st) as Hstore by (by rewrite Hstp).
  rewrite Hstore, Rbc, Rcc.
  split; intros Hempty; [by rewrite (Hb0 Hempty) | by rewrite (Hc0 Hempty)].
Qed.

(** * Queue, then fetch *)

(** The claim C2 as stated fails: the backlog is a queue, and with another
    job already waiting ([B:t1]) the fetch that follows [queueJob(A:t1)]
    returns that other job. *)
Lemma fetch_after_queue_returns_the_oldest :
  let st := mkSt App.initial_vars store_B1 [] in
  backlog_hset (store st) !! getID job_A1 = None
  /\ (getID job_A1 ∉ backlog_queue (store st))
  /\ fst (App.fetchJob (after (App.queueJob (IsJob job_A1)) st))
     = Ok (Some job_B1)
  /\ getID job_B1 <> getID job_A1
  /\ count job_B1 <> count job_A1.
Proof.
  cbv zeta. split; [done|]. split.
  - cbn. by intros [=]%list_elem_of_singleton.
  - split; [by vm_compute|]. split; by vm_compute.
Qed.

(** Claim C2, amended.  Round-trip on an empty backlog: when the backlog
    queue is empty and the backlog hash has no entry for J's id, and J's
    count is a safe integer, [queueJob(J)] followed at once by
    [fetchJob()] returns a Job with J's id and count (it is J), and
    afterwards neither the queue nor the hash holds J's id: the backlog is
    as it was before, and so is [getBacklogCount()].  Both managers. *)
Theorem queue_then_fetch_on_empty_backlog
    (st : St App.ModVars) (vp : Part000.ModVars) (a : JobArg) (J : Job) :
  backlog_queue (store st) = [] ->
  backlog_hset (store st) !! getID J = None ->
  arg_wf a = true ->
  coerce_job a = Ok J ->
  safe_count (count J) = true ->
  let st1 := after (App.queueJob a) st in
  let st2 := after App.fetchJob st1 in
  let stp := mkSt vp (store st) (events st) in
  fst (App.fetchJob st1) = Ok (Some J)
  /\ (getID J ∉ backlog_queue (store st2))
  /\ backlog_hset (store st2) !! getID J = None
  /\ store st2 = store st
  /\ fst (App.getBacklogCount st2) = fst (App.getBacklogCount st)
  /\ Part000.fetchJob (after (Part000.queueJob a) stp) = (Ok (Some J), stp).
Proof.
  intros Hq Hfresh Hwf Ha _ st1 st2 stp.
  pose proof (coerce_job_wf a J Hwf Ha) as HJ.
  assert (st1 = mkSt (vars st)
                  (mkStore [getID J]
                     (<[getID J := toString (count J)]> (backlog_hset (store st)))
                     (completed (store st)))
                  (events st)) as Hst1.
  { subst st1. unfold after. rewrite (queueJob_fresh st a J Ha Hfresh).
    by rewrite Hq. }
  assert (App.fetchJob st1 = (Ok (Some J), st)) as Hfetch.
  { rewrite (fetchJob_front st1 (getID J) [] J).
    - rewrite Hst1. cbn. rewrite delete_insert_id by done.
      destruct st as [v [q h c] e]. cbn in *. by subst q.
    - by rewrite Hst1.
    - rewrite Hst1. cbn. rewrite lookup_insert_eq.
      by apply createFromID_of_job. }
  assert (st2 = st) as -> by (subst st2; unfold after; by rewrite Hfetch).
  split; [by rewrite Hfetch|]. split; [rewrite Hq; by intros ?%elem_of_nil|].
  split; [done|]. split; [done|]. split; [done|].
  destruct (queueJob_same a (vars st) vp (store st) (events st)
              (coerce_job_truthy a J Ha)) as [Hqs _].
  replace (mkSt (vars st) (store st) (events st)) with st in Hqs
    by (by destruct st).
  subst stp. unfold after at 1. rewrite Hqs. cbn [snd].
  fold (after (App.queueJob a) st). fold st1.
  destruct (fetchJob_same (vars st1) vp (store st1) (events st1)) as [Hfs _].
  replace (mkSt (vars st1) (store st1) (events st1)) with st1 in Hfs
    by (by destruct st1).
  by rewrite Hfs, Hfetch.
Qed.

(** * The two implementations of the backlog operations *)



(** * Concurrent callers *)

Section Interleavings.
Import Workers.

(** One caller alone is [fetchJob]. *)
Lemma worker_alone_is_fetchJob (st : St App.ModVars) :
  exists schedule,
    exec schedule (mkSystem (store st) [Calling])
    = Some (mkSystem (store (after App.fetchJob st))
                     [Returned (fst (App.fetchJob st))]).
Proof.
  destruct (backlog_queue (store st)) as [|id q] eqn:Hq.
  - exists [0%nat]. unfold after. rewrite (fetchJob_empty st Hq). cbn.
    unfold step, worker_step, Redis.lpop. cbn. by rewrite Hq.
  - destruct (createFromID id (backlog_hset (store st) !! id)) as [j|e] eqn:Hj.
    + exists [0%nat; 0%nat; 0%nat]. unfold after.
      rewrite (fetchJob_front st id q j Hq Hj). cbn.
      unfold step, worker_step, Redis.lpop. cbn. rewrite Hq. cbn. rewrite Hj.
      cbn. apply createFromID_getID in Hj as [Hid _]. by rewrite Hid.
    + exists [0%nat; 0%nat]. unfold after.
      rewrite (fetchJob_malformed st id q e Hq Hj). cbn.
      unfold step, worker_step, Redis.lpop. cbn. rewrite Hq. cbn. by rewrite Hj.
Qed.

Lemma insert_split {A} (l : list A) i x :
  l !! i = Some x ->
  exists l1 l2, l = l1 ++ x :: l2 /\ forall y, <[i:=y]> l = l1 ++ y :: l2.
Proof.
  intros Hi. exists (take i l), (drop (S i) l). split.
  - by rewrite take_drop_middle.
  - intros y. apply insert_take_drop. by apply lookup_lt_Some in Hi.
Qed.

Lemma all_held_app l1 l2 : all_held (l1 ++ l2) = all_held l1 ++ all_held l2.
Proof. unfold all_held. by rewrite fmap_app, join_app. Qed.

Lemma all_held_cons w l : all_held (w :: l) = held w ++ all_held l.
Proof. done. Qed.

Lemma all_held_replace l1 l2 w w' :
  held w' = held w -> all_held (l1 ++ w' :: l2) = all_held (l1 ++ w :: l2).
Proof. intros Heq. by rewrite !all_held_app, !all_held_cons, Heq. Qed.

Lemma all_held_calling n : all_held (replicate n Calling) = [].
Proof.
  induction n as [|n IH]; [done|].
  by rewrite replicate_S, all_held_cons, IH.
Qed.

Lemma consistent_start s n : consistent (backlog_queue s) (start s n).
Proof.
  unfold start, consistent. cbn [server workers].
  rewrite all_held_calling, app_nil_r. split; [done|split].
  - intros (w & Hw & Hno)%Exists_exists.
    apply elem_of_replicate_inv in Hw as ->. done.
  - apply Forall_forall. intros w Hw.
    apply elem_of_replicate_inv in Hw as ->. done.
Qed.

Section Steps.
Variable ids : list string.
Hypothesis ids_are_jobs :
  forall id, id ∈ ids -> exists j, Job_wf j = true /\ getID j = id.

Lemma consistent_step i σ σ' :
  consistent ids σ -> step i σ = Some σ' -> consistent ids σ'.
Proof.
  intros (Hperm & Hempty & Hfail). unfold step.
  destruct (workers σ !! i) as [w|] eqn:Hw; [|done].
  destruct (insert_split _ _ _ Hw) as (l1 & l2 & Hws & Hins).
  assert (forall w',
            no_job w' = false ->
            Exists (fun w => no_job w = true) (<[i:=w']> (workers σ)) ->
            Exists (fun w => no_job w = true) (workers σ)) as Hstill.
  { intros w' Hw' (x & Hin & Hno)%Exists_exists.
    apply Exists_exists. exists x. split; [|done].
    rewrite Hins in Hin. rewrite Hws.
    apply elem_of_app in Hin as [?|Hin]; [apply elem_of_app; by left|].
    apply elem_of_cons in Hin as [->|?]; [congruence|].
    apply elem_of_app. right. by right. }
  destruct w as [|id|job|r]; cbn [worker_step]; [| | |done].
  - (* the pop *)
    unfold Redis.lpop. destruct (backlog_queue (server σ)) as [|id q] eqn:Hq.
    + intros [= <-]. unfold consistent. cbn [server workers].
      rewrite Hq, Hins. rewrite Hws in Hperm.
      rewrite (all_held_replace l1 l2 Calling) by done.
      split; [done|]. split; [done|]. rewrite <- Hins. by apply Forall_insert.
    + intros [= <-]. unfold consistent, set_queue.
      cbn [server workers backlog_queue].
      split; [|split].
      * rewrite Hins. rewrite Hws in Hperm.
        rewrite all_held_app, all_held_cons in *. cbn [held] in *.
        rewrite <- Hperm. cbn [app].
        rewrite (app_assoc q), <- Permutation_middle. by rewrite <- app_assoc.
      * intros Hex. apply (Hstill (Popped id)) in Hex; [|done].
        by specialize (Hempty Hex).
      * by apply Forall_insert.
  - (* the read, and the job built from the id *)
    unfold Redis.hget. cbn [fst snd].
    assert (id ∈ ids) as Hid.
    { rewrite <- Hperm, Hws, all_held_app, all_held_cons.
      apply elem_of_app. right. apply elem_of_app. right. by left. }
    destruct (ids_are_jobs id Hid) as (j & Hj & <-).
    destruct (createFromID_wf_id j (backlog_hset (server σ) !! getID j) Hj)
      as (j' & Hj' & _).
    cbn [get_hash]. rewrite Hj'. intros [= <-].
    apply createFromID_getID in Hj' as [Hid' _].
    unfold consistent. cbn [server workers].
    split; [|split].
    + rewrite Hins. rewrite Hws in Hperm.
      by rewrite (all_held_replace l1 l2 (Popped (getID j)))
        by (cbn; by rewrite Hid').
    + intros Hex. apply Hempty.
      by apply (Hstill (Created j')) in Hex.
    + by apply Forall_insert.
  - (* the delete *)
    unfold Redis.hdel. intros [= <-].
    unfold consistent, set_hash. cbn [server workers backlog_queue].
    split; [|split].
    + rewrite Hins. rewrite Hws in Hperm.
      by rewrite (all_held_replace l1 l2 (Created job)).
    + intros Hex. apply Hempty.
      by apply (Hstill (Returned (Ok (Some job)))) in Hex.
    + by apply Forall_insert.
Qed.

Lemma consistent_exec schedule σ σ' :
  consistent ids σ -> exec schedule σ = Some σ' ->
  consistent ids σ' /\ length (workers σ') = length (workers σ).
Proof.
  revert σ. induction schedule as [|i schedule IH]; intros σ Hc.
  - by intros [= <-].
  - cbn. destruct (step i σ) as [σ1|] eqn:Hstep; [|done].
    intros Hexec. destruct (IH σ1 (consistent_step i σ σ1 Hc Hstep) Hexec)
      as [? Hlen].
    split; [done|]. rewrite Hlen. unfold step in Hstep.
    destruct (workers σ !! i); [|done].
    destruct (worker_step _ _) as [[w' s']|]; [|done].
    injection Hstep as <-. cbn. apply length_insert.
Qed.

End Steps.


(** What the callers hold once all have returned. *)
Lemma all_returned_held ws :
  forallb returned ws = true ->
  Forall (fun w => failed w = false) ws ->
  all_held ws = getID <$> omap job_of ws
  /\ (length (filter (fun w => no_job w = true) ws)
      + length (omap job_of ws) = length ws)%nat.
Proof.
  induction ws as [|w ws IH]; intros Hret Hfail; [done|].
  cbn in Hret. apply andb_true_iff in Hret as [Hw Hret].
  apply Forall_cons in Hfail as [Hfw Hfail].
  destruct (IH Hret Hfail) as [Hheld Hlen].
  rewrite all_held_cons, Hheld.
  destruct w as [| | |[[job|]|e]]; try done.
  - split; [done|]. rewrite filter_cons_False by done. cbn. lia.
  - split; [done|]. rewrite filter_cons_True by done. cbn. lia.
Qed.

Lemma first_running_spec ws :
  match first_running ws with
  | None => forallb returned ws = true
  | Some i => exists w, ws !! i = Some w /\ returned w = false
  end.
Proof.
  induction ws as [|w ws IH]; [done|]. cbn.
  destruct (returned w) eqn:Hw; [|by exists w].
  destruct (first_running ws) as [i|]; cbn; [|done].
  destruct IH as (w' & ? & ?). by exists w'.
Qed.

Lemma worker_step_progress w s :
  returned w = false ->
  exists w' s', worker_step w s = Some (w', s')
                /\ (remaining w' < remaining w)%nat.
Proof.
  destruct w as [|id|job|r]; [| | |done]; intros _; cbn [worker_step].
  - unfold Redis.lpop. destruct (backlog_queue s); eexists _, _;
      (split; [done|cbn; lia]).
  - unfold Redis.hget. cbn [fst snd].
    destruct (createFromID _ _); eexists _, _; (split; [done|cbn; lia]).
  - unfold Redis.hdel. eexists _, _. split; [done|cbn; lia].
Qed.

Lemma one_by_one_completes fuel σ :
  (sum_list_with remaining (workers σ) <= fuel)%nat ->
  exists σ', exec (one_by_one fuel σ) σ = Some σ'
             /\ forallb returned (workers σ') = true.
Proof.
  revert σ. induction fuel as [|fuel IH]; intros σ Hfuel;
    pose proof (first_running_spec (workers σ)) as Hfirst.
  - exists σ. split; [done|].
    destruct (first_running (workers σ)) as [i|]; [|done].
    destruct Hfirst as (w & Hw & Hrun). exfalso.
    destruct (insert_split _ _ _ Hw) as (l1 & l2 & Hws & _).
    rewrite Hws, sum_list_with_app in Hfuel. cbn in Hfuel.
    destruct w; cbn in *; (done || lia).
  - cbn [one_by_one].
    destruct (first_running (workers σ)) as [i|]; [|by exists σ].
    destruct Hfirst as (w & Hw & Hrun).
    destruct (worker_step_progress w (server σ) Hrun) as (w' & s' & Hstep & Hlt).
    assert (step i σ = Some (mkSystem s' (<[i:=w']> (workers σ)))) as Hsys
      by (unfold step; by rewrite Hw, Hstep).
    rewrite Hsys. cbn [exec]. rewrite Hsys. apply IH. cbn [workers].
    destruct (insert_split _ _ _ Hw) as (l1 & l2 & Hws & Hins).
    rewrite Hins. rewrite Hws in Hfuel.
    rewrite !sum_list_with_app in *. cbn in *. lia.
Qed.

(** Claim C1.  Exactly-once dequeue: with a backlog of M unique job ids and
    N > M concurrent callers of [fetchJob], whatever the interleaving of
    their commands, once all have returned exactly M of them hold a Job,
    the other N - M were told "no job available", and the ids of the jobs
    returned are the ids of the backlog, each once.  Every caller does
    return: the callers can always be run to their end. *)
Theorem fetchJob_exactly_once (s : Store) (n : nat) :
  NoDup (backlog_queue s) ->
  (forall id, id ∈ backlog_queue s ->
     exists j, Job_wf j = true /\ getID j = id) ->
  (length (backlog_queue s) < n)%nat ->
  (forall schedule σ,
     exec schedule (start s n) = Some σ ->
     forallb returned (workers σ) = true ->
     let jobs := omap job_of (workers σ) in
     length jobs = length (backlog_queue s)
     /\ length (filter (fun w => no_job w = true) (workers σ))
        = (n - length (backlog_queue s))%nat
     /\ NoDup (getID <$> jobs)
     /\ getID <$> jobs ≡ₚ backlog_queue s
     /\ backlog_queue (server σ) = [])
  /\ (exists schedule σ,
        exec schedule (start s n) = Some σ
        /\ forallb returned (workers σ) = true).
Proof.
  intros Hnd Hids Hlt. split.
  - intros schedule σ Hexec Hret jobs.
    destruct (consistent_exec (backlog_queue s) Hids schedule _ σ
                (consistent_start s n) Hexec)
      as [(Hperm & Hempty & Hfail) Hlen].
    unfold start in Hlen. cbn [workers] in Hlen.
    rewrite length_replicate in Hlen.
    destruct (all_returned_held (workers σ) Hret Hfail) as [Hheld Hcount].
    fold jobs in Hheld, Hcount. rewrite Hheld in Hperm.
    assert (backlog_queue (server σ) = []) as Hq.
    { destruct (filter (fun w => no_job w = true) (workers σ)) as [|w l] eqn:Hf.
      - exfalso. apply Permutation_length in Hperm.
        rewrite length_app, length_fmap in Hperm. cbn in Hcount. lia.
      - apply Hempty, Exists_exists. exists w.
        assert (w ∈ filter (fun w => no_job w = true) (workers σ)) as Hin
          by (rewrite Hf; by left).
        apply list_elem_of_filter in Hin as [? ?]. done. }
    rewrite Hq in Hperm. cbn [app] in Hperm.
    assert (length jobs = length (backlog_queue s)) as Hjobs.
    { apply Permutation_length in Hperm. by rewrite length_fmap in Hperm. }
    split; [done|]. split; [lia|]. split; [by rewrite Hperm|]. done.
  - destruct (one_by_one_completes (3 * n) (start s n)) as (σ & Hexec & Hret).
    { unfold start. cbn [workers]. clear.
      induction n as [|n IH]; [done|]. rewrite replicate_S.
      cbn [sum_list_with remaining]. lia. }
    eauto.
Qed.

End Interleavings.

(** * The statements at sample inputs *)

Lemma queueJob_twice_witness :
  backlog_ok (store fresh)
  /\ arg_wf (IsJob job_A1) = true
  /\ coerce_job (IsJob job_A1) = Ok job_A1
  /\ length (filter (fun id => id = getID job_A1)
               (backlog_queue
                  (store (after (App.queueJob (IsJob job_A1))
                            (after (App.queueJob (IsJob job_A1)) fresh)))))
     = 1%nat.
Proof.
  split; [apply backlog_ok_cleared|]. split; [reflexivity|].
  split; [reflexivity|].
  exact (proj1 (proj2 (proj2
           (queueJob_twice_leaves_one fresh (IsJob job_A1) job_A1
              (backlog_ok_cleared ∅) eq_refl eq_refl)))).
Defined.

Lemma queue_then_fetch_witness :
  backlog_queue (store fresh) = []
  /\ backlog_hset (store fresh) !! getID job_A1 = None
  /\ fst (App.fetchJob (after (App.queueJob (IsJob job_A1)) fresh))
     = Ok (Some job_A1).
Proof.
  split; [reflexivity|]. split; [reflexivity|].
  exact (proj1 (queue_then_fetch_on_empty_backlog fresh Part000.initial_vars
                  (IsJob job_A1) job_A1 eq_refl eq_refl eq_refl eq_refl
                  eq_refl)).
Defined.

Lemma count_is_sum_witness :
  store_ok (store fresh)
  /\ forallb op_wf sample_ops = true
  /\ exists jobs,
       App.getBacklogJobs (perform_all sample_ops fresh)
       = (Ok jobs, perform_all sample_ops fresh)
       /\ App.getBacklogCount (perform_all sample_ops fresh)
          = (Ok (total_count jobs), perform_all sample_ops fresh).
Proof.
  split; [apply store_ok_empty|]. split; [reflexivity|].
  exact (proj1 (count_is_sum_of_enumerated_jobs fresh Part000.initial_vars
                  sample_ops store_ok_empty eq_refl)).
Defined.

Lemma store_A1_B1_unique : NoDup (backlog_queue store_A1_B1).
Proof.
  cbn. apply NoDup_cons. split; [|apply NoDup_singleton].
  by intros [=]%list_elem_of_singleton.
Qed.

Lemma store_A1_B1_jobs id :
  id ∈ backlog_queue store_A1_B1 -> exists j, Job_wf j = true /\ getID j = id.
Proof.
  cbn. intros [->|[->|?%elem_of_nil]%elem_of_cons]%elem_of_cons; [| |done].
  - by exists job_A1.
  - by exists job_B1.
Qed.

Lemma fetchJob_exactly_once_witness :
  NoDup (backlog_queue store_A1_B1)
  /\ (length (backlog_queue store_A1_B1) < 3)%nat
  /\ exists schedule σ,
       Workers.exec schedule (Workers.start store_A1_B1 3) = Some σ
       /\ forallb Workers.returned (Workers.workers σ) = true.
Proof.
  split; [apply store_A1_B1_unique|]. split; [cbn; lia|].
  exact (proj2 (fetchJob_exactly_once store_A1_B1 3 store_A1_B1_unique
                  store_A1_B1_jobs ltac:(cbn; lia))).
Defined.

(** * Filtering indices and types *)

Lemma foldl_push {A B} (keep : A -> option B) (xs : list A) (acc : list B) :
  foldl (fun result x =>
           match keep x with Some y => result ++ [y] | None => result end)
        acc xs
  = acc ++ omap keep xs.
Proof.
  revert acc. induction xs as [|x xs IH]; intros acc; cbn.
  - by rewrite app_nil_r.
  - rewrite IH. destruct (keep x); [|done]. by rewrite <- app_assoc.
Qed.

Lemma lodash_filter_kept {T} (f : JsFunction T) (xs : list T) :
  lodash_filter f xs = kept (Some f) xs.
Proof.
  unfold lodash_filter, kept, accepts.
  generalize (imap pair xs) as ps. generalize xs as ys.
  intros ys ps. induction ps as [|[i x] ps IH]; [done|].
  cbn [List.filter omap list_omap].
  destruct (fn_call f x i ys); cbn; by rewrite IH.
Qed.

Lemma omap_imap_all {T} (h : nat -> nat) (xs : list T) :
  omap (fun '(_, x) => Some x) (imap (fun i x => (h i, x)) xs) = xs.
Proof.
  revert h. induction xs as [|x xs IH]; intros h; [done|].
  rewrite imap_cons. cbn. f_equal. apply (IH (h ∘ S)).
Qed.

Lemma kept_None {T} (xs : list T) : kept None xs = xs.
Proof. apply (omap_imap_all (fun i => i)). Qed.

Lemma elem_of_kept {T} (filter : option (JsFunction T)) (xs : list T) x :
  x ∈ kept filter xs
  <-> exists i, xs !! i = Some x /\ accepts filter xs i x = true.
Proof.
  unfold kept. rewrite list_elem_of_omap. split.
  - intros ([i y] & Hin & Hkeep).
    apply elem_of_lookup_imap in Hin as (i' & y' & [= -> ->] & Hlookup).
    destruct (accepts filter xs i' y') eqn:Hacc; [|done].
    injection Hkeep as <-. eauto.
  - intros (i & Hlookup & Hacc). exists (i, x). split.
    + apply elem_of_lookup_imap. eauto.
    + by rewrite Hacc.
Qed.

Lemma kept_sublist {T} (filter : option (JsFunction T)) (xs : list T) :
  kept filter xs `sublist_of` xs.
Proof.
  unfold kept.
  enough (forall (h : nat -> nat) (ys zs : list T),
            omap (fun '(i, x) => if accepts filter zs i x then Some x else None)
                 (imap (fun i x => (h i, x)) ys) `sublist_of` ys) as Hgen
    by apply (Hgen (fun i => i)).
  intros h ys zs. revert h. induction ys as [|y ys IH]; intros h; [done|].
  rewrite imap_cons. cbn.
  destruct (accepts filter zs (h 0%nat) y); cbn.
  - apply sublist_skip, (IH (h ∘ S)).
  - apply sublist_cons, (IH (h ∘ S)).
Qed.

Lemma foldl_push_all {A B} (g : A -> B) (xs : list A) (acc : list B) :
  foldl (fun result x => result ++ [g x]) acc xs = acc ++ (g <$> xs).
Proof.
  revert acc. induction xs as [|x xs IH]; intros acc; cbn.
  - by rewrite app_nil_r.
  - by rewrite IH, <- app_assoc.
Qed.

Lemma foldl_push_pairs {A B C} (g : A -> B -> C) (xs : list (A * B))
    (acc : list C) :
  foldl (fun result '(a, b) => result ++ [g a b]) acc xs
  = acc ++ ((fun '(a, b) => g a b) <$> xs).
Proof.
  revert acc. induction xs as [|[a b] xs IH]; intros acc; cbn.
  - by rewrite app_nil_r.
  - by rewrite IH, <- app_assoc.
Qed.

Lemma name_types_types_of index : name_types (mappings index) = types_of index.
Proof. apply (foldl_push_pairs mkTypeObj). Qed.

Lemma name_indices_fmap response :
  name_indices response
  = (fun '(name, body) => mkIndexObj name (body_mappings body)) <$> response.
Proof.
  apply (foldl_push_pairs (fun name body => mkIndexObj name (body_mappings body))).
Qed.

Lemma selected_types_kept (typeFilter : option (JsFunction TypeObj)) index :
  type_name <$> match typeFilter with
                | Some f => lodash_filter f (name_types (mappings index))
                | None => name_types (mappings index)
                end
  = kept_types typeFilter index.
Proof.
  unfold kept_types. rewrite name_types_types_of.
  destruct typeFilter as [f|]; by rewrite ?lodash_filter_kept, ?kept_None.
Qed.

Lemma filter_reduce (typeFilter : option (JsFunction TypeObj)) selected acc :
  foldl (fun result index =>
           let allTypes := name_types (mappings index) in
           let selectedTypes :=
             match typeFilter with
             | Some f => lodash_filter f allTypes
             | None => allTypes
             end in
           let typeNames := type_name <$> selectedTypes in
           if (0 <? length typeNames)%nat
           then result ++ [mkTarget (index_name index) typeNames]
           else result)
        acc selected
  = acc ++ omap (kept_target typeFilter) selected.
Proof.
  revert acc. induction selected as [|index selected IH]; intros acc.
  - by rewrite app_nil_r.
  - cbn [foldl omap list_omap]. cbv zeta. rewrite IH, selected_types_kept.
    unfold kept_target. destruct (kept_types typeFilter index); cbn; [done|].
    by rewrite <- app_assoc.
Qed.

Lemma filterIndicesAndTypes_run allIndices st :
  App.filterIndicesAndTypes allIndices st
  = (Ok (kept_targets (App.indexFilter (vars st)) (App.typeFilter (vars st))
                      allIndices), st).
Proof.
  unfold App.filterIndicesAndTypes. run_chain. rewrite filter_reduce.
  unfold kept_targets. f_equal. f_equal. cbn [app].
  destruct (App.indexFilter (vars st)); by rewrite ?lodash_filter_kept, ?kept_None.
Qed.

Lemma filterIndicesAndTypes_000_run allIndices st :
  Part000.filterIndicesAndTypes allIndices st
  = (Ok (kept_targets (filter_function <$> Part000.indexFilter (vars st))
                      (filter_function <$> Part000.typeFilter (vars st))
                      allIndices), st).
Proof.
  unfold Part000.filterIndicesAndTypes. run_chain.
  pose proof (filter_reduce (filter_function <$> Part000.typeFilter (vars st))
                (Part000.apply_filter (Part000.indexFilter (vars st)) allIndices)
                []) as Hfold.
  cbn [app] in Hfold. unfold kept_targets.
  replace (kept (filter_function <$> Part000.indexFilter (vars st)) allIndices)
    with (Part000.apply_filter (Part000.indexFilter (vars st)) allIndices).
  - rewrite <- Hfold. f_equal. f_equal.
    destruct (Part000.typeFilter (vars st)) as [[r|f]|]; done.
  - destruct (Part000.indexFilter (vars st)) as [[r|f]|]; cbn;
      by rewrite ?lodash_filter_kept, ?kept_None.
Qed.

(** Claim C8.  [filterIndicesAndTypes]: an index is kept iff the index
    predicate accepts it (all when no index filter is set); within a kept
    index a sub-collection is kept iff the type predicate accepts it (all
    when no type filter is set); an index none of whose sub-collections is
    kept is absent from the result.  The order of the indices and of the
    sub-collections is theirs in the input.  Both managers; [part_000]
    applies a stored pattern as the predicate on the name. *)
Theorem filterIndicesAndTypes_keeps
    (st : St App.ModVars) (stp : St Part000.ModVars)
    (allIndices : list IndexObj) :
  let indexFilter := App.indexFilter (vars st) in
  let typeFilter := App.typeFilter (vars st) in
  let indexFilter' := filter_function <$> Part000.indexFilter (vars stp) in
  let typeFilter' := filter_function <$> Part000.typeFilter (vars stp) in
  let meets_claim indexFilter typeFilter (result : list Target) :=
    (* the result, index by index *)
    result = omap (kept_target typeFilter) (kept indexFilter allIndices)
    (* an index is a candidate iff the index predicate accepts it *)
    /\ (forall index,
          index ∈ kept indexFilter allIndices
          <-> exists i, allIndices !! i = Some index
                        /\ accepts indexFilter allIndices i index = true)
    /\ (indexFilter = None -> kept indexFilter allIndices = allIndices)
    (* a sub-collection is kept iff the type predicate accepts it *)
    /\ (forall index name,
          name ∈ kept_types typeFilter index
          <-> exists k body,
                mappings index !! k = Some (name, body)
                /\ accepts typeFilter (types_of index) k (mkTypeObj name body)
                   = true)
    /\ (typeFilter = None ->
        forall index, kept_types typeFilter index = (mappings index).*1)
    (* an entry is there iff its index is a candidate with a kept type *)
    /\ (forall target,
          target ∈ result
          <-> exists index,
                index ∈ kept indexFilter allIndices
                /\ kept_types typeFilter index <> []
                /\ target = mkTarget (index_name index)
                                     (kept_types typeFilter index))
    /\ (forall target, target ∈ result -> target_types target <> []) in
  (exists result,
     App.filterIndicesAndTypes allIndices st = (Ok result, st)
     /\ meets_claim indexFilter typeFilter result)
  /\ (exists result,
        Part000.filterIndicesAndTypes allIndices stp = (Ok result, stp)
        /\ meets_claim indexFilter' typeFilter' result).
Proof.
  cbv zeta.
  assert (forall fi ft,
    let result := kept_targets fi ft allIndices in
    result = omap (kept_target ft) (kept fi allIndices)
    /\ (forall index,
          index ∈ kept fi allIndices
          <-> exists i, allIndices !! i = Some index
                        /\ accepts fi allIndices i index = true)
    /\ (fi = None -> kept fi allIndices = allIndices)
    /\ (forall index name,
          name ∈ kept_types ft index
          <-> exists k body,
                mappings index !! k = Some (name, body)
                /\ accepts ft (types_of index) k (mkTypeObj name body) = true)
    /\ (ft = None -> forall index, kept_types ft index = (mappings index).*1)
    /\ (forall target,
          target ∈ result
          <-> exists index,
                index ∈ kept fi allIndices
                /\ kept_types ft index <> []
                /\ target = mkTarget (index_name index) (kept_types ft index))
    /\ (forall target, target ∈ result -> target_types target <> [])) as Hall.
  { intros fi ft result.
    assert (forall target,
              target ∈ result
              <-> exists index,
                    index ∈ kept fi allIndices
                    /\ kept_types ft index <> []
                    /\ target = mkTarget (index_name index) (kept_types ft index))
      as Htargets.
    { intros target. subst result. unfold kept_targets.
      rewrite list_elem_of_omap. unfold kept_target.
      split; intros (index & Hin & Hrest); exists index.
      - destruct (kept_types ft index) as [|n ns] eqn:Hk; [done|].
        by injection Hrest as <-.
      - destruct Hrest as [Hne ->]. split; [done|].
        by destruct (kept_types ft index). }
    split; [done|]. split; [apply elem_of_kept|].
    split; [intros ->; apply kept_None|]. split.
    - intros index name. unfold kept_types. rewrite list_elem_of_fmap.
      setoid_rewrite elem_of_kept. unfold types_of at 1.
      setoid_rewrite list_lookup_fmap. split.
      + intros ([n b] & -> & k & Hk & Hacc). cbn.
        destruct (mappings index !! k) as [[n' b']|] eqn:Hm; [|done].
        injection Hk as -> ->. eauto.
      + intros (k & body & Hm & Hacc). exists (mkTypeObj name body).
        split; [done|]. exists k. by rewrite Hm.
    - split; [|split; [done|]].
      + intros -> index. unfold kept_types. rewrite kept_None.
        unfold types_of. rewrite <- list_fmap_compose.
        apply list_fmap_ext. by intros _ [n b] _.
      + intros target (index & _ & Hne & ->)%Htargets. done. }
  split.
  - eexists. split; [apply filterIndicesAndTypes_run|]. apply Hall.
  - eexists. split; [apply filterIndicesAndTypes_000_run|]. apply Hall.
Qed.

(** * Resolving a filter *)

Section Resolution.
Context `{Runtime}.

Lemma getFilterFunction_of_function {T} `{Named T} (f : JsFunction T) st :
  App.getFilterFunction (FilterFunction f) st
  = (if (fn_length f <? 1)%nat
     then Throw (Error "filter function must take at least one argument")
     else Ok f,
     mkSt (vars st) (store st)
          (events st ++ [LogInfo "Loaded filter as function"])).
Proof.
  unfold App.getFilterFunction. run_chain.
  by destruct (fn_length f <? 1)%nat.
Qed.

Lemma setIndexFilter_of_function (f : JsFunction IndexObj) st :
  App.setIndexFilter (FilterFunction f) st
  = if (fn_length f <? 1)%nat
    then (Throw (Error "filter function must take at least one argument"),
          mkSt (vars st) (store st)
               (events st ++ [LogInfo "Loaded filter as function"]))
    else (Ok tt,
          mkSt (App.mkVars (Some f) (App.indexComparator (vars st))
                           (App.typeFilter (vars st)) (App.source (vars st)))
               (store st)
               ((events st ++ [LogInfo "Loaded filter as function"])
                ++ [LogInfo "set index filter: "])).
Proof.
  unfold App.setIndexFilter, App.getFilterFunction. run_chain.
  destruct (fn_length f <? 1)%nat; by run_chain.
Qed.

Lemma setTypeFilter_of_function (g : JsFunction TypeObj) st :
  App.setTypeFilter (FilterFunction g) st
  = if (fn_length g <? 1)%nat
    then (Throw (Error "filter function must take at least one argument"),
          mkSt (vars st) (store st)
               (events st ++ [LogInfo "Loaded filter as function"]))
    else (Ok tt,
          mkSt (App.mkVars (App.indexFilter (vars st))
                           (App.indexComparator (vars st)) (Some g)
                           (App.source (vars st)))
               (store st)
               ((events st ++ [LogInfo "Loaded filter as function"])
                ++ [LogInfo "set type filter: "])).
Proof.
  unfold App.setTypeFilter, App.getFilterFunction. run_chain.
  destruct (fn_length g <? 1)%nat; by run_chain.
Qed.

(** Claim C5, amended.  Filter-resolution arity rule: in
    [src/app/manager.js] a function handed to [setIndexFilter] or
    [setTypeFilter] is accepted (and becomes the filter) iff its declared
    arity is at least one, so arity two or more is accepted, and arity zero
    fails with the configuration error "filter function must take at least
    one argument"; in [src/unnamed/part_000] it is accepted iff its declared
    arity is exactly one, and every other arity fails with a configuration
    error that leaves the filter as it was. *)
Theorem filter_function_arity_rule
    (f : JsFunction IndexObj) (g : JsFunction TypeObj)
    (st : St App.ModVars) (stp : St Part000.ModVars) :
  let too_few := Error "filter function must take at least one argument" in
  let not_one :=
    Error "filter must be a regex or function that takes 1 argument" in
  (* manager.js *)
  (fst (App.setIndexFilter (FilterFunction f) st)
   = (if (1 <=? fn_length f)%nat then Ok tt else Throw too_few))
  /\ (App.indexFilter (vars (after (App.setIndexFilter (FilterFunction f)) st))
      = if (1 <=? fn_length f)%nat then Some f else App.indexFilter (vars st))
  /\ (fst (App.setTypeFilter (FilterFunction g) st)
      = (if (1 <=? fn_length g)%nat then Ok tt else Throw too_few))
  /\ (App.typeFilter (vars (after (App.setTypeFilter (FilterFunction g)) st))
      = if (1 <=? fn_length g)%nat then Some g else App.typeFilter (vars st))
  (* part_000 *)
  /\ (fst (Part000.setIndexFilter (FilterFunction f) stp)
      = (if (fn_length f =? 1)%nat then Ok tt else Throw not_one))
  /\ (Part000.indexFilter
        (vars (after (Part000.setIndexFilter (FilterFunction f)) stp))
      = if (fn_length f =? 1)%nat then Some (Part000.IsFunction f)
        else Part000.indexFilter (vars stp))
  /\ (fst (Part000.setTypeFilter (FilterFunction g) stp)
      = (if (fn_length g =? 1)%nat then Ok tt else Throw not_one))
  /\ (Part000.typeFilter
        (vars (after (Part000.setTypeFilter (FilterFunction g)) stp))
      = if (fn_length g =? 1)%nat then Some (Part000.IsFunction g)
        else Part000.typeFilter (vars stp)).
Proof.
  cbv zeta. unfold after.
  rewrite setIndexFilter_of_function, setTypeFilter_of_function.
  unfold Part000.setIndexFilter, Part000.setTypeFilter, Part000.check_filter.
  replace (1 <=? fn_length f)%nat with (negb (fn_length f <? 1)%nat)
    by (destruct (Nat.ltb_spec (fn_length f) 1), (Nat.leb_spec 1 (fn_length f));
        (done || lia)).
  replace (1 <=? fn_length g)%nat with (negb (fn_length g <? 1)%nat)
    by (destruct (Nat.ltb_spec (fn_length g) 1), (Nat.leb_spec 1 (fn_length g));
        (done || lia)).
  destruct (fn_length f <? 1)%nat, (fn_length g <? 1)%nat,
    (fn_length f =? 1)%nat, (fn_length g =? 1)%nat; run_chain; done.
Qed.

End Resolution.

(** The claim C5 as stated fails on [src/app/manager.js]: a predicate of
    declared arity two is accepted and becomes the index filter. *)
Lemma two_argument_filter_is_accepted :
  fn_length two_argument_filter = 2%nat
  /\ fst (@App.setIndexFilter sample_runtime
            (FilterFunction two_argument_filter) fresh) = Ok tt
  /\ App.indexFilter
       (vars (after (@App.setIndexFilter sample_runtime
                       (FilterFunction two_argument_filter)) fresh))
     = Some two_argument_filter.
Proof. repeat split. Qed.

(** * Count enrichment *)

Lemma count_job_run src job st :
  App.source (vars st) = Some src ->
  App.count_job job st
  = (match source_count src (params_index job) (params_type job) with
     | Ok v => Ok (counted job v)
     | Throw e => Throw e
     end,
     mkSt (vars st) (store st) (events st ++ one_at_a_time [job])).
Proof.
  intros Hsrc. unfold App.count_job. run_chain. rewrite Hsrc.
  unfold ask_count. run_chain.
  by destruct (source_count src _ _).
Qed.

Lemma count_job_000_run src job st :
  Part000.source (vars st) = Some src ->
  Part000.count_job job st
  = match source_count src (params_index job) (params_type job) with
    | Ok v =>
        (Ok (counted job v),
         mkSt (with_total (vars st)
                          (js_add (Part000.totalCount (vars st)) (count_of v)))
              (store st) (events st ++ one_at_a_time [job]))
    | Throw e =>
        (Throw e, mkSt (vars st) (store st) (events st ++ one_at_a_time [job]))
    end.
Proof.
  intros Hsrc. unfold Part000.count_job. run_chain. rewrite Hsrc.
  unfold ask_count. run_chain.
  by destruct (source_count src _ _).
Qed.

Lemma one_at_a_time_cons job jobs :
  one_at_a_time (job :: jobs) = one_at_a_time [job] ++ one_at_a_time jobs.
Proof. done. Qed.

Lemma one_at_a_time_app jobs1 jobs2 :
  one_at_a_time (jobs1 ++ jobs2) = one_at_a_time jobs1 ++ one_at_a_time jobs2.
Proof. unfold one_at_a_time. apply bind_app. Qed.

Section Enrichment.
Variable src : Source.

Lemma mapSeries_count_ok jobs values st :
  App.source (vars st) = Some src ->
  Forall2 (answers src) jobs values ->
  mapSeries App.count_job jobs st
  = (Ok (zip_with counted jobs values),
     mkSt (vars st) (store st) (events st ++ one_at_a_time jobs)).
Proof.
  intros Hsrc Hall. revert st Hsrc.
  induction Hall as [|job v jobs values Hjob _ IH]; intros st Hsrc.
  - cbn. rewrite app_nil_r. by destruct st.
  - cbn [mapSeries]. unfold mbind at 1, M_bind.
    rewrite (count_job_run src) by done. unfold answers in Hjob. rewrite Hjob.
    unfold mbind at 1, M_bind. rewrite IH by done. cbn.
    by rewrite <- app_assoc.
Qed.

Lemma mapSeries_count_fail pre job post values e st :
  App.source (vars st) = Some src ->
  Forall2 (answers src) pre values ->
  refuses src job e ->
  mapSeries App.count_job (pre ++ job :: post) st
  = (Throw e,
     mkSt (vars st) (store st) (events st ++ one_at_a_time (pre ++ [job]))).
Proof.
  intros Hsrc Hall Hfail. revert st Hsrc.
  induction Hall as [|job' v pre values Hjob _ IH]; intros st Hsrc.
  - cbn [app mapSeries]. unfold mbind at 1, M_bind.
    rewrite (count_job_run src) by done. unfold refuses in Hfail.
    by rewrite Hfail.
  - cbn [app mapSeries]. unfold mbind at 1, M_bind.
    rewrite (count_job_run src) by done. unfold answers in Hjob. rewrite Hjob.
    unfold mbind at 1, M_bind. rewrite IH by done. cbn.
    by rewrite <- app_assoc.
Qed.

Lemma mapSeries_count_000_ok jobs values st :
  Part000.source (vars st) = Some src ->
  Forall2 (answers src) jobs values ->
  mapSeries Part000.count_job jobs st
  = (Ok (zip_with counted jobs values),
     mkSt (with_total (vars st)
             (foldl js_add (Part000.totalCount (vars st)) (count_of <$> values)))
          (store st) (events st ++ one_at_a_time jobs)).
Proof.
  intros Hsrc Hall. revert st Hsrc.
  induction Hall as [|job v jobs values Hjob _ IH]; intros st Hsrc.
  - cbn. rewrite app_nil_r. by destruct st as [[] ? ?].
  - cbn [mapSeries]. unfold mbind at 1, M_bind.
    rewrite (count_job_000_run src) by done. unfold answers in Hjob.
    rewrite Hjob. unfold mbind at 1, M_bind. rewrite IH by done. cbn.
    by rewrite <- app_assoc.
Qed.

Lemma mapSeries_count_000_fail pre job post values e st :
  Part000.source (vars st) = Some src ->
  Forall2 (answers src) pre values ->
  refuses src job e ->
  mapSeries Part000.count_job (pre ++ job :: post) st
  = (Throw e,
     mkSt (with_total (vars st)
             (foldl js_add (Part000.totalCount (vars st)) (count_of <$> values)))
          (store st) (events st ++ one_at_a_time (pre ++ [job]))).
Proof.
  intros Hsrc Hall Hfail. revert st Hsrc.
  induction Hall as [|job' v pre values Hjob _ IH]; intros st Hsrc.
  - cbn [app mapSeries]. unfold mbind at 1, M_bind.
    rewrite (count_job_000_run src) by done. unfold refuses in Hfail.
    rewrite Hfail. cbn. by destruct st as [[] ? ?].
  - cbn [app mapSeries]. unfold mbind at 1, M_bind.
    rewrite (count_job_000_run src) by done. unfold answers in Hjob.
    rewrite Hjob. unfold mbind at 1, M_bind. rewrite IH by done. cbn.
    by rewrite <- app_assoc.
Qed.

End Enrichment.

(** Claim C6, amended.  Count Enrichment: for every ordered job sequence,
    enrichment queries the source for the document count of each job one
    at a time, in order, and sets each job's count to the integer-parsed
    result; when a count query fails the whole enrichment rejects with that
    error: no later job is queried and no list of jobs is returned.
    [src/unnamed/part_000] also accumulates a running total over the jobs
    processed so far (those before the failing one, when one fails);
    [src/app/manager.js] keeps no total: its module variables are left as
    they were. *)
Theorem count_enrichment_one_at_a_time
    (src : Source) (st : St App.ModVars) (stp : St Part000.ModVars) :
  App.source (vars st) = Some src ->
  Part000.source (vars stp) = Some src ->
  let started := LogInfo "counting docs in existing indices" in
  let total_after vs :=
    foldl js_add (Part000.totalCount (vars stp)) (count_of <$> vs) in
  (* every query is answered *)
  (forall jobs values,
     Forall2 (answers src) jobs values ->
     App.addCountToJobs jobs st
     = (Ok (zip_with counted jobs values),
        mkSt (vars st) (store st) (events st ++ started :: one_at_a_time jobs))
     /\ Part000.addCountToJobs jobs stp
        = (Ok (zip_with counted jobs values),
           mkSt (with_total (vars stp) (total_after values)) (store stp)
                (events stp ++ started :: one_at_a_time jobs)))
  (* the query of [job] fails, those of the jobs before it are answered *)
  /\ (forall pre job post pre_values e,
        Forall2 (answers src) pre pre_values ->
        refuses src job e ->
        App.addCountToJobs (pre ++ job :: post) st
        = (Throw e,
           mkSt (vars st) (store st)
                (events st ++ started :: one_at_a_time (pre ++ [job])))
        /\ Part000.addCountToJobs (pre ++ job :: post) stp
           = (Throw e,
              mkSt (with_total (vars stp) (total_after pre_values)) (store stp)
                   (events stp ++ started :: one_at_a_time (pre ++ [job])))).
Proof.
  intros Hsrc Hsrc' started total_after.
  unfold App.addCountToJobs, Part000.addCountToJobs.
  unfold mbind, M_bind, emit. cbn [vars store events]. split.
  - intros jobs values Hjobs.
    rewrite (mapSeries_count_ok src jobs values) by done.
    rewrite (mapSeries_count_000_ok src jobs values) by done.
    cbn [vars store events]. by rewrite <- !app_assoc.
  - intros pre job post pre_values e Hpre Hfail.
    rewrite (mapSeries_count_fail src pre job post pre_values e) by done.
    rewrite (mapSeries_count_000_fail src pre job post pre_values e) by done.
    cbn [vars store events]. by rewrite <- !app_assoc.
Qed.

(** The claim C6 as stated fails on [src/app/manager.js]: enrichment sets
    the counts 3 and 5 and leaves every module variable as it was, so
    nothing read off the module has grown by their total. *)
Lemma manager_keeps_no_running_total :
  let st' := after (App.addCountToJobs [params_A1; params_B1]) sample_state in
  fst (App.addCountToJobs [params_A1; params_B1] sample_state)
  = Ok [mkParams "A" "t1" (Some (Num 3)); mkParams "B" "t1" (Some (Num 5))]
  /\ vars st' = vars sample_state
  /\ ~ (exists total : App.ModVars -> Z,
          total (vars st') = total (vars sample_state) + (3 + 5)).
Proof.
  cbv zeta. split; [by vm_compute|]. split; [by vm_compute|].
  intros (total & Htotal).
  replace (vars (after (App.addCountToJobs [params_A1; params_B1]) sample_state))
    with (vars sample_state) in Htotal by (by vm_compute).
  lia.
Qed.

Lemma count_enrichment_witness :
  Forall2 (answers sample_source) [params_A1; params_A2; params_B1]
          [CountNumber (Num 3); CountString "7"; CountNumber (Num 5)]
  /\ refuses sample_source params_C1 (Error "index_not_found_exception")
  /\ Part000.addCountToJobs [params_A1; params_A2; params_B1] sample_state_000
     = (Ok [mkParams "A" "t1" (Some (Num 3)); mkParams "A" "t2" (Some (Num 7));
            mkParams "B" "t1" (Some (Num 5))],
        mkSt (with_total (vars sample_state_000) (Num 15)) empty_store
             (LogInfo "counting docs in existing indices"
              :: one_at_a_time [params_A1; params_A2; params_B1]))
  /\ App.addCountToJobs [params_A1; params_C1; params_B1] sample_state
     = (Throw (Error "index_not_found_exception"),
        mkSt (vars sample_state) empty_store
             (LogInfo "counting docs in existing indices"
              :: one_at_a_time [params_A1; params_C1])).
Proof.
  assert (Forall2 (answers sample_source) [params_A1; params_A2; params_B1]
            [CountNumber (Num 3); CountString "7"; CountNumber (Num 5)])
    as Hjobs by (repeat constructor).
  assert (Forall2 (answers sample_source) [params_A1] [CountNumber (Num 3)])
    as Hpre by (repeat constructor).
  assert (refuses sample_source params_C1 (Error "index_not_found_exception"))
    as Hfail by reflexivity.
  split; [done|]. split; [done|].
  pose proof (count_enrichment_one_at_a_time sample_source
                sample_state sample_state_000 eq_refl eq_refl)
    as [Hanswered Hrefused].
  split.
  - exact (proj2 (Hanswered [params_A1; params_A2; params_B1]
                    [CountNumber (Num 3); CountString "7"; CountNumber (Num 5)]
                    Hjobs)).
  - exact (proj1 (Hrefused [params_A1] params_C1 [params_B1]
                    [CountNumber (Num 3)] (Error "index_not_found_exception")
                    Hpre Hfail)).
Defined.

(** * The orchestrator *)

(** The end-to-end scenario of the specification: indices [A] (types [t1],
    [t2]) and [B] ([t1]), no filter, a comparator that sorts descending by
    name, and a ledger that already holds [A:t1]. *)
Example scenario_ignoring_completed :
  let st := after (App.initialize "*" true) scenario_state in
  backlog_queue (store st) = ["B:t1"; "A:t1"; "A:t2"]
  /\ fst (App.getBacklogCount st) = Ok (Num 15)
  /\ completed (store st) = ∅.
Proof. cbv zeta. repeat split; by vm_compute. Qed.

Example scenario_resuming :
  let st := after (App.initialize "*" false) scenario_state in
  backlog_queue (store st) = ["B:t1"]
  /\ fst (App.getBacklogCount st) = Ok (Num 5)
  /\ completed (store st) = {["A:t1" := "3"]}.
Proof. cbv zeta. repeat split; by vm_compute. Qed.

(** ** The stages of [initialize] in [src/app/manager.js] *)

Lemma getIndices_frame client names v :
  exists r evs, forall s ev,
    App.getIndices client names (mkSt v s ev) = (r, mkSt v s (ev ++ evs)).
Proof.
  unfold App.getIndices. destruct client as [src|].
  - destruct (source_indices_get src names) as [response|e] eqn:Hget.
    + eexists _, _. intros s ev. by run_chain.
    + eexists _, _. intros s ev. by run_chain.
  - exists (Throw (TypeError "Cannot read property 'indices' of null")), [].
    intros s ev. run_chain. by rewrite app_nil_r.
Qed.

(** Preparing the jobs reads the module variables and the source only. *)
Lemma prepareNewJobs_frame names v :
  exists r evs, forall s ev,
    App.prepareNewJobs names (mkSt v s ev) = (r, mkSt v s (ev ++ evs)).
Proof.
  destruct (getIndices_frame (App.source v) names v) as (r & evs & Hget).
  destruct r as [allIndices|e].
  - eexists _, _. intros s ev. unfold App.prepareNewJobs. run_chain.
    rewrite Hget. rewrite filterIndicesAndTypes_run. run_chain.
    by rewrite <- app_assoc.
  - eexists _, _. intros s ev. unfold App.prepareNewJobs. run_chain.
    rewrite Hget. by rewrite <- app_assoc.
Qed.

Lemma count_job_frame job v :
  exists r evs,
    (forall s ev, App.count_job job (mkSt v s ev) = (r, mkSt v s (ev ++ evs)))
    /\ (forall job', r = Ok job' -> target_of job' = target_of job).
Proof.
  destruct (App.source v) as [src|] eqn:Hsrc.
  - eexists _, _. split.
    + intros s ev. by rewrite (count_job_run src).
    + intros job'. destruct (source_count src _ _); [|done].
      by intros [= <-].
  - exists (Throw (TypeError "Cannot read property 'count' of null")), []. split.
    + intros s ev. unfold App.count_job. run_chain. rewrite Hsrc.
      by rewrite app_nil_r.
    + done.
Qed.

Lemma mapSeries_count_frame jobs v :
  exists r evs,
    (forall s ev,
       mapSeries App.count_job jobs (mkSt v s ev) = (r, mkSt v s (ev ++ evs)))
    /\ (forall jobs', r = Ok jobs' -> target_of <$> jobs' = target_of <$> jobs).
Proof.
  induction jobs as [|job jobs (r & evs & Hrun & Hshape)].
  - exists (Ok []), []. split; [|by intros ? [= <-]].
    intros s ev. cbn. by rewrite app_nil_r.
  - destruct (count_job_frame job v) as (r1 & evs1 & Hrun1 & Hshape1).
    destruct r1 as [job'|e].
    + destruct r as [jobs'|e].
      * exists (Ok (job' :: jobs')), (evs1 ++ evs). split.
        -- intros s ev. cbn [mapSeries]. unfold mbind, M_bind.
           rewrite Hrun1, Hrun. cbn. by rewrite <- app_assoc.
        -- intros ? [= <-]. rewrite !fmap_cons.
           by rewrite (Hshape1 job' eq_refl), (Hshape jobs' eq_refl).
      * exists (Throw e), (evs1 ++ evs). split; [|done].
        intros s ev. cbn [mapSeries]. unfold mbind, M_bind.
        rewrite Hrun1, Hrun. by rewrite <- app_assoc.
    + exists (Throw e), evs1. split; [|done].
      intros s ev. cbn [mapSeries]. unfold mbind, M_bind. by rewrite Hrun1.
Qed.

(** Enrichment touches neither the store nor the module variables, and
    returns the jobs it was given, with their counts. *)
Lemma addCountToJobs_frame jobs v :
  exists r evs,
    (forall s ev,
       App.addCountToJobs jobs (mkSt v s ev) = (r, mkSt v s (ev ++ evs)))
    /\ (forall jobs', r = Ok jobs' -> target_of <$> jobs' = target_of <$> jobs).
Proof.
  destruct (mapSeries_count_frame jobs v) as (r & evs & Hrun & Hshape).
  exists r, (LogInfo "counting docs in existing indices" :: evs).
  split; [|done]. intros s ev. unfold App.addCountToJobs.
  unfold mbind, M_bind, emit. cbn [vars store events]. rewrite Hrun.
  by rewrite <- app_assoc.
Qed.

(** Queueing one plain job on a sound backlog. *)
Lemma queueJob_params_effect p st :
  backlog_ok (store st) ->
  match Job_new p with
  | Throw e => App.queueJob (IsParams p) st = (Throw e, st)
  | Ok j =>
      exists r st1,
        App.queueJob (IsParams p) st = (Ok r, st1)
        /\ backlog_ok (store st1)
        /\ completed (store st1) = completed (store st)
        /\ vars st1 = vars st
        /\ (forall id, id ∈ backlog_queue (store st1)
                       <-> id ∈ backlog_queue (store st) \/ id = getID j)
  end.
Proof.
  intros Hok. destruct (Job_new p) as [j|e] eqn:Hnew;
    [|by apply queueJob_rejected].
  destruct (queueJob_backlog_ok (IsParams p) st eq_refl Hok) as [Hok1 Hledger].
  unfold after in Hok1, Hledger.
  destruct (backlog_hset (store st) !! getID j) as [old|] eqn:Hold.
  - rewrite (queueJob_present st (IsParams p) j old Hnew Hold) in *.
    eexists _, _. split; [done|]. split; [exact Hok1|].
    split; [done|]. split; [done|]. intros id. cbn. split; [by left|].
    intros [?| ->]; [done|]. destruct Hok as (_ & Hiff & _).
    apply Hiff. eauto.
  - rewrite (queueJob_fresh st (IsParams p) j Hnew Hold) in *.
    eexists _, _. split; [done|]. split; [exact Hok1|].
    split; [done|]. split; [done|]. intros id. cbn.
    by rewrite elem_of_app, list_elem_of_singleton.
Qed.

Lemma mapSeries_cons {V A B} (f : A -> M V B) x xs st :
  mapSeries f (x :: xs) st
  = match f x st with
    | (Ok y, st1) =>
        match mapSeries f xs st1 with
        | (Ok ys, st') => (Ok (y :: ys), st')
        | (Throw e, st') => (Throw e, st')
        end
    | (Throw e, st1) => (Throw e, st1)
    end.
Proof.
  cbn [mapSeries]. unfold mbind, M_bind.
  destruct (f x st) as [[y|e] st1]; [|done].
  by destruct (mapSeries f xs st1) as [[ys|e] st'].
Qed.

Lemma mapSeries_queueJob jobs st :
  backlog_ok (store st) ->
  let r := fst (mapSeries (fun job => App.queueJob (IsParams job)) jobs st) in
  let st' := snd (mapSeries (fun job => App.queueJob (IsParams job)) jobs st) in
  backlog_ok (store st')
  /\ completed (store st') = completed (store st)
  /\ vars st' = vars st
  /\ (forall id, id ∈ backlog_queue (store st) -> id ∈ backlog_queue (store st'))
  /\ (forall id, id ∈ backlog_queue (store st') ->
        id ∈ backlog_queue (store st)
        \/ exists p j, p ∈ jobs /\ Job_new p = Ok j /\ getID j = id)
  /\ (forall x, r = Ok x ->
        forall p, p ∈ jobs ->
          exists j, Job_new p = Ok j /\ getID j ∈ backlog_queue (store st')).
Proof.
  revert st. induction jobs as [|p jobs IH]; intros st Hok; cbv zeta.
  - cbn. split; [done|]. split; [done|]. split; [done|]. split; [done|].
    split; [by left|]. by intros ? _ ? ?%elem_of_nil.
  - rewrite mapSeries_cons.
    pose proof (queueJob_params_effect p st Hok) as Hq.
    destruct (Job_new p) as [j|e] eqn:Hnew.
    + destruct Hq as (r1 & st1 & -> & Hok1 & Hledger1 & Hvars1 & Hqueue1).
      specialize (IH st1 Hok1). cbv zeta in IH.
      destruct IH as (Hok' & Hledger' & Hvars' & Hmono & Hfrom & Hall).
      destruct (mapSeries _ jobs st1) as [[ys|e] st'] eqn:Hrest; cbn in *.
      * split; [done|]. split; [congruence|]. split; [congruence|].
        split; [intros id Hin; apply Hmono, Hqueue1; by left|]. split.
        -- intros id [Hin|(p' & j' & Hp' & Hj' & Hid)]%Hfrom.
           ++ apply Hqueue1 in Hin as [?| ->]; [by left|].
              right. exists p, j. split; [by left|done].
           ++ right. exists p', j'. split; [by right|done].
        -- intros x _ p' [->|Hp']%elem_of_cons.
           ++ exists j. split; [done|]. apply Hmono, Hqueue1. by right.
           ++ by apply (Hall ys).
      * split; [done|]. split; [congruence|]. split; [congruence|].
        split; [intros id Hin; apply Hmono, Hqueue1; by left|]. split; [|done].
        intros id [Hin|(p' & j' & Hp' & Hj' & Hid)]%Hfrom.
        -- apply Hqueue1 in Hin as [?| ->]; [by left|].
           right. exists p, j. split; [by left|done].
        -- right. exists p', j'. split; [by right|done].
    + rewrite Hq. cbn. split; [done|]. split; [done|]. split; [done|].
      split; [done|]. split; [by left|done].
Qed.

(** [initialize], stage by stage: what it resolves with and the store it
    leaves, whatever stage fails. *)
Lemma initialize_stages names (ignoreCompleted : bool) st :
  let ledger := completed (store st) in
  let ledger' := if ignoreCompleted then ∅ else ledger in
  let r := fst (App.initialize names ignoreCompleted st) in
  let final := after (App.initialize names ignoreCompleted) st in
  match fst (App.prepareNewJobs names st) with
  | Throw e => r = Throw e /\ store final = mkStore [] ∅ ledger
  | Ok prepared =>
      match reconcile ignoreCompleted ledger prepared with
      | Throw e => r = Throw e /\ store final = mkStore [] ∅ ledger
      | Ok remaining =>
          match fst (App.addCountToJobs remaining st) with
          | Throw e => r = Throw e /\ store final = mkStore [] ∅ ledger'
          | Ok jobs =>
              target_of <$> jobs = target_of <$> remaining
              /\ exists ev,
                   let queueing := mkSt (vars st) (mkStore [] ∅ ledger') ev in
                   r = fst (each enqueue jobs queueing)
                   /\ final = after (each enqueue jobs) queueing
          end
      end
  end.
Proof.
  destruct st as [v [q h ledger] ev]. cbv zeta. cbn [store completed vars].
  destruct (prepareNewJobs_frame names v) as (rp & evp & Hprep).
  unfold after, App.initialize, App.clearBacklogJobs, App.clearCompletedJobs,
    App.getCompletedJobs.
  run_chain. rewrite !Hprep. cbn [fst snd]. run_chain.
  destruct rp as [prepared|e]; [|done].
  destruct ignoreCompleted; unfold reconcile; run_chain.
  - destruct (addCountToJobs_frame prepared v) as (rc & evc & Hcount & Hshape).
    rewrite !Hcount. cbn [fst snd].
    destruct rc as [jobs|e]; [|done].
    split; [by apply Hshape|]. eexists. split; reflexivity.
  - destruct (jobs_of_entries (map_to_list ledger)) as [completed|e]; [|done].
    run_chain.
    set (remaining := List.filter _ prepared).
    destruct (addCountToJobs_frame remaining v) as (rc & evc & Hcount & Hshape).
    rewrite !Hcount. cbn [fst snd].
    destruct rc as [jobs|e]; [|done].
    split; [by apply Hshape|]. eexists. split; reflexivity.
Qed.

Lemma find_index_completed completed name :
  find_index (JSON_parse <$> completed) name = true
  <-> exists job, job ∈ completed /\ index job = name.
Proof.
  unfold find_index. rewrite existsb_exists. split.
  - intros (o & Hin & Heq%String.eqb_eq).
    apply list_elem_of_In, list_elem_of_fmap in Hin as (job & -> & Hjob).
    by exists job.
  - intros (job & Hjob & <-). exists (JSON_parse job). split.
    + apply list_elem_of_In, list_elem_of_fmap. by exists job.
    + by apply String.eqb_eq.
Qed.

Lemma jobs_of_entries_mem entries completed id reply job :
  jobs_of_entries entries = Ok completed ->
  (id, reply) ∈ entries ->
  createFromID id (Some reply) = Ok job ->
  job ∈ completed.
Proof.
  revert completed. induction entries as [|[id' c'] entries IH];
    intros completed Hjobs Hin Hjob; [by apply elem_of_nil in Hin|].
  cbn [jobs_of_entries] in Hjobs.
  destruct (createFromID id' (Some c')) as [j'|] eqn:Hj'; [|done].
  destruct (jobs_of_entries entries) as [rest|]; [|done].
  injection Hjobs as <-.
  apply elem_of_cons in Hin as [[= -> ->]|Hin].
  - rewrite Hjob in Hj'. injection Hj' as ->. by left.
  - right. by apply IH.
Qed.

Lemma each_enqueue jobs st :
  fst (each enqueue jobs st)
  = match fst (mapSeries enqueue jobs st) with
    | Ok _ => Ok jobs
    | Throw e => Throw e
    end
  /\ after (each enqueue jobs) st = snd (mapSeries enqueue jobs st).
Proof.
  unfold each, after, mbind, M_bind.
  by destruct (mapSeries enqueue jobs st) as [[ys|e] st'].
Qed.

(** The queue that [initialize] leaves, in [src/app/manager.js]. *)
Lemma initialize_queue names (ignoreCompleted : bool) st :
  let final := after (App.initialize names ignoreCompleted) st in
  let ledger := completed (store st) in
  backlog_ok (store final)
  /\ completed (store final) = (if ignoreCompleted then
                                   match fst (App.prepareNewJobs names st) with
                                   | Ok _ => ∅
                                   | Throw _ => ledger
                                   end
                                 else ledger)
  /\ (forall id, id ∈ backlog_queue (store final) ->
        exists prepared remaining p job,
          fst (App.prepareNewJobs names st) = Ok prepared
          /\ reconcile ignoreCompleted ledger prepared = Ok remaining
          /\ p ∈ remaining
          /\ Job_wf job = true
          /\ index job = params_index p /\ type job = params_type p
          /\ getID job = id)
  /\ (forall jobs,
        fst (App.initialize names ignoreCompleted st) = Ok jobs ->
        exists prepared remaining,
          fst (App.prepareNewJobs names st) = Ok prepared
          /\ reconcile ignoreCompleted ledger prepared = Ok remaining
          /\ target_of <$> jobs = target_of <$> remaining
          /\ forall p, p ∈ remaining ->
               exists job,
                 Job_wf job = true
                 /\ index job = params_index p /\ type job = params_type p
                 /\ getID job ∈ backlog_queue (store final)).
Proof.
  cbv zeta. pose proof (initialize_stages names ignoreCompleted st) as Hst.
  cbv zeta in Hst.
  destruct (fst (App.prepareNewJobs names st)) as [prepared|e] eqn:Hprep.
  2: { destruct Hst as [Hr Hfinal]. rewrite Hr, Hfinal. cbn. split; [apply backlog_ok_cleared|].
       split; [by destruct ignoreCompleted|].
       split; [by intros id ?%elem_of_nil | done]. }
  destruct (reconcile ignoreCompleted (completed (store st)) prepared)
    as [remaining|e] eqn:Hrec.
  2: { destruct Hst as [Hr Hfinal]. rewrite Hr, Hfinal. cbn. split; [apply backlog_ok_cleared|].
       split; [|split; [by intros id ?%elem_of_nil | done]].
       destruct ignoreCompleted; [done|done]. }
  destruct (fst (App.addCountToJobs remaining st)) as [jobs|e] eqn:Hcount.
  2: { destruct Hst as [Hr Hfinal]. rewrite Hr, Hfinal. cbn. split; [apply backlog_ok_cleared|].
       split; [by destruct ignoreCompleted|].
       split; [by intros id ?%elem_of_nil | done]. }
  destruct Hst as (Hshape & ev & Hr & Hfinal). rewrite Hr, Hfinal.
  set (queueing := mkSt (vars st) _ ev).
  destruct (each_enqueue jobs queueing) as [Heach Hafter].
  rewrite Heach, Hafter.
  pose proof (mapSeries_queueJob jobs queueing (backlog_ok_cleared _))
    as (Hok & Hledger & _ & _ & Hfrom & Hall).
  fold enqueue in Hok, Hledger, Hfrom, Hall.
  assert (forall p', p' ∈ jobs -> exists p, p ∈ remaining
                                   /\ target_of p' = target_of p) as Hback.
  { intros p' Hp'. apply (list_elem_of_fmap_2 target_of) in Hp'.
    rewrite Hshape in Hp'. apply list_elem_of_fmap in Hp' as (p & ? & ?).
    eauto. }
  assert (forall p, p ∈ remaining -> exists p', p' ∈ jobs
                                   /\ target_of p' = target_of p) as Hforth.
  { intros p Hp. apply (list_elem_of_fmap_2 target_of) in Hp.
    rewrite <- Hshape in Hp. apply list_elem_of_fmap in Hp as (p' & ? & ?).
    eauto. }
  split; [done|]. split; [rewrite Hledger; by destruct ignoreCompleted|].
  split.
  - intros id [Hin|(p' & j & Hp' & Hj & <-)]%Hfrom;
      [by apply elem_of_nil in Hin|].
    destruct (Hback p' Hp') as (p & Hp & [= Hi Ht]).
    apply Job_new_ok in Hj as [-> Hwf].
    exists prepared, remaining, p, (mkJob (params_index p') (params_type p')
                                          (default (Num 0) (params_count p'))).
    by rewrite <- Hi, <- Ht.
  - intros jobs'. destruct (fst (mapSeries enqueue jobs queueing)) as [ys|e]
      eqn:Hmap; [|done].
    intros [= <-]. exists prepared, remaining. split; [done|]. split; [done|].
    split; [done|]. intros p Hp.
    destruct (Hforth p Hp) as (p' & Hp' & [= Hi Ht]).
    destruct (Hall ys eq_refl p' Hp') as (j & Hj & Hin).
    apply Job_new_ok in Hj as [-> Hwf]. eexists. split; [exact Hwf|].
    cbn [index type]. split; [exact Hi|]. split; [exact Ht|]. exact Hin.
Qed.

(** * [part_000] simulates [manager.js] *)

Lemma sim_ret {A} (a : A) : simulates (mret a) (mret a).
Proof. by intros sta stp Hrel. Qed.

Lemma sim_throw {A} e : simulates (@throw _ A e) (throw e).
Proof. by intros sta stp Hrel. Qed.

Lemma sim_lift_result {A} (r : Result A) :
  simulates (lift_result r) (lift_result r).
Proof. by intros sta stp Hrel. Qed.

Lemma sim_emit e : simulates (emit e) (emit e).
Proof. by intros sta stp Hrel. Qed.

Lemma sim_redis {A} (cmd : Store -> A * Store) :
  simulates (redis cmd) (redis cmd).
Proof.
  intros sta stp [Hstore Hvars]. unfold redis. rewrite Hstore.
  by destruct (cmd (store stp)).
Qed.

Lemma sim_bind {A B} m m' (k : A -> M App.ModVars B) k' :
  simulates m m' -> (forall a, simulates (k a) (k' a)) ->
  simulates (m ≫= k) (m' ≫= k').
Proof.
  intros Hm Hk sta stp Hrel. unfold mbind, M_bind.
  destruct (Hm sta stp Hrel) as [Hr Hrel'].
  destruct (m sta) as [[a|e] sta'], (m' stp) as [[a'|e'] stp'];
    cbn in Hr, Hrel'; try done.
  - injection Hr as <-. by apply Hk.
  - injection Hr as <-. by split.
Qed.

Lemma sim_mapSeries {A B} (f : A -> M App.ModVars B) g xs :
  (forall x, simulates (f x) (g x)) ->
  simulates (mapSeries f xs) (mapSeries g xs).
Proof.
  intros Hfg. induction xs as [|x xs IH]; [apply sim_ret|].
  cbn [mapSeries]. apply sim_bind; [done|]. intros y.
  apply sim_bind; [done|]. intros ys. apply sim_ret.
Qed.

Lemma sim_each {A B} (f : A -> M App.ModVars B) g xs :
  (forall x, simulates (f x) (g x)) -> simulates (each f xs) (each g xs).
Proof.
  intros Hfg. unfold each. apply sim_bind; [by apply sim_mapSeries|].
  intros _. apply sim_ret.
Qed.

Lemma sim_queueJob job :
  Part000.falsy job = false ->
  simulates (App.queueJob job) (Part000.queueJob job).
Proof.
  intros Hjob. unfold App.queueJob, Part000.queueJob. rewrite Hjob.
  apply sim_bind; [apply sim_lift_result|]. intros j.
  apply sim_bind; [apply sim_redis|]. intros numberAdded.
  destruct (numberAdded =? 0).
  - apply sim_bind; [apply sim_emit|]. intros _. apply sim_ret.
  - apply sim_bind; [apply sim_redis|]. intros len. apply sim_ret.
Qed.

Lemma sim_clearBacklogJobs :
  simulates App.clearBacklogJobs Part000.clearBacklogJobs.
Proof.
  unfold App.clearBacklogJobs, Part000.clearBacklogJobs.
  apply sim_bind; [apply sim_emit|]. intros _.
  apply sim_bind; [apply sim_redis|]. intros _. apply sim_redis.
Qed.

Lemma sim_getCompletedJobs :
  simulates App.getCompletedJobs Part000.getCompletedJobs.
Proof.
  unfold App.getCompletedJobs, Part000.getCompletedJobs.
  apply sim_bind; [apply sim_redis|]. intros entries. apply sim_lift_result.
Qed.

Lemma sim_count_job job : simulates (App.count_job job) (Part000.count_job job).
Proof.
  intros sta stp [Hstore Hvars].
  unfold App.count_job, Part000.count_job, ask_count. run_chain.
  rewrite Hvars. cbn [app_vars_of App.source].
  destruct (Part000.source (vars stp)) as [src|]; [|done]. run_chain.
  destruct (source_count src _ _); run_chain; [|done].
  split; [done|]. split; [done|]. cbn. by rewrite Hvars.
Qed.

Lemma sim_addCountToJobs jobs :
  simulates (App.addCountToJobs jobs) (Part000.addCountToJobs jobs).
Proof.
  unfold App.addCountToJobs, Part000.addCountToJobs.
  apply sim_bind; [apply sim_emit|]. intros _.
  apply sim_mapSeries, sim_count_job.
Qed.

Lemma sim_getIndices client names :
  simulates (App.getIndices client names) (Part000.getIndices client names).
Proof.
  unfold App.getIndices, Part000.getIndices.
  destruct client as [src|]; [|apply sim_throw].
  apply sim_bind; [apply sim_emit|]. intros _.
  apply sim_bind; [apply sim_lift_result|]. intros response. apply sim_ret.
Qed.

Lemma sim_filterIndicesAndTypes allIndices :
  simulates (App.filterIndicesAndTypes allIndices)
            (Part000.filterIndicesAndTypes allIndices).
Proof.
  intros sta stp [Hstore Hvars].
  rewrite filterIndicesAndTypes_run, filterIndicesAndTypes_000_run.
  by rewrite Hvars.
Qed.

Lemma sim_get_vars {A} (k : App.ModVars -> M App.ModVars A) k' :
  (forall vp, simulates (k (app_vars_of vp)) (k' vp)) ->
  simulates (get_vars ≫= k) (get_vars ≫= k').
Proof.
  intros Hk sta stp Hrel. unfold mbind, M_bind, get_vars.
  destruct Hrel as [Hstore Hvars]. rewrite Hvars. by apply Hk.
Qed.

(** The log line that only [manager.js] writes changes nothing else. *)
Lemma sim_emit_left {A} e (m : M App.ModVars A) m' :
  simulates m m' -> simulates (emit e ≫= fun _ => m) m'.
Proof.
  intros Hm sta stp [Hstore Hvars]. unfold mbind, M_bind, emit.
  by apply Hm.
Qed.

Lemma sim_prepareNewJobs names :
  simulates (App.prepareNewJobs names) (Part000.prepareNewJobs names).
Proof.
  unfold App.prepareNewJobs, Part000.prepareNewJobs.
  apply sim_bind; [apply sim_emit|]. intros _.
  apply sim_get_vars. intros vp.
  apply sim_bind; [apply sim_getIndices|]. intros allIndices.
  apply sim_bind; [apply sim_filterIndicesAndTypes|]. intros filteredTargets.
  apply sim_get_vars. intros vp'. apply sim_ret.
Qed.

Lemma sim_initialize names ignoreCompleted :
  simulates (App.initialize names ignoreCompleted)
            (Part000.initialize names ignoreCompleted).
Proof.
  unfold App.initialize, Part000.initialize. apply sim_emit_left.
  apply sim_bind; [apply sim_clearBacklogJobs|]. intros _.
  apply sim_bind; [apply sim_prepareNewJobs|]. intros potentialJobs.
  apply sim_bind.
  { destruct ignoreCompleted.
    - apply sim_bind; [apply sim_redis|]. intros _. apply sim_ret.
    - apply sim_bind; [apply sim_getCompletedJobs|]. intros completed.
      apply sim_ret. }
  intros remaining. apply sim_bind; [apply sim_addCountToJobs|]. intros jobs.
  apply sim_bind; [apply sim_emit|]. intros _.
  apply sim_each. intros job. by apply sim_queueJob.
Qed.

(** * Reconciling with the completed ledger *)

Lemma initialize_app_reconciles names (st : St App.ModVars) :
  reconciles (completed (store st)) (fst (App.prepareNewJobs names st))
             (store (after (App.initialize names false) st))
             (store (after (App.initialize names true) st))
             (fst (App.initialize names true st)).
Proof.
  pose proof (initialize_queue names false st) as (_ & Hledger & Hfrom & _).
  pose proof (initialize_queue names true st) as (_ & Hledger' & Hfrom' & Hall').
  cbv zeta in *. split; [|split; [done|]].
  - intros id (prepared & remaining & p & job & _ & Hrec & Hp & Hwf & Hi & _ & Hid)
      %Hfrom.
    exists job. split; [done|]. split; [done|].
    intros done_id done_count done_job Hdone Hjob Heq.
    unfold reconcile in Hrec.
    destruct (jobs_of_entries (map_to_list (completed (store st))))
      as [completed|] eqn:Hentries; [|done].
    injection Hrec as <-.
    apply list_elem_of_In, filter_In in Hp as [_ Hkeep].
    apply negb_true_iff, not_true_iff_false in Hkeep. apply Hkeep.
    apply find_index_completed. exists done_job. split; [|congruence].
    apply (jobs_of_entries_mem _ _ done_id done_count _ Hentries); [|done].
    by apply elem_of_map_to_list.
  - intros prepared Hprep. rewrite Hprep in *. split; [done|]. split.
    + intros id (prepared' & remaining & p & job & [= <-] & [= <-] & Hrest)
        %Hfrom'.
      exists p, job. tauto.
    + intros jobs (prepared' & remaining & [= <-] & [= <-] & Hrest)%Hall'.
      done.
Qed.

(** ** When the source answers, [initialize] resolves *)

Lemma prepareNewJobs_ok names v src response s ev :
  App.source v = Some src ->
  source_indices_get src names = Ok response ->
  App.prepareNewJobs names (mkSt v s ev)
  = (Ok (prepared_jobs v response),
     mkSt v s (ev ++ [LogInfo "preparing new jobs"; RequestIndices names])).
Proof.
  intros Hsrc Hget. unfold App.prepareNewJobs, App.getIndices. run_chain.
  rewrite Hsrc. run_chain. rewrite Hget. run_chain.
  rewrite filterIndicesAndTypes_run. run_chain.
  by rewrite <- app_assoc.
Qed.

Lemma answered_values src jobs :
  Forall (fun job => exists v, answers src job v) jobs ->
  exists values, Forall2 (answers src) jobs values.
Proof.
  induction 1 as [|job jobs [v Hv] _ [values IH]].
  - exists []. constructor.
  - exists (v :: values). by constructor.
Qed.

Lemma target_of_counted jobs values :
  Forall2 (fun _ _ => True) jobs values ->
  target_of <$> zip_with counted jobs values = target_of <$> jobs.
Proof.
  induction 1 as [|job v jobs values _ _ IH]; [done|].
  cbn. by rewrite IH.
Qed.

(** Plain jobs whose names make an id are all queued. *)
Lemma mapSeries_enqueue_resolves jobs st :
  backlog_ok (store st) ->
  Forall (fun p => has_separator (params_index p) = false
                   /\ has_separator (params_type p) = false) jobs ->
  exists replies, fst (mapSeries enqueue jobs st) = Ok replies.
Proof.
  intros Hok Hjobs. revert st Hok.
  induction Hjobs as [|p jobs [Hi Ht] _ IH]; intros st Hok; [by exists []|].
  rewrite mapSeries_cons. unfold enqueue at 1.
  pose proof (queueJob_params_effect p st Hok) as Hq.
  unfold Job_new in Hq. rewrite Hi, Ht in Hq. cbn [orb] in Hq.
  destruct Hq as (r & st1 & -> & Hok1 & _).
  destruct (IH st1 Hok1) as (replies & Hrest).
  destruct (mapSeries enqueue jobs st1) as [[ys|e] st']; [|done].
  by eexists.
Qed.

Lemma params_id_target p q : target_of p = target_of q -> params_id p = params_id q.
Proof. unfold target_of, params_id. by intros [= -> ->]. Qed.

Lemma params_ids_targets (ps qs : list JobParams) :
  target_of <$> ps = target_of <$> qs -> params_id <$> ps = params_id <$> qs.
Proof.
  revert qs. induction ps as [|p ps IH]; intros [|q qs]; try done.
  rewrite !fmap_cons. intros Heq. injection Heq as Hi Ht Hrest.
  f_equal; [unfold params_id; by rewrite Hi, Ht | by apply IH].
Qed.

Lemma getID_params job p :
  index job = params_index p -> type job = params_type p ->
  getID job = params_id p.
Proof. unfold getID, params_id. by intros -> ->. Qed.

Lemma jobs_of_entries_elem entries jobs j :
  jobs_of_entries entries = Ok jobs -> j ∈ jobs ->
  exists id reply, (id, reply) ∈ entries /\ createFromID id (Some reply) = Ok j.
Proof.
  revert jobs. induction entries as [|[id c] entries IH]; intros jobs Hjobs Hj.
  - injection Hjobs as <-. by apply elem_of_nil in Hj.
  - cbn [jobs_of_entries] in Hjobs.
    destruct (createFromID id (Some c)) as [j'|] eqn:Hj'; [|done].
    destruct (jobs_of_entries entries) as [rest|]; [|done].
    injection Hjobs as <-. apply elem_of_cons in Hj as [->|Hj].
    + exists id, c. split; [by left|done].
    + destruct (IH rest eq_refl Hj) as (id' & c' & Hin & Hcreate).
      exists id', c'. split; [by right|done].
Qed.

(** The jobs that the reconciliation keeps. *)
Lemma reconcile_keeps ledger prepared :
  hash_ok ledger ->
  exists remaining,
    reconcile false ledger prepared = Ok remaining
    /\ forall p, p ∈ remaining
                 <-> p ∈ prepared /\ ~ completed_index ledger (params_index p).
Proof.
  intros Hok. unfold reconcile.
  destruct (jobs_of_entries_ok (map_to_list ledger)) as (completed & Hjobs & _);
    [by apply hash_entries_ok|].
  rewrite Hjobs. eexists. split; [done|]. intros p.
  rewrite list_elem_of_In, filter_In, <- list_elem_of_In.
  rewrite negb_true_iff, <- not_true_iff_false, find_index_completed.
  split; intros [Hp Hnot]; (split; [done|]); intros Hdone; apply Hnot.
  - destruct Hdone as (id & c & job & Hid & Hjob & Hindex).
    exists job. split; [|done].
    apply (jobs_of_entries_mem _ _ id c _ Hjobs); [|done].
    by apply elem_of_map_to_list.
  - destruct Hdone as (job & Hin & Hindex).
    destruct (jobs_of_entries_elem _ _ _ Hjobs Hin) as (id & c & Hentry & Hjob).
    exists id, c, job. split; [by apply elem_of_map_to_list|done].
Qed.

(** [initialize] resolves once the jobs are prepared, the ledger is read
    and every job that remains can be counted. *)
Lemma initialize_resolves names (ignoreCompleted : bool) st src prepared
    remaining :
  App.source (vars st) = Some src ->
  fst (App.prepareNewJobs names st) = Ok prepared ->
  reconcile ignoreCompleted (completed (store st)) prepared = Ok remaining ->
  Forall (countable src) remaining ->
  let final := after (App.initialize names ignoreCompleted) st in
  exists jobs,
    fst (App.initialize names ignoreCompleted st) = Ok jobs
    /\ target_of <$> jobs = target_of <$> remaining
    /\ completed (store final)
       = (if ignoreCompleted then ∅ else completed (store st))
    /\ forall id, id ∈ backlog_queue (store final)
                  <-> id ∈ params_id <$> remaining.
Proof.
  intros Hsrc Hprep Hrec Hcount final.
  pose proof (initialize_stages names ignoreCompleted st) as Hst.
  cbv zeta in Hst. rewrite Hprep, Hrec in Hst.
  destruct (answered_values src remaining) as (values & Hvalues).
  { eapply Forall_impl; [exact Hcount|]. by intros p [? _]. }
  assert (App.addCountToJobs remaining st
          = (Ok (zip_with counted remaining values),
             mkSt (vars st) (store st)
                  (events st ++ LogInfo "counting docs in existing indices"
                             :: one_at_a_time remaining))) as Hadd.
  { unfold App.addCountToJobs, mbind, M_bind, emit. cbn [vars store events].
    rewrite (mapSeries_count_ok src remaining values) by done.
    cbn [vars store events]. by rewrite <- app_assoc. }
  rewrite Hadd in Hst. cbn [fst] in Hst.
  destruct Hst as (Hshape & ev & Hres & Hfinal).
  set (jobs := zip_with counted remaining values) in *.
  set (queueing := mkSt (vars st) _ ev) in *.
  destruct (each_enqueue jobs queueing) as [Heach Hafter].
  destruct (mapSeries_enqueue_resolves jobs queueing (backlog_ok_cleared _))
    as (replies & Hreplies).
  { apply Forall_forall. intros p' Hp'.
    apply (list_elem_of_fmap_2 target_of) in Hp'. rewrite Hshape in Hp'.
    apply list_elem_of_fmap in Hp' as (p & [= Hi Ht] & Hp).
    rewrite Forall_forall in Hcount. destruct (Hcount p Hp) as (_ & ? & ?).
    by rewrite Hi, Ht. }
  rewrite Hreplies in Heach. rewrite Heach in Hres.
  exists jobs. split; [done|]. split; [done|].
  pose proof (initialize_queue names ignoreCompleted st)
    as (_ & Hledger & Hfrom & Hall).
  cbv zeta in Hledger, Hfrom, Hall. rewrite Hprep in Hledger.
  fold final in Hledger, Hfrom, Hall. split; [done|].
  intros id. rewrite list_elem_of_fmap. split.
  - intros (prepared' & remaining' & p & job & Hprep' & Hrec' & Hp & _ & Hi & Ht
            & <-)%Hfrom.
    rewrite Hprep in Hprep'. injection Hprep' as <-.
    rewrite Hrec in Hrec'. injection Hrec' as <-.
    exists p. split; [by apply getID_params|done].
  - intros (p & -> & Hp).
    destruct (Hall jobs Hres)
      as (prepared' & remaining' & Hprep' & Hrec' & _ & Hin).
    rewrite Hprep in Hprep'. injection Hprep' as <-.
    rewrite Hrec in Hrec'. injection Hrec' as <-.
    destruct (Hin p Hp) as (job & _ & Hi & Ht & Hqueued).
    by rewrite <- (getID_params job p Hi Ht).
Qed.

Lemma initialize_app_enqueues names (st : St App.ModVars) src response :
  App.source (vars st) = Some src ->
  source_indices_get src names = Ok response ->
  Forall (countable src) (prepared_jobs (vars st) response) ->
  enqueues (completed (store st)) (prepared_jobs (vars st) response)
           (fst (App.initialize names true st))
           (store (after (App.initialize names true) st))
           (fst (App.initialize names false st))
           (store (after (App.initialize names false) st)).
Proof.
  intros Hsrc Hget Hcount.
  set (prepared := prepared_jobs (vars st) response) in *.
  assert (fst (App.prepareNewJobs names st) = Ok prepared) as Hprep.
  { destruct st as [v s ev]. by rewrite (prepareNewJobs_ok names v src response). }
  split.
  - destruct (initialize_resolves names true st src prepared prepared)
      as (jobs & Hjobs); try done.
    by exists jobs.
  - intros Hledger.
    destruct (reconcile_keeps (completed (store st)) prepared Hledger)
      as (remaining & Hrec & Hkeeps).
    destruct (initialize_resolves names false st src prepared remaining)
      as (jobs & Hjobs & Hshape & Hkept & Hqueue); try done.
    { apply Forall_forall. intros p Hp. rewrite Forall_forall in Hcount.
      by apply Hcount, Hkeeps. }
    by exists jobs, remaining.
Qed.

(** Claim C4.  Completed-work reconciliation in [initialize]:
    [initialize(names, false)] enqueues no job whose index name is the index
    of an entry of the Completed Ledger, whatever the sub-collection, and
    leaves the ledger as it is; [initialize(names, true)] clears the ledger
    once the jobs are prepared and enqueues the prepared, filtered jobs,
    whatever the ledger held.  When the source lists the indices and
    counts every prepared job, both calls resolve: [initialize(names, true)]
    with all the prepared jobs, whose ids are then the queue, and
    [initialize(names, false)] with those whose index is not the index of
    an entry of the ledger, whose ids are then the queue.  Both managers. *)
Theorem initialize_reconciles_completed
    (names : string) (st : St App.ModVars) (stp : St Part000.ModVars) :
  reconciles (completed (store st)) (fst (App.prepareNewJobs names st))
             (store (after (App.initialize names false) st))
             (store (after (App.initialize names true) st))
             (fst (App.initialize names true st))
  /\ reconciles (completed (store stp))
                (fst (Part000.prepareNewJobs names stp))
                (store (after (Part000.initialize names false) stp))
                (store (after (Part000.initialize names true) stp))
                (fst (Part000.initialize names true stp))
  /\ (forall src response,
        App.source (vars st) = Some src ->
        source_indices_get src names = Ok response ->
        Forall (countable src) (prepared_jobs (vars st) response) ->
        enqueues (completed (store st)) (prepared_jobs (vars st) response)
                 (fst (App.initialize names true st))
                 (store (after (App.initialize names true) st))
                 (fst (App.initialize names false st))
                 (store (after (App.initialize names false) st)))
  /\ (forall src response,
        Part000.source (vars stp) = Some src ->
        source_indices_get src names = Ok response ->
        Forall (countable src)
               (prepared_jobs (app_vars_of (vars stp)) response) ->
        enqueues (completed (store stp))
                 (prepared_jobs (app_vars_of (vars stp)) response)
                 (fst (Part000.initialize names true stp))
                 (store (after (Part000.initialize names true) stp))
                 (fst (Part000.initialize names false stp))
                 (store (after (Part000.initialize names false) stp))).
Proof.
  split; [apply initialize_app_reconciles|].
  set (sta := mkSt (app_vars_of (vars stp)) (store stp) []).
  assert (related sta stp) as Hrel by done.
  unfold after.
  destruct (sim_prepareNewJobs names sta stp Hrel) as [<- _].
  destruct (sim_initialize names false sta stp Hrel) as [<- [<- _]].
  destruct (sim_initialize names true sta stp Hrel) as [<- [<- _]].
  split; [apply (initialize_app_reconciles names sta)|].
  split; [apply initialize_app_enqueues|].
  intros src response Hsrc Hget Hcount.
  by apply (initialize_app_enqueues names sta src response).
Qed.

(** The scenario of the specification: the source lists [A] and [B] and
    counts their three jobs, and the ledger holds [A:t1]. *)
Lemma initialize_reconciles_witness :
  let prepared := [params_B1; params_A1; params_A2] in
  Forall (countable sample_source) prepared
  /\ hash_ok (completed (store scenario_state))
  /\ enqueues (completed (store scenario_state)) prepared
              (fst (App.initialize "*" true scenario_state))
              (store (after (App.initialize "*" true) scenario_state))
              (fst (App.initialize "*" false scenario_state))
              (store (after (App.initialize "*" false) scenario_state)).
Proof.
  cbv zeta.
  assert (Forall (countable sample_source) [params_B1; params_A1; params_A2])
    as Hcount.
  { repeat constructor; by eexists. }
  assert (hash_ok (completed (store scenario_state))) as Hledger.
  { intros id [v Hv]. cbn in Hv.
    apply lookup_singleton_Some in Hv as [<- _]. by exists job_A1. }
  split; [exact Hcount|]. split; [exact Hledger|].
  exact (proj1 (proj2 (proj2
           (initialize_reconciles_completed "*" scenario_state sample_state_000)))
           sample_source
           [("A", mkIndexBody [("t1", "{}"); ("t2", "{}")]);
            ("B", mkIndexBody [("t1", "{}")])]
           eq_refl eq_refl Hcount).
Defined.

(** * Several managers in one process *)

Section SharedConfiguration.
Context `{Runtime}.
Import Instances.

Lemma Manager_positions src_a c_a src_b c_b w :
  let w1 := snd (Manager src_a c_a w) in
  let w2 := snd (Manager src_b c_b w1) in
  fst (Manager src_a c_a w) = length (instances w)
  /\ fst (Manager src_b c_b w1) = S (length (instances w))
  /\ instances w2 !! length (instances w) = Some (Manager_self src_a)
  /\ instances w2 !! S (length (instances w)) = Some (Manager_self src_b).
Proof.
  cbn. split; [done|]. split; [by rewrite length_app, Nat.add_1_r|]. split.
  - rewrite lookup_app_l by (rewrite length_app; cbn; lia).
    by rewrite list_lookup_middle.
  - rewrite (list_lookup_middle _ []); [done|].
    rewrite length_app. cbn. lia.
Qed.

(** A method called on an object that the constructor built is the
    function of the module, run on the module's variables of the moment:
    the object plays no part. *)
Lemma call_is_run {A} (field : Instance -> M App.ModVars A) self src w :
  instances w !! self = Some (Manager_self src) ->
  call self field w = run (field (Manager_self src)) w.
Proof. intros Hself. unfold call. by rewrite Hself. Qed.

Lemma run_on_client {A} (m : M App.ModVars A) c w :
  redis_var w = Some c ->
  run m w
  = (let st := mkSt (mod_vars w) (server_of w c) (log w) in
     (fst (m st),
      mkWorld (vars (snd (m st))) (Some c)
              (<[c := store (snd (m st))]> (servers w))
              (events (snd (m st))) (instances w))).
Proof.
  intros Hc. unfold run. rewrite Hc. cbv zeta.
  by destruct (m _) as [r st'].
Qed.

Lemma call_000_is_run {A} (field : Instances000.Instance -> M Part000.ModVars A)
    self src w :
  Instances000.instances w !! self = Some (Instances000.Manager_self src) ->
  Instances000.call self field w
  = Instances000.run (field (Instances000.Manager_self src)) w.
Proof. intros Hself. unfold Instances000.call. by rewrite Hself. Qed.

Lemma prepareNewJobs_000_ok names v src response s ev :
  Part000.source v = Some src ->
  source_indices_get src names = Ok response ->
  fst (Part000.prepareNewJobs names (mkSt v s ev))
  = Ok (prepared_jobs (app_vars_of v) response).
Proof.
  intros Hsrc Hget.
  destruct (sim_prepareNewJobs names (mkSt (app_vars_of v) s ev) (mkSt v s ev))
    as [<- _]; [done|].
  by rewrite (prepareNewJobs_ok names _ src response).
Qed.

(** Claim C9.  Cross-instance configuration interference in
    [src/app/manager.js]: the filters, the comparator, the source handle
    and the store handle are variables of the module, so for two managers
    [a] and [b] built by the constructor in one process, a filter or a
    comparator set through [b], and the source and store given when a
    further manager is constructed, are the ones the next operations of [a]
    use (last write wins); the [source] field each object keeps is not
    read. *)
Theorem configuration_is_shared_by_instances
    (w : World) (a b : nat) (src_a src_b : Source) (c : Client)
    (wp : Instances000.World) (a' b' : nat) (src_a' src_b' : Source) :
  instances w !! a = Some (Manager_self src_a) ->
  instances w !! b = Some (Manager_self src_b) ->
  redis_var w = Some c ->
  Instances000.instances wp !! a' = Some (Instances000.Manager_self src_a') ->
  Instances000.instances wp !! b' = Some (Instances000.Manager_self src_b') ->
  (* a filter set through b filters for a *)
  (forall f allIndices,
     (1 <= fn_length f)%nat ->
     let w' := snd (call b (fun o => self_setIndexFilter o (FilterFunction f)) w) in
     fst (call b (fun o => self_setIndexFilter o (FilterFunction f)) w) = Ok tt
     /\ fst (call a (fun o => self_filterIndicesAndTypes o allIndices) w')
        = Ok (kept_targets (Some f) (App.typeFilter (mod_vars w)) allIndices))
  /\ (forall g allIndices,
        (1 <= fn_length g)%nat ->
        let w' := snd (call b (fun o => self_setTypeFilter o (FilterFunction g)) w) in
        fst (call b (fun o => self_setTypeFilter o (FilterFunction g)) w) = Ok tt
        /\ fst (call a (fun o => self_filterIndicesAndTypes o allIndices) w')
           = Ok (kept_targets (App.indexFilter (mod_vars w)) (Some g) allIndices))
  (* a comparator set through b orders the jobs of a *)
  /\ (forall cmp names src response,
        cmp_length cmp = 2%nat ->
        App.source (mod_vars w) = Some src ->
        source_indices_get src names = Ok response ->
        let w' :=
          snd (call b (fun o => self_setIndexComparator o (ComparatorFunction cmp)) w) in
        fst (call a (fun o => self_prepareNewJobs o names) w')
        = Ok (prepared_jobs
                (App.mkVars (App.indexFilter (mod_vars w)) (Some cmp)
                            (App.typeFilter (mod_vars w)) (Some src))
                response))
  (* the source and the store of a manager constructed later are those a
     uses from then on *)
  /\ (forall src' c' names response job,
        source_indices_get src' names = Ok response ->
        let w' := snd (Manager src' c' w) in
        let st := mkSt (mod_vars w') (server_of w c') (log w) in
        (self_source <$> instances w' !! a) = Some src_a
        /\ fst (call a (fun o => self_prepareNewJobs o names) w')
           = Ok (prepared_jobs (mod_vars w') response)
        /\ App.source (mod_vars w') = Some src'
        /\ fst (call a (fun o => self_queueJob o job) w')
           = fst (App.queueJob job st)
        /\ servers (snd (call a (fun o => self_queueJob o job) w'))
           = <[c' := store (snd (App.queueJob job st))]> (servers w))
  (* part_000: the filters, the comparator and the source likewise; its
     store client is the module's import *)
  /\ (forall f allIndices,
        fn_length f = 1%nat ->
        let w' :=
          snd (Instances000.call b'
                 (fun o => Instances000.self_setIndexFilter o (FilterFunction f))
                 wp) in
        fst (Instances000.call a'
               (fun o => Instances000.self_filterIndicesAndTypes o allIndices) w')
        = Ok (kept_targets
                (Some f)
                (filter_function <$> Part000.typeFilter (Instances000.mod_vars wp))
                allIndices))
  /\ (forall g allIndices,
        fn_length g = 1%nat ->
        let w' :=
          snd (Instances000.call b'
                 (fun o => Instances000.self_setTypeFilter o (FilterFunction g))
                 wp) in
        fst (Instances000.call a'
               (fun o => Instances000.self_filterIndicesAndTypes o allIndices) w')
        = Ok (kept_targets
                (filter_function <$> Part000.indexFilter (Instances000.mod_vars wp))
                (Some g) allIndices))
  /\ (forall cmp names src response,
        cmp_length cmp = 2%nat ->
        Part000.source (Instances000.mod_vars wp) = Some src ->
        source_indices_get src names = Ok response ->
        let w' :=
          snd (Instances000.call b'
                 (fun o => Instances000.self_setIndexComparator o
                             (ComparatorFunction cmp))
                 wp) in
        fst (Instances000.call a'
               (fun o => Instances000.self_prepareNewJobs o names) w')
        = Ok (prepared_jobs
                (App.mkVars
                   (filter_function <$> Part000.indexFilter (Instances000.mod_vars wp))
                   (Some cmp)
                   (filter_function <$> Part000.typeFilter (Instances000.mod_vars wp))
                   (Some src))
                response))
  /\ (forall src' names response,
        source_indices_get src' names = Ok response ->
        let w' := snd (Instances000.Manager src' wp) in
        (Instances000.self_source <$> Instances000.instances w' !! a')
        = Some src_a'
        /\ Part000.source (Instances000.mod_vars w') = Some src'
        /\ fst (Instances000.call a'
                  (fun o => Instances000.self_prepareNewJobs o names) w')
           = Ok (prepared_jobs (app_vars_of (Instances000.mod_vars w')) response)
        /\ Instances000.server w' = Instances000.server wp).
Proof.
  intros Ha Hb Hc Hpa Hpb.
  split; [|split; [|split; [|split; [|split; [|split; [|split]]]]]].
  - intros f allIndices Hf w'. subst w'.
    rewrite (call_is_run _ b src_b) by done. cbn [self_setIndexFilter Manager_self].
    rewrite (run_on_client _ c) by done. cbv zeta.
    rewrite setIndexFilter_of_function.
    replace (fn_length f <? 1)%nat with false
      by (symmetry; apply Nat.ltb_ge; lia).
    cbn [fst snd vars store events]. split; [done|].
    rewrite (call_is_run _ a src_a) by done.
    cbn [self_filterIndicesAndTypes Manager_self].
    rewrite (run_on_client _ c) by done. cbv zeta.
    by rewrite filterIndicesAndTypes_run.
  - intros g allIndices Hg w'. subst w'.
    rewrite (call_is_run _ b src_b) by done. cbn [self_setTypeFilter Manager_self].
    rewrite (run_on_client _ c) by done. cbv zeta.
    rewrite setTypeFilter_of_function.
    replace (fn_length g <? 1)%nat with false
      by (symmetry; apply Nat.ltb_ge; lia).
    cbn [fst snd vars store events]. split; [done|].
    rewrite (call_is_run _ a src_a) by done.
    cbn [self_filterIndicesAndTypes Manager_self].
    rewrite (run_on_client _ c) by done. cbv zeta.
    by rewrite filterIndicesAndTypes_run.
  - intros cmp names src response Hcmp Hsrc Hget w'. subst w'.
    rewrite (call_is_run _ b src_b) by done.
    cbn [self_setIndexComparator Manager_self].
    rewrite (run_on_client _ c) by done. cbv zeta.
    unfold App.setIndexComparator. run_chain. rewrite Hcmp.
    cbn [Nat.eqb negb]. run_chain.
    rewrite (call_is_run _ a src_a) by done.
    cbn [self_prepareNewJobs Manager_self].
    rewrite (run_on_client _ c) by done. cbv zeta.
    cbn [mod_vars server_of servers log].
    by rewrite (prepareNewJobs_ok names _ src response) by (by rewrite ?Hsrc).
  - intros src' c' names response job Hget w' st.
    assert (instances w' !! a = Some (Manager_self src_a)) as Ha'.
    { subst w'. cbn. rewrite lookup_app_l; [done|]. by apply lookup_lt_Some in Ha. }
    split; [by rewrite Ha'|].
    rewrite !(call_is_run _ a src_a) by done.
    cbn [self_prepareNewJobs self_queueJob Manager_self].
    rewrite !(run_on_client _ c') by done. cbv zeta.
    cbn [fst snd servers].
    split; [|split; [done|split; [done|done]]].
    by rewrite (prepareNewJobs_ok names _ src' response).
  - intros f allIndices Hf w'. subst w'.
    rewrite (call_000_is_run _ b' src_b') by done.
    cbn [Instances000.self_setIndexFilter Instances000.Manager_self].
    unfold Instances000.run, Part000.setIndexFilter, Part000.check_filter.
    rewrite Hf. run_chain. cbn [Nat.eqb]. run_chain.
    rewrite (call_000_is_run _ a' src_a') by done.
    cbn [Instances000.self_filterIndicesAndTypes Instances000.Manager_self].
    unfold Instances000.run.
    cbn [Instances000.mod_vars Instances000.server Instances000.log].
    by rewrite filterIndicesAndTypes_000_run.
  - intros g allIndices Hg w'. subst w'.
    rewrite (call_000_is_run _ b' src_b') by done.
    cbn [Instances000.self_setTypeFilter Instances000.Manager_self].
    unfold Instances000.run, Part000.setTypeFilter, Part000.check_filter.
    rewrite Hg. run_chain. cbn [Nat.eqb]. run_chain.
    rewrite (call_000_is_run _ a' src_a') by done.
    cbn [Instances000.self_filterIndicesAndTypes Instances000.Manager_self].
    unfold Instances000.run.
    cbn [Instances000.mod_vars Instances000.server Instances000.log].
    by rewrite filterIndicesAndTypes_000_run.
  - intros cmp names src response Hcmp Hsrc Hget w'. subst w'.
    rewrite (call_000_is_run _ b' src_b') by done.
    cbn [Instances000.self_setIndexComparator Instances000.Manager_self].
    unfold Instances000.run, Part000.setIndexComparator.
    rewrite Hcmp. cbn [Nat.eqb negb]. run_chain.
    rewrite (call_000_is_run _ a' src_a') by done.
    cbn [Instances000.self_prepareNewJobs Instances000.Manager_self].
    unfold Instances000.run.
    cbn [Instances000.mod_vars Instances000.server Instances000.log].
    pose proof (prepareNewJobs_000_ok names
                  (Part000.mkVars
                     (Part000.indexFilter (Instances000.mod_vars wp)) (Some cmp)
                     (Part000.typeFilter (Instances000.mod_vars wp))
                     (Part000.source (Instances000.mod_vars wp))
                     (Part000.totalCount (Instances000.mod_vars wp)))
                  src response (Instances000.server wp) (Instances000.log wp)
                  Hsrc Hget) as Hprep.
    destruct (Part000.prepareNewJobs _ _) as [r st']. cbn in Hprep |- *.
    by rewrite Hprep.
  - intros src' names response Hget w'.
    assert (Instances000.instances w' !! a'
            = Some (Instances000.Manager_self src_a')) as Hself.
    { subst w'. cbn. rewrite lookup_app_l; [done|].
      by apply lookup_lt_Some in Hpa. }
    split; [by rewrite Hself|]. split; [done|]. split; [|done].
    rewrite (call_000_is_run _ a' src_a') by done.
    cbn [Instances000.self_prepareNewJobs Instances000.Manager_self].
    unfold Instances000.run.
    pose proof (prepareNewJobs_000_ok names (Instances000.mod_vars w') src'
                  response (Instances000.server w') (Instances000.log w')
                  eq_refl Hget) as Hprep.
    destruct (Part000.prepareNewJobs _ _) as [r st']. by cbn in Hprep |- *.
Qed.

End SharedConfiguration.

Lemma configuration_is_shared_witness :
  Instances.instances two_managers !! 0%nat
  = Some (@Instances.Manager_self sample_runtime sample_source)
  /\ Instances.instances two_managers !! 1%nat
     = Some (@Instances.Manager_self sample_runtime other_source)
  /\ Instances.redis_var two_managers = Some 1%nat
  /\ Instances000.instances two_managers_000 !! 0%nat
     = Some (Instances000.Manager_self sample_source)
  /\ Instances000.instances two_managers_000 !! 1%nat
     = Some (Instances000.Manager_self other_source)
  /\ fst (Instances.call 0%nat
            (fun o => Instances.self_filterIndicesAndTypes o
                        [mkIndexObj "A" [("t1", "{}")]; mkIndexObj "B" [("t1", "{}")]])
            (snd (Instances.call 1%nat
                    (fun o => Instances.self_setIndexFilter o (FilterFunction only_B))
                    two_managers)))
     = Ok [mkTarget "B" ["t1"]].
Proof.
  split; [reflexivity|]. split; [reflexivity|]. split; [reflexivity|].
  split; [reflexivity|]. split; [reflexivity|].
  exact (proj2 (proj1 (@configuration_is_shared_by_instances sample_runtime
                         two_managers 0%nat 1%nat sample_source other_source 1%nat
                         two_managers_000 0%nat 1%nat sample_source other_source
                         eq_refl eq_refl eq_refl eq_refl eq_refl)
                  only_B
                  [mkIndexObj "A" [("t1", "{}")]; mkIndexObj "B" [("t1", "{}")]]
                  ltac:(cbn; lia))).
Defined.
(** * The backlog is a queue *)

Lemma list_to_map_entries_fresh (jobs : list Job) (id : string) :
  id ∉ getID <$> jobs ->
  (list_to_map (entry_of <$> jobs) : gmap string string) !! id = None.
Proof.
  intros Hid. apply not_elem_of_list_to_map_1.
  by rewrite <- list_fmap_compose.
Qed.

(** Queueing jobs whose ids are new, one after the other. *)
Lemma queue_each_run {A} (arg : A -> JobArg) (job : A -> Job) (xs : list A) st :
  (forall x, x ∈ xs -> coerce_job (arg x) = Ok (job x)) ->
  forallb Job_wf (job <$> xs) = true ->
  NoDup (getID <$> (job <$> xs)) ->
  (forall x, x ∈ xs -> backlog_hset (store st) !! getID (job x) = None) ->
  exists replies,
    mapSeries (fun x => App.queueJob (arg x)) xs st
    = (Ok replies,
       mkSt (vars st)
            (mkStore (backlog_queue (store st) ++ (getID <$> (job <$> xs)))
                     (list_to_map (entry_of <$> (job <$> xs))
                        ∪ backlog_hset (store st))
                     (completed (store st)))
            (events st)).
Proof.
  revert st. induction xs as [|x xs IH]; intros st Harg Hwf Hnd Hfresh.
  - exists []. cbn. rewrite app_nil_r, (left_id ∅ (∪)).
    by destruct st as [v [q h c] e].
  - rewrite !fmap_cons in *.
    cbn in Hwf. apply andb_true_iff in Hwf as [Hj Hwf].
    apply NoDup_cons in Hnd as [Hnotin Hnd].
    rewrite mapSeries_cons.
    rewrite (queueJob_fresh st (arg x) (job x)) by (apply Harg || apply Hfresh; by left).
    set (st1 := mkSt _ _ _).
    destruct (IH st1) as (replies & Hrun); [| done | done | |].
    { intros x' Hx'. apply Harg. by right. }
    { intros x' Hx'. subst st1. cbn. rewrite lookup_insert_ne.
      - apply Hfresh. by right.
      - intros Heq. apply Hnotin. rewrite Heq.
        by apply list_elem_of_fmap_2, list_elem_of_fmap_2. }
    rewrite Hrun. eexists. f_equal.
    subst st1. cbn [vars store events backlog_queue backlog_hset completed].
    f_equal. f_equal.
    + by rewrite <- app_assoc.
    + cbn [list_to_map foldr entry_of fst snd].
      rewrite <- insert_union_l.
      rewrite <- insert_union_r; [done|].
      by apply list_to_map_entries_fresh.
Qed.

Lemma queue_all_run jobs st :
  forallb Job_wf jobs = true ->
  NoDup (getID <$> jobs) ->
  (forall j, j ∈ jobs -> backlog_hset (store st) !! getID j = None) ->
  exists replies,
    queue_all jobs st
    = (Ok replies,
       mkSt (vars st)
            (mkStore (backlog_queue (store st) ++ (getID <$> jobs))
                     (list_to_map (entry_of <$> jobs) ∪ backlog_hset (store st))
                     (completed (store st)))
            (events st)).
Proof.
  intros Hwf Hnd Hfresh.
  destruct (queue_each_run IsJob (fun j => j) jobs st) as (replies & Hrun);
    rewrite ?list_fmap_id; try done.
  exists replies. by rewrite list_fmap_id in Hrun.
Qed.

(** Fetching as many times as there are jobs at the front of the queue. *)
Lemma fetch_times_run jobs rest h st :
  forallb Job_wf jobs = true ->
  NoDup (getID <$> jobs) ->
  (forall j, j ∈ jobs -> h !! getID j = None) ->
  backlog_queue (store st) = (getID <$> jobs) ++ rest ->
  backlog_hset (store st) = list_to_map (entry_of <$> jobs) ∪ h ->
  fetch_times (length jobs) st
  = (Ok (Some <$> jobs),
     mkSt (vars st) (mkStore rest h (completed (store st))) (events st)).
Proof.
  revert st. induction jobs as [|j jobs IH]; intros st Hwf Hnd Hfresh Hq Hh.
  - cbn in *. rewrite (left_id ∅ (∪)) in Hh. rewrite <- Hq, <- Hh.
    by destruct st as [v [q h' c] e].
  - cbn in Hwf. apply andb_true_iff in Hwf as [Hj Hwf].
    rewrite fmap_cons in Hnd. apply NoDup_cons in Hnd as [Hnotin Hnd].
    rewrite fmap_cons in Hq. rewrite fmap_cons in Hh. cbn [list_to_map foldr entry_of fst snd] in Hh.
    rewrite <- insert_union_l in Hh.
    unfold fetch_times. cbn [length replicate]. rewrite mapSeries_cons.
    rewrite (fetchJob_front st (getID j) ((getID <$> jobs) ++ rest) j Hq).
    2: { rewrite Hh, lookup_insert_eq. by apply createFromID_of_job. }
    set (st1 := mkSt _ _ _).
    specialize (IH st1 Hwf Hnd). unfold fetch_times in IH. rewrite IH; [done| |done|].
    + intros j' Hj'. apply Hfresh. by right.
    + subst st1. cbn. rewrite Hh. apply delete_insert_id.
      apply lookup_union_None. split.
      * by apply list_to_map_entries_fresh.
      * apply Hfresh. by left.
Qed.

(** Property X1.  The backlog is first in, first out: jobs with distinct ids queued
    on an empty backlog are fetched in the order they were queued, each with
    the count it was queued with when that count is a safe integer; once
    the last is fetched the store is as it was before the first was
    queued, and one more [fetchJob] resolves with no job. *)
Theorem fetchJob_returns_in_queue_order (st : St App.ModVars) (jobs : list Job) :
  backlog_queue (store st) = [] ->
  backlog_hset (store st) = ∅ ->
  forallb Job_wf jobs = true ->
  NoDup (getID <$> jobs) ->
  forallb (fun job => safe_count (count job)) jobs = true ->
  let queued := after (queue_all jobs) st in
  backlog_queue (store queued) = getID <$> jobs
  /\ fetch_times (length jobs) queued = (Ok (Some <$> jobs), st)
  /\ App.fetchJob st = (Ok None, st).
Proof.
  intros Hq Hh Hwf Hnd _ queued.
  destruct (queue_all_run jobs st Hwf Hnd) as (replies & Hrun).
  { intros j _. by rewrite Hh. }
  subst queued. unfold after. rewrite Hrun. cbn [snd store backlog_queue].
  rewrite Hq. split; [done|]. split; [|by apply fetchJob_empty].
  rewrite (fetch_times_run jobs [] ∅); cbn; try done.
  - rewrite <- Hq, <- Hh. by destruct st as [v [q h c] e].
  - by rewrite app_nil_r.
  - by rewrite Hh.
Qed.

Lemma fetchJob_returns_in_queue_order_witness :
  backlog_queue (store fresh) = []
  /\ backlog_hset (store fresh) = ∅
  /\ forallb Job_wf [job_B1; job_A1; job_A2] = true
  /\ NoDup (getID <$> [job_B1; job_A1; job_A2])
  /\ forallb (fun job => safe_count (count job)) [job_B1; job_A1; job_A2] = true
  /\ fetch_times 3 (after (queue_all [job_B1; job_A1; job_A2]) fresh)
     = (Ok [Some job_B1; Some job_A1; Some job_A2], fresh).
Proof.
  assert (NoDup (getID <$> [job_B1; job_A1; job_A2])) as Hnd.
  { apply (bool_decide_unpack _). by vm_compute. }
  split; [reflexivity|]. split; [reflexivity|]. split; [reflexivity|].
  split; [exact Hnd|]. split; [reflexivity|].
  exact (proj1 (proj2 (fetchJob_returns_in_queue_order fresh
                         [job_B1; job_A1; job_A2] eq_refl eq_refl eq_refl Hnd
                         eq_refl))).
Defined.

(** * What the hashes keep *)

(** The jobs read off a sound hash: one per field, each built from its
    field and value. *)
Lemma jobs_of_hash (h : gmap string string) :
  hash_ok h ->
  exists jobs,
    jobs_of_entries (map_to_list h) = Ok jobs
    /\ NoDup (getID <$> jobs)
    /\ length jobs = size h
    /\ forall j, j ∈ jobs <->
         exists reply, h !! getID j = Some reply
                       /\ createFromID (getID j) (Some reply) = Ok j.
Proof.
  intros Hok.
  destruct (jobs_of_entries_ok (map_to_list h)) as (jobs & Hjobs & Hkeys & _);
    [by apply hash_entries_ok|].
  exists jobs. split; [done|]. split; [|split].
  - rewrite Hkeys. apply NoDup_fst_map_to_list.
  - rewrite <- (length_fmap getID), Hkeys, length_fmap. apply length_map_to_list.
  - intros j. split.
    + intros Hj.
      destruct (jobs_of_entries_elem _ _ _ Hjobs Hj) as (id & reply & Hin & Hc).
      apply createFromID_getID in Hc as Hid. destruct Hid as [<- _].
      apply elem_of_map_to_list in Hin. eauto.
    + intros (reply & Hlook & Hc).
      apply (jobs_of_entries_mem (map_to_list h) jobs (getID j) reply);
        [done| |done].
      by apply elem_of_map_to_list.
Qed.

Lemma same_id_same_job (jobs : list Job) j1 j2 :
  NoDup (getID <$> jobs) -> j1 ∈ jobs -> j2 ∈ jobs -> getID j1 = getID j2 ->
  j1 = j2.
Proof.
  induction jobs as [|j jobs IH]; intros Hnd H1 H2 Heq;
    [by apply elem_of_nil in H1|].
  rewrite fmap_cons in Hnd. apply NoDup_cons in Hnd as [Hj Hnd].
  apply elem_of_cons in H1 as [->|H1]; apply elem_of_cons in H2 as [->|H2].
  - done.
  - exfalso. apply Hj. rewrite Heq. by apply list_elem_of_fmap_2.
  - exfalso. apply Hj. rewrite <- Heq. by apply list_elem_of_fmap_2.
  - by apply IH.
Qed.

Lemma getBacklogJobs_run st :
  App.getBacklogJobs st
  = (jobs_of_entries (map_to_list (backlog_hset (store st))), st).
Proof.
  unfold App.getBacklogJobs. run_chain. by destruct st as [v [q h c] e].
Qed.

Lemma getCompletedJobs_run st :
  App.getCompletedJobs st
  = (jobs_of_entries (map_to_list (completed (store st))), st).
Proof.
  unfold App.getCompletedJobs. run_chain. by destruct st as [v [q h c] e].
Qed.

Lemma getBacklogCount_run st :
  App.getBacklogCount st
  = (Ok (sum_counts (map_to_list (backlog_hset (store st))).*2), st).
Proof.
  unfold App.getBacklogCount. run_chain. by destruct st as [v [q h c] e].
Qed.

Lemma getCompletedCount_run st :
  App.getCompletedCount st
  = (Ok (sum_counts (map_to_list (completed (store st))).*2), st).
Proof.
  unfold App.getCompletedCount. run_chain. by destruct st as [v [q h c] e].
Qed.

Lemma hash_ok_insert (h : gmap string string) j v :
  Job_wf j = true -> hash_ok h -> hash_ok (<[getID j := v]> h).
Proof.
  intros Hj Hok id His. destruct (decide (getID j = id)) as [<-|Hne]; [eauto|].
  rewrite lookup_insert_ne in His by done. by apply Hok.
Qed.

(** The job kept under its id in a sound hash is the one enumerated. *)
Lemma job_in_hash (h : gmap string string) J :
  Job_wf J = true -> hash_ok h ->
  exists jobs,
    jobs_of_entries (map_to_list (<[getID J := toString (count J)]> h)) = Ok jobs
    /\ J ∈ jobs
    /\ (forall j, j ∈ jobs -> getID j = getID J -> j = J)
    /\ length jobs = size (<[getID J := toString (count J)]> h).
Proof.
  intros HJ Hok.
  destruct (jobs_of_hash (<[getID J := toString (count J)]> h))
    as (jobs & Hjobs & Hnd & Hlen & Hmem); [by apply hash_ok_insert|].
  assert (J ∈ jobs) as HJin.
  { apply Hmem. exists (toString (count J)). split.
    - by rewrite lookup_insert_eq.
    - by apply createFromID_of_job. }
  exists jobs. split; [done|]. split; [done|]. split; [|done].
  intros j Hj Hid. by apply (same_id_same_job jobs).
Qed.

(** Property X2.  Queueing a job whose id is already in the backlog does not touch
    the queue and resolves without error, with a warning in the log; it
    does replace the count kept under that id, so the job enumerated and
    later fetched under the id carries the new count (a safe integer). *)
Theorem queueJob_again_replaces_count
    (st : St App.ModVars) (a : JobArg) (J : Job) (old : string) :
  backlog_ok (store st) ->
  arg_wf a = true ->
  coerce_job a = Ok J ->
  safe_count (count J) = true ->
  backlog_hset (store st) !! getID J = Some old ->
  let st1 := after (App.queueJob a) st in
  fst (App.queueJob a st) = Ok None
  /\ backlog_queue (store st1) = backlog_queue (store st)
  /\ events st1 = events st ++ [LogWarnQueued J]
  /\ (forall id, id <> getID J ->
        backlog_hset (store st1) !! id = backlog_hset (store st) !! id)
  /\ (exists jobs,
        fst (App.getBacklogJobs st1) = Ok jobs
        /\ J ∈ jobs
        /\ (forall j, j ∈ jobs -> getID j = getID J -> j = J)
        /\ length jobs = length (backlog_queue (store st)))
  /\ (forall rest,
        backlog_queue (store st) = getID J :: rest ->
        fst (App.fetchJob st1) = Ok (Some J)).
Proof.
  intros Hok Hwf Ha _ Hold st1.
  pose proof (coerce_job_wf a J Hwf Ha) as HJ.
  subst st1. unfold after. rewrite (queueJob_present st a J old Ha Hold).
  cbn [fst snd store events backlog_queue backlog_hset].
  split; [done|]. split; [done|]. split; [done|]. split; [|split].
  - intros id Hne. by rewrite lookup_insert_ne.
  - rewrite getBacklogJobs_run. cbn [fst store backlog_hset].
    destruct (job_in_hash (backlog_hset (store st)) J HJ (backlog_hash_ok _ Hok))
      as (jobs & Hjobs & Hin & Huniq & Hlen).
    exists jobs. split; [done|]. split; [done|]. split; [done|].
    rewrite Hlen. destruct Hok as (Hnd & Hiff & _).
    rewrite <- (size_list_to_set (C := gset string)) by done.
    rewrite <- size_dom. f_equal. apply set_eq. intros id.
    rewrite elem_of_dom, elem_of_list_to_set, Hiff.
    destruct (decide (getID J = id)) as [<-|Hne].
    + rewrite lookup_insert_eq, Hold. split; eauto.
    + by rewrite lookup_insert_ne.
  - intros rest Hq.
    erewrite fetchJob_front; [done|exact Hq|].
    cbn [store backlog_hset]. rewrite lookup_insert_eq.
    by apply createFromID_of_job.
Qed.

Lemma store_B1_ok : backlog_ok store_B1.
Proof.
  split; [apply NoDup_singleton|]. split; cbn.
  - intros id. rewrite list_elem_of_singleton. split.
    + intros ->. by rewrite lookup_singleton_eq.
    + intros [v Hv]. by apply lookup_singleton_Some in Hv as [<- _].
  - intros id ->%list_elem_of_singleton. by exists job_B1.
Qed.

Lemma queueJob_again_replaces_count_witness :
  backlog_ok store_B1
  /\ fst (App.fetchJob
            (after (App.queueJob (IsJob (mkJob "B" "t1" (Num 9))))
                   (mkSt App.initial_vars store_B1 [])))
     = Ok (Some (mkJob "B" "t1" (Num 9))).
Proof.
  split; [exact store_B1_ok|].
  exact (proj2 (proj2 (proj2 (proj2 (proj2
           (queueJob_again_replaces_count (mkSt App.initial_vars store_B1 [])
              (IsJob (mkJob "B" "t1" (Num 9))) (mkJob "B" "t1" (Num 9)) "5"
              store_B1_ok eq_refl eq_refl eq_refl eq_refl)))))
           [] eq_refl).
Defined.

(** Property X3.  [completeJob] records the job in the completed ledger under its
    id, replacing what the ledger held under that id, and leaves the
    backlog, the module variables and the log alone: the job is then
    enumerated by [getCompletedJobs] with the count it was completed with
    (a safe integer), once.  The reply is 1 for a new entry and 0
    otherwise, and completing the same job again changes nothing. *)
Theorem completeJob_records_job (st : St App.ModVars) (a : JobArg) (J : Job) :
  hash_ok (completed (store st)) ->
  arg_wf a = true ->
  coerce_job a = Ok J ->
  safe_count (count J) = true ->
  let st1 := after (App.completeJob a) st in
  fst (App.completeJob a st)
  = Ok (match completed (store st) !! getID J with Some _ => 0 | None => 1 end)
  /\ backlog_queue (store st1) = backlog_queue (store st)
  /\ backlog_hset (store st1) = backlog_hset (store st)
  /\ vars st1 = vars st
  /\ events st1 = events st
  /\ (forall id, id <> getID J ->
        completed (store st1) !! id = completed (store st) !! id)
  /\ (exists jobs,
        fst (App.getCompletedJobs st1) = Ok jobs
        /\ J ∈ jobs
        /\ forall j, j ∈ jobs -> getID j = getID J -> j = J)
  /\ App.completeJob a st1 = (Ok 0, st1).
Proof.
  intros Hok Hwf Ha _ st1.
  pose proof (coerce_job_wf a J Hwf Ha) as HJ.
  subst st1. unfold after. rewrite (completeJob_run st a J Ha).
  cbn [fst snd vars store events backlog_queue backlog_hset completed].
  split; [done|]. split; [done|]. split; [done|]. split; [done|].
  split; [done|]. split; [|split].
  - intros id Hne. by rewrite lookup_insert_ne.
  - rewrite getCompletedJobs_run. cbn [fst store completed].
    destruct (job_in_hash (completed (store st)) J HJ Hok)
      as (jobs & Hjobs & Hin & Huniq & _).
    by exists jobs.
  - rewrite (completeJob_run _ a J Ha).
    cbn [vars store events backlog_queue backlog_hset completed].
    by rewrite lookup_insert_eq, insert_insert_eq.
Qed.

Lemma completeJob_records_job_witness :
  hash_ok (completed (store fresh))
  /\ App.completeJob (IsJob job_A1)
       (after (App.completeJob (IsJob job_A1)) fresh)
     = (Ok 0, after (App.completeJob (IsJob job_A1)) fresh).
Proof.
  split; [apply hash_ok_empty|].
  exact (proj2 (proj2 (proj2 (proj2 (proj2 (proj2 (proj2
           (completeJob_records_job fresh (IsJob job_A1) job_A1
              hash_ok_empty eq_refl eq_refl eq_refl)))))))).
Defined.

(** ** Counting what moves *)

Lemma js_add_swap a b c : js_add a (js_add b c) = js_add (js_add a c) b.
Proof. by rewrite (js_add_comm b c), js_add_assoc. Qed.

Lemma foldl_js_add_acc acc x l :
  foldl js_add (js_add acc x) l = js_add (foldl js_add acc l) x.
Proof.
  revert acc. induction l as [|y l IH]; intros acc; [done|].
  cbn. rewrite <- IH. f_equal.
  rewrite <- !js_add_assoc. f_equal. apply js_add_comm.
Qed.

Lemma sum_counts_cons v l :
  sum_counts (v :: l) = js_add (sum_counts l) (parseInt v).
Proof.
  unfold sum_counts. cbn [foldl]. rewrite !sum_counts_parse.
  apply foldl_js_add_acc.
Qed.

(** The total of a hash with one more field. *)
Lemma sum_counts_insert (h : gmap string string) id v :
  h !! id = None ->
  sum_counts (map_to_list (<[id := v]> h)).*2
  = js_add (sum_counts (map_to_list h).*2) (parseInt v).
Proof.
  intros Hfresh. rewrite <- sum_counts_cons.
  apply sum_counts_perm.
  change (v :: (map_to_list h).*2) with (((id, v) :: map_to_list h).*2).
  apply fmap_Permutation. by apply map_to_list_insert.
Qed.

(** The total of a hash, one field apart. *)
Lemma sum_counts_delete (h : gmap string string) id v :
  h !! id = Some v ->
  sum_counts (map_to_list h).*2
  = js_add (sum_counts (map_to_list (delete id h)).*2) (parseInt v).
Proof.
  intros Hid. rewrite <- (sum_counts_insert (delete id h) id v)
    by apply lookup_delete_eq.
  by rewrite insert_delete_id.
Qed.

(** Property X4.  Fetching a job and completing it moves its count from the
    backlog to the ledger: while the values of the two hashes add up
    exactly (each an integer, their magnitudes together below 2^53), the
    backlog count loses what the completed count gains, so the two counts
    together stay what they were. *)
Theorem fetch_then_complete_moves_the_count (st : St App.ModVars) (J : Job) :
  store_ok (store st) ->
  fst (App.fetchJob st) = Ok (Some J) ->
  completed (store st) !! getID J = None ->
  exact_total (hash_values (backlog_hset (store st))
               ++ hash_values (completed (store st))) = true ->
  let st2 := after (App.completeJob (IsJob J)) (after App.fetchJob st) in
  exists backlog done_ backlog' done',
    fst (App.getBacklogCount st) = Ok backlog
    /\ fst (App.getCompletedCount st) = Ok done_
    /\ fst (App.getBacklogCount st2) = Ok backlog'
    /\ fst (App.getCompletedCount st2) = Ok done'
    /\ backlog = js_add backlog' (count J)
    /\ done' = js_add done_ (count J)
    /\ js_add backlog' done' = js_add backlog done_.
Proof.
  intros [Hbacklog Hledger] Hfetch Hnew _ st2.
  destruct (backlog_queue (store st)) as [|id q] eqn:Hq.
  { by rewrite (fetchJob_empty st Hq) in Hfetch. }
  destruct Hbacklog as (Hnd & Hiff & Hids).
  destruct (Hids id) as (j & Hj & <-); [rewrite Hq; by left|].
  destruct (Hiff (getID j)) as [[v Hv] _]; [rewrite Hq; by left|].
  destruct (createFromID (getID j) (backlog_hset (store st) !! getID j))
    as [J'|e] eqn:Hcreate.
  2: { by rewrite (fetchJob_malformed st (getID j) q e Hq Hcreate) in Hfetch. }
  rewrite (fetchJob_front st (getID j) q J' Hq Hcreate) in Hfetch.
  injection Hfetch as ->.
  rewrite Hv in Hcreate.
  pose proof (createFromID_getID _ _ _ Hcreate) as [Hid HJ].
  pose proof (createFromID_count _ _ _ Hcreate) as Hcount.
  subst st2. unfold after.
  rewrite (fetchJob_front st (getID j) q J Hq) by (by rewrite Hv).
  cbn [snd]. rewrite (completeJob_run _ (IsJob J) J eq_refl).
  cbn [snd vars store events backlog_queue backlog_hset completed].
  rewrite !getBacklogCount_run, !getCompletedCount_run.
  cbn [fst store backlog_hset completed].
  eexists _, _, _, _. split; [done|]. split; [done|]. split; [done|].
  split; [done|].
  assert (sum_counts (map_to_list (backlog_hset (store st))).*2
          = js_add (sum_counts (map_to_list (delete (getID j)
                                               (backlog_hset (store st)))).*2)
                   (count J)) as Hb.
  { rewrite Hcount. by apply sum_counts_delete. }
  assert (sum_counts (map_to_list (<[getID J := toString (count J)]>
                                     (completed (store st)))).*2
          = js_add (sum_counts (map_to_list (completed (store st))).*2)
                   (count J)) as Hc.
  { rewrite sum_counts_insert by done. by rewrite parseInt_toString. }
  split; [done|]. split; [done|].
  rewrite Hb, Hc.
  apply js_add_swap.
Qed.

Lemma fetch_then_complete_moves_the_count_witness :
  let st := mkSt App.initial_vars store_A1_B1 [] in
  store_ok (store st)
  /\ fst (App.fetchJob st) = Ok (Some job_A1)
  /\ completed (store st) !! getID job_A1 = None
  /\ exact_total (hash_values (backlog_hset (store st))
                  ++ hash_values (completed (store st))) = true
  /\ exists backlog done_ backlog' done',
       fst (App.getBacklogCount st) = Ok backlog
       /\ fst (App.getCompletedCount st) = Ok done_
       /\ fst (App.getBacklogCount
                 (after (App.completeJob (IsJob job_A1)) (after App.fetchJob st)))
          = Ok backlog'
       /\ fst (App.getCompletedCount
                 (after (App.completeJob (IsJob job_A1)) (after App.fetchJob st)))
          = Ok done'
       /\ backlog = js_add backlog' (count job_A1)
       /\ done' = js_add done_ (count job_A1)
       /\ js_add backlog' done' = js_add backlog done_.
Proof.
  cbv zeta.
  assert (store_ok store_A1_B1) as Hok.
  { split; [|apply hash_ok_empty].
    split; [apply store_A1_B1_unique|]. split; [|apply store_A1_B1_jobs].
    intros id. cbn. rewrite !elem_of_cons, elem_of_nil. split.
    - intros [->|[->|[]]]; by eexists.
    - intros [v Hv]. apply lookup_insert_Some in Hv as [[<- _]|[_ Hv]]; [by left|].
      apply lookup_singleton_Some in Hv as [<- _]. right. by left. }
  assert (exact_total (hash_values (backlog_hset store_A1_B1)
                       ++ hash_values (completed store_A1_B1)) = true) as Hsum
    by (by vm_compute).
  split; [exact Hok|]. split; [reflexivity|]. split; [reflexivity|].
  split; [exact Hsum|].
  exact (fetch_then_complete_moves_the_count
           (mkSt App.initial_vars store_A1_B1 []) job_A1 Hok eq_refl eq_refl
           Hsum).
Defined.

(** * Clearing *)

(** Property X5.  [clearBacklogJobs] empties the queue and the backlog hash and
    leaves the completed ledger as it is: after it [fetchJob] finds no job,
    [getBacklogJobs] lists none and [getBacklogCount] is 0, while
    [getCompletedJobs] and [getCompletedCount] answer as before.
    [clearCompletedJobs] empties the ledger and leaves the backlog as it
    is.  Neither changes the module variables; only the first writes to the
    log. *)
Theorem clearing_empties_one_side_only (st : St App.ModVars) :
  (let st1 := after App.clearBacklogJobs st in
   fst (App.clearBacklogJobs st)
   = Ok (if decide (backlog_hset (store st) = ∅) then 0 else 1)
   /\ st1 = mkSt (vars st) (mkStore [] ∅ (completed (store st)))
                 (events st ++ [LogInfo "clearing existing backlog"])
   /\ App.fetchJob st1 = (Ok None, st1)
   /\ App.getBacklogJobs st1 = (Ok [], st1)
   /\ App.getBacklogCount st1 = (Ok (Num 0), st1)
   /\ fst (App.getCompletedJobs st1) = fst (App.getCompletedJobs st)
   /\ fst (App.getCompletedCount st1) = fst (App.getCompletedCount st))
  /\ (let st2 := after App.clearCompletedJobs st in
      fst (App.clearCompletedJobs st)
      = Ok (if decide (completed (store st) = ∅) then 0 else 1)
      /\ st2 = mkSt (vars st)
                    (mkStore (backlog_queue (store st)) (backlog_hset (store st)) ∅)
                    (events st)
      /\ App.getCompletedJobs st2 = (Ok [], st2)
      /\ App.getCompletedCount st2 = (Ok (Num 0), st2)
      /\ fst (App.fetchJob st2) = fst (App.fetchJob st)
      /\ fst (App.getBacklogJobs st2) = fst (App.getBacklogJobs st)
      /\ fst (App.getBacklogCount st2) = fst (App.getBacklogCount st)).
Proof.
  destruct st as [v [q h c] e]. split; cbv zeta.
  - unfold after, App.clearBacklogJobs. run_chain.
    split; [done|]. split; [done|].
    split; [by apply fetchJob_empty|].
    rewrite getBacklogJobs_run, getBacklogCount_run, !getCompletedJobs_run,
      !getCompletedCount_run.
    cbn [fst store backlog_hset completed]. by rewrite map_to_list_empty.
  - unfold after, App.clearCompletedJobs. run_chain.
    split; [done|]. split; [done|].
    rewrite !getBacklogJobs_run, !getBacklogCount_run, !getCompletedJobs_run,
      !getCompletedCount_run.
    cbn [fst store backlog_hset completed]. rewrite map_to_list_empty.
    split; [done|]. split; [done|]. split; [|done].
    unfold App.fetchJob, Redis.lpop. run_chain.
    destruct q as [|id q]; [done|]. run_chain.
    unfold Redis.hget. run_chain. cbn [get_hash backlog_hset].
    by destruct (createFromID id (h !! id)).
Qed.

(** * Counts that are not numbers *)

Lemma foldl_js_add_NaN acc l :
  acc = NaN \/ NaN ∈ l -> foldl js_add acc l = NaN.
Proof.
  revert acc. induction l as [|x l IH]; intros acc; cbn [foldl].
  - by intros [?|?%elem_of_nil].
  - intros [->|[<-|Hin]%elem_of_cons]; apply IH; auto.
    left. by destruct acc.
Qed.

Lemma sum_counts_NaN counts v :
  v ∈ counts -> parseInt v = NaN -> sum_counts counts = NaN.
Proof.
  intros Hin Hv. unfold sum_counts. rewrite sum_counts_parse.
  apply foldl_js_add_NaN. right. rewrite <- Hv. by apply list_elem_of_fmap_2.
Qed.

Lemma hash_count_NaN (h : gmap string string) id v :
  h !! id = Some v -> parseInt v = NaN ->
  sum_counts (map_to_list h).*2 = NaN.
Proof.
  intros Hin Hv. apply (sum_counts_NaN _ v); [|done].
  apply list_elem_of_fmap. exists (id, v). split; [done|].
  by apply elem_of_map_to_list.
Qed.

(** Property X6.  [getBacklogCount] and [getCompletedCount] always resolve and
    leave the state alone, and one count that is [NaN] makes the whole
    count [NaN]: a hash that keeps the text NaN under some id counts as
    [NaN] whatever else it keeps, so a job queued (or completed) with the
    count [NaN] turns the count into [NaN]. *)
Theorem count_is_NaN_once_a_job_has_no_count (st : St App.ModVars) :
  (exists n, App.getBacklogCount st = (Ok n, st))
  /\ (exists n, App.getCompletedCount st = (Ok n, st))
  /\ (forall id,
        backlog_hset (store st) !! id = Some "NaN" ->
        fst (App.getBacklogCount st) = Ok NaN)
  /\ (forall id,
        completed (store st) !! id = Some "NaN" ->
        fst (App.getCompletedCount st) = Ok NaN)
  /\ (forall a J,
        coerce_job a = Ok J -> count J = NaN ->
        fst (App.getBacklogCount (after (App.queueJob a) st)) = Ok NaN
        /\ fst (App.getCompletedCount (after (App.completeJob a) st)) = Ok NaN).
Proof.
  rewrite getBacklogCount_run, getCompletedCount_run. cbn [fst].
  split; [eauto|]. split; [eauto|]. split; [|split].
  - intros id Hid. f_equal. by apply (hash_count_NaN _ id "NaN").
  - intros id Hid. f_equal. by apply (hash_count_NaN _ id "NaN").
  - intros a J Ha HJ. rewrite getBacklogCount_run, getCompletedCount_run.
    cbn [fst].
    split; f_equal; apply (hash_count_NaN _ (getID J) "NaN"); try done.
    + unfold after.
      destruct (backlog_hset (store st) !! getID J) as [old|] eqn:Hold.
      * rewrite (queueJob_present st a J old Ha Hold). cbn.
        by rewrite lookup_insert_eq, HJ.
      * rewrite (queueJob_fresh st a J Ha Hold). cbn.
        by rewrite lookup_insert_eq, HJ.
    + unfold after. rewrite (completeJob_run st a J Ha). cbn.
      by rewrite lookup_insert_eq, HJ.
Qed.

(** * Callers of [fetchJob] while jobs remain *)

Section Served.
Import Workers.

(** The queue only loses ids, at its front. *)
Lemma queue_shrinks_step i σ σ' :
  step i σ = Some σ' ->
  exists popped,
    backlog_queue (server σ) = popped ++ backlog_queue (server σ').
Proof.
  unfold step. destruct (workers σ !! i) as [w|]; [|done].
  destruct w as [|id|job|r]; cbn [worker_step]; [| | |done].
  - unfold Redis.lpop. destruct (backlog_queue (server σ)) as [|id q] eqn:Hq.
    + intros [= <-]. exists []. cbn. by rewrite Hq.
    + intros [= <-]. by exists [id].
  - unfold Redis.hget. cbn [fst snd]. intros [= <-]. by exists [].
  - unfold Redis.hdel. intros [= <-]. by exists [].
Qed.

Lemma queue_shrinks_exec schedule σ σ' :
  exec schedule σ = Some σ' ->
  exists popped,
    backlog_queue (server σ) = popped ++ backlog_queue (server σ').
Proof.
  revert σ. induction schedule as [|i schedule IH]; intros σ.
  - intros [= <-]. by exists [].
  - cbn. destruct (step i σ) as [σ1|] eqn:Hstep; [|done]. intros Hexec.
    destruct (queue_shrinks_step i σ σ1 Hstep) as (p1 & ->).
    destruct (IH σ1 Hexec) as (p2 & ->).
    exists (p1 ++ p2). by rewrite app_assoc.
Qed.

(** Property X7.  While the backlog holds at least as many jobs as there are
    concurrent callers of [fetchJob], no caller is told "no job available":
    whatever the interleaving, once all have returned each holds a job, the
    jobs held are those of the ids that were first in the queue, each held
    once, and the ids behind them are still queued, in their order. *)
Theorem fetchJob_serves_every_caller_while_jobs_remain (s : Store) (n : nat) :
  NoDup (backlog_queue s) ->
  (forall id, id ∈ backlog_queue s ->
     exists j, Job_wf j = true /\ getID j = id) ->
  (n <= length (backlog_queue s))%nat ->
  (forall schedule σ,
     exec schedule (start s n) = Some σ ->
     forallb returned (workers σ) = true ->
     exists taken,
       backlog_queue s = taken ++ backlog_queue (server σ)
       /\ getID <$> omap job_of (workers σ) ≡ₚ taken
       /\ length (omap job_of (workers σ)) = n
       /\ Forall (fun w => no_job w = false) (workers σ))
  /\ (exists schedule σ,
        exec schedule (start s n) = Some σ
        /\ forallb returned (workers σ) = true).
Proof.
  intros Hnd Hids Hle. split.
  - intros schedule σ Hexec Hret.
    destruct (consistent_exec (backlog_queue s) Hids schedule _ σ
                (consistent_start s n) Hexec)
      as [(Hperm & Hempty & Hfail) Hlen].
    unfold start in Hlen. cbn [workers] in Hlen.
    rewrite length_replicate in Hlen.
    destruct (all_returned_held (workers σ) Hret Hfail) as [Hheld Hcount].
    rewrite Hheld in Hperm.
    destruct (queue_shrinks_exec schedule _ σ Hexec) as (taken & Htaken).
    cbn [start server] in Htaken.
    assert (getID <$> omap job_of (workers σ) ≡ₚ taken) as Hjobs.
    { apply (Permutation_app_inv_l (backlog_queue (server σ))).
      rewrite Hperm, Htaken. apply Permutation_app_comm. }
    assert (filter (fun w => no_job w = true) (workers σ) = []) as Hnone.
    { destruct (filter (fun w => no_job w = true) (workers σ)) as [|w l] eqn:Hf;
        [done|]. exfalso.
      assert (backlog_queue (server σ) = []) as Hq.
      { apply Hempty, Exists_exists. exists w.
        assert (w ∈ filter (fun w => no_job w = true) (workers σ)) as Hin
          by (rewrite Hf; by left).
        by apply list_elem_of_filter in Hin as [? ?]. }
      rewrite Hq, app_nil_r in Htaken.
      apply Permutation_length in Hjobs. rewrite length_fmap in Hjobs.
      rewrite Htaken in Hle. cbn [length] in Hcount. lia. }
    exists taken. split; [done|]. split; [done|]. split.
    + rewrite Hnone in Hcount. cbn in Hcount. lia.
    + apply Forall_forall. intros w Hw.
      destruct (no_job w) eqn:Hno; [|done]. exfalso.
      assert (w ∈ filter (fun w => no_job w = true) (workers σ)) as Hin
        by (by apply list_elem_of_filter).
      rewrite Hnone in Hin. by apply elem_of_nil in Hin.
  - destruct (one_by_one_completes (3 * n) (start s n)) as (σ & Hexec & Hret).
    { unfold start. cbn [workers]. clear.
      induction n as [|n IH]; [done|]. rewrite replicate_S.
      cbn [sum_list_with remaining]. lia. }
    eauto.
Qed.

End Served.

Lemma fetchJob_serves_every_caller_witness :
  NoDup (backlog_queue store_A1_B1)
  /\ (1 <= length (backlog_queue store_A1_B1))%nat
  /\ exists schedule σ,
       Workers.exec schedule (Workers.start store_A1_B1 1) = Some σ
       /\ forallb Workers.returned (Workers.workers σ) = true.
Proof.
  split; [apply store_A1_B1_unique|]. split; [cbn; lia|].
  exact (proj2 (fetchJob_serves_every_caller_while_jobs_remain store_A1_B1 1
                  store_A1_B1_unique store_A1_B1_jobs ltac:(cbn; lia))).
Defined.

(** * Concurrent callers of [queueJob] *)

Section Queueing.
Import Queuers.

(** One caller alone is [queueJob]. *)
Lemma caller_alone_is_queueJob (st : St App.ModVars) (job : Job) :
  exists schedule reply,
    exec schedule (mkSystem (store st) [Calling job])
    = Some (mkSystem (store (after (App.queueJob (IsJob job)) st))
                     [Returned reply])
    /\ fst (App.queueJob (IsJob job) st) = Ok reply.
Proof.
  unfold after.
  destruct (backlog_hset (store st) !! getID job) as [old|] eqn:Hold.
  - exists [0%nat], None.
    rewrite (queueJob_present st (IsJob job) job old eq_refl Hold). cbn.
    unfold step, caller_step, Redis.hset. cbn. by rewrite Hold.
  - exists [0%nat; 0%nat], (Some (Z.of_nat (length (backlog_queue (store st) ++ [getID job])))).
    rewrite (queueJob_fresh st (IsJob job) job eq_refl Hold). cbn.
    unfold step, caller_step, Redis.hset. cbn. by rewrite Hold.
Qed.

Lemma all_pending_app l1 l2 :
  all_pending (l1 ++ l2) = all_pending l1 ++ all_pending l2.
Proof. unfold all_pending. by rewrite fmap_app, join_app. Qed.

Lemma all_pending_cons c l : all_pending (c :: l) = pending c ++ all_pending l.
Proof. done. Qed.

Lemma all_unsent_app l1 l2 :
  all_unsent (l1 ++ l2) = all_unsent l1 ++ all_unsent l2.
Proof. unfold all_unsent. by rewrite fmap_app, join_app. Qed.

Lemma all_unsent_cons c l : all_unsent (c :: l) = unsent c ++ all_unsent l.
Proof. done. Qed.

Lemma all_pending_calling jobs : all_pending (Calling <$> jobs) = [].
Proof. induction jobs as [|j jobs IH]; [done|]. by rewrite fmap_cons, all_pending_cons, IH. Qed.

Lemma all_unsent_calling jobs : all_unsent (Calling <$> jobs) = getID <$> jobs.
Proof.
  induction jobs as [|j jobs IH]; [done|].
  by rewrite !fmap_cons, all_unsent_cons, IH.
Qed.

Lemma pushed_calling jobs :
  filter (fun c => pushed c = true) (Calling <$> jobs) = [].
Proof.
  induction jobs as [|j jobs IH]; [done|].
  rewrite fmap_cons. by rewrite filter_cons_False.
Qed.

Lemma length_pushed_replace l1 l2 c c' :
  pushed c = false ->
  length (filter (fun c => pushed c = true) (l1 ++ c' :: l2))
  = (length (filter (fun c => pushed c = true) (l1 ++ c :: l2))
     + if pushed c' then 1 else 0)%nat.
Proof.
  intros Hc. rewrite !filter_app, !length_app.
  rewrite (filter_cons_False _ c) by (by rewrite Hc).
  destruct (pushed c') eqn:Hc'.
  - rewrite filter_cons_True by done. cbn. lia.
  - rewrite filter_cons_False by (by rewrite Hc'). lia.
Qed.

Lemma queuers_consistent_start s jobs :
  NoDup (backlog_queue s) ->
  (forall id, id ∈ backlog_queue s <-> is_Some (backlog_hset s !! id)) ->
  consistent (start s jobs) /\ reached_from s jobs (start s jobs).
Proof.
  intros Hnd Hiff. unfold consistent, reached_from, start.
  cbn [server callers]. rewrite all_pending_calling, all_unsent_calling, app_nil_r.
  split; [done|]. split; [|split].
  - exists []. by rewrite app_nil_r, pushed_calling.
  - intros id. cbn [app]. rewrite elem_of_app. tauto.
  - intros j Hj. left. by apply list_elem_of_fmap_2.
Qed.

Lemma queuers_consistent_step s jobs i σ σ' :
  consistent σ /\ reached_from s jobs σ ->
  step i σ = Some σ' ->
  consistent σ' /\ reached_from s jobs σ'.
Proof.
  intros [(Hnd & Hiff) ((added & Hq & Hcount) & Hfrom & Hjobs)]. unfold step.
  destruct (callers σ !! i) as [c|] eqn:Hc; [|done].
  destruct (insert_split _ _ _ Hc) as (l1 & l2 & Hcs & Hins).
  rewrite Hcs in Hnd, Hiff, Hcount, Hfrom, Hjobs.
  rewrite all_pending_app, all_pending_cons in Hnd, Hiff, Hfrom.
  rewrite all_unsent_app, all_unsent_cons in Hfrom, Hjobs.
  destruct c as [job|job|r]; cbn [caller_step]; [| |done].
  - (* the write of the field *)
    unfold Redis.hset. cbn [get_hash fst snd pending unsent app] in *.
    assert (forall j v,
              j ∈ jobs ->
              getID j ∈ all_unsent l1 ++ all_unsent l2
              \/ is_Some (<[getID job := v]> (backlog_hset (server σ)) !! getID j))
      as Hjobs'.
    { intros j v Hj. destruct (Hjobs j Hj) as [Hin|Hin].
      - rewrite !elem_of_app, elem_of_cons in Hin.
        destruct Hin as [?|[->|?]].
        + left. rewrite elem_of_app. by left.
        + right. by rewrite lookup_insert_eq.
        + left. rewrite elem_of_app. by right.
      - right. apply lookup_insert_is_Some'. by right. }
    destruct (backlog_hset (server σ) !! getID job) as [old|] eqn:Hold.
    + change (0 =? 0) with true. cbv iota. intros [= <-].
      unfold consistent, reached_from, set_hash.
      cbn [server callers backlog_queue backlog_hset].
      rewrite Hins, all_pending_app, all_pending_cons, all_unsent_app,
        all_unsent_cons.
      cbn [pending unsent app].
      rewrite (length_pushed_replace l1 l2 (Calling job)) by done.
      cbn [pushed]. rewrite Nat.add_0_r.
      split; [split; [done|]|split; [by exists added|split; [|intros j Hj; by apply Hjobs']]].
      * intros id. rewrite Hiff. destruct (decide (getID job = id)) as [<-|Hne].
        -- rewrite lookup_insert_eq, Hold. split; eauto.
        -- by rewrite lookup_insert_ne.
      * intros id Hin. apply Hfrom. revert Hin.
        rewrite !elem_of_app, elem_of_cons. tauto.
    + change (1 =? 0) with false. cbv iota. intros [= <-].
      assert (getID job ∉ backlog_queue (server σ)
                          ++ all_pending l1 ++ all_pending l2) as Hnew.
      { intros [? Hsome]%Hiff. congruence. }
      unfold consistent, reached_from, set_hash.
      cbn [server callers backlog_queue backlog_hset].
      rewrite Hins, all_pending_app, all_pending_cons, all_unsent_app,
        all_unsent_cons.
      cbn [pending unsent app].
      rewrite (length_pushed_replace l1 l2 (Calling job)) by done.
      cbn [pushed]. rewrite Nat.add_0_r.
      assert (backlog_queue (server σ) ++ all_pending l1 ++ getID job :: all_pending l2
              ≡ₚ getID job :: backlog_queue (server σ)
                            ++ all_pending l1 ++ all_pending l2) as Hperm.
      { rewrite (app_assoc _ (all_pending l1)), <- Permutation_middle.
        by rewrite <- app_assoc. }
      split; [split|split; [by exists added|split; [|intros j Hj; by apply Hjobs']]].
      * rewrite Hperm. by apply NoDup_cons.
      * intros id. rewrite Hperm, elem_of_cons, Hiff.
        destruct (decide (getID job = id)) as [<-|Hne].
        -- rewrite lookup_insert_eq. split; eauto.
        -- rewrite lookup_insert_ne by done. split; [|by right].
           by intros [->|?].
      * intros id Hin. apply Hfrom. revert Hin.
        rewrite ?elem_of_app, ?elem_of_cons, ?elem_of_app. tauto.
  - (* the push *)
    unfold Redis.rpush. cbn [fst snd pending unsent app] in *.
    intros [= <-].
    unfold consistent, reached_from, set_queue.
    cbn [server callers backlog_queue backlog_hset].
    rewrite Hins, all_pending_app, all_pending_cons, all_unsent_app,
      all_unsent_cons.
    cbn [pending unsent app].
    rewrite (length_pushed_replace l1 l2 (Added job)) by done.
    cbn [pushed].
    assert ((backlog_queue (server σ) ++ [getID job])
              ++ all_pending l1 ++ all_pending l2
            ≡ₚ backlog_queue (server σ)
                 ++ all_pending l1 ++ getID job :: all_pending l2) as Hperm.
    { rewrite <- (app_assoc _ [getID job]). apply Permutation_app_head.
      cbn [app]. apply Permutation_middle. }
    split; [split|split; [|split; [|done]]].
    + by rewrite Hperm.
    + intros id. by rewrite Hperm.
    + exists (added ++ [getID job]). rewrite Hq, app_assoc. split; [done|].
      rewrite length_app. cbn. lia.
    + intros id Hin. apply Hfrom. revert Hin.
      rewrite ?elem_of_app, ?elem_of_cons, ?elem_of_app, ?elem_of_nil.
      tauto.
Qed.

Lemma queuers_consistent_exec s jobs schedule σ σ' :
  consistent σ /\ reached_from s jobs σ ->
  exec schedule σ = Some σ' ->
  (consistent σ' /\ reached_from s jobs σ')
  /\ length (callers σ') = length (callers σ).
Proof.
  revert σ. induction schedule as [|i schedule IH]; intros σ Hc.
  - by intros [= <-].
  - cbn. destruct (step i σ) as [σ1|] eqn:Hstep; [|done].
    intros Hexec.
    destruct (IH σ1 (queuers_consistent_step s jobs i σ σ1 Hc Hstep) Hexec) as [? Hlen].
    split; [done|]. rewrite Hlen. unfold step in Hstep.
    destruct (callers σ !! i); [|done].
    destruct (caller_step _ _) as [[c' s']|]; [|done].
    injection Hstep as <-. cbn. apply length_insert.
Qed.

(** Once all have returned nothing is pending or unsent. *)
Lemma all_returned_idle cs :
  forallb returned cs = true -> all_pending cs = [] /\ all_unsent cs = [].
Proof.
  induction cs as [|c cs IH]; [done|]. cbn [forallb].
  intros [Hc Hcs]%andb_true_iff. destruct (IH Hcs) as [Hp Hu].
  rewrite all_pending_cons, all_unsent_cons, Hp, Hu. by destruct c.
Qed.

Lemma queuers_first_running_spec cs :
  match first_running cs with
  | None => forallb returned cs = true
  | Some i => exists c, cs !! i = Some c /\ returned c = false
  end.
Proof.
  induction cs as [|c cs IH]; [done|]. cbn.
  destruct (returned c) eqn:Hc; [|by exists c].
  destruct (first_running cs) as [i|]; cbn; [|done].
  destruct IH as (c' & ? & ?). by exists c'.
Qed.

Lemma caller_step_progress c s :
  returned c = false ->
  exists c' s', caller_step c s = Some (c', s')
                /\ (remaining c' < remaining c)%nat.
Proof.
  destruct c as [job|job|r]; [| |done]; intros _; cbn [caller_step].
  - unfold Redis.hset. cbn [get_hash fst snd].
    destruct (backlog_hset s !! getID job); eexists _, _;
      (split; [done|cbn; lia]).
  - unfold Redis.rpush. eexists _, _. split; [done|cbn; lia].
Qed.

Lemma queuers_one_by_one_completes fuel σ :
  (sum_list_with remaining (callers σ) <= fuel)%nat ->
  exists σ', exec (one_by_one fuel σ) σ = Some σ'
             /\ forallb returned (callers σ') = true.
Proof.
  revert σ. induction fuel as [|fuel IH]; intros σ Hfuel;
    pose proof (queuers_first_running_spec (callers σ)) as Hfirst.
  - exists σ. split; [done|].
    destruct (first_running (callers σ)) as [i|]; [|done].
    destruct Hfirst as (c & Hc & Hrun). exfalso.
    destruct (insert_split _ _ _ Hc) as (l1 & l2 & Hcs & _).
    rewrite Hcs, sum_list_with_app in Hfuel. cbn in Hfuel.
    destruct c; cbn in *; (done || lia).
  - cbn [one_by_one].
    destruct (first_running (callers σ)) as [i|]; [|by exists σ].
    destruct Hfirst as (c & Hc & Hrun).
    destruct (caller_step_progress c (server σ) Hrun) as (c' & s' & Hstep & Hlt).
    assert (step i σ = Some (mkSystem s' (<[i:=c']> (callers σ)))) as Hsys
      by (unfold step; by rewrite Hc, Hstep).
    rewrite Hsys. cbn [exec]. rewrite Hsys. apply IH. cbn [callers].
    destruct (insert_split _ _ _ Hc) as (l1 & l2 & Hcs & Hins).
    rewrite Hins. rewrite Hcs in Hfuel.
    rewrite !sum_list_with_app in *. cbn in *. lia.
Qed.

(** Property X8.  Concurrent callers of [queueJob] never put an id in the queue
    twice: on a backlog whose queue and hash agree, whatever the jobs of the
    callers (several may have the same id) and whatever the interleaving of
    their commands, the queue holds no id twice at any moment; once all
    callers have returned, the queue is the queue of the start followed by
    the ids that were new, each once, one per caller whose push went
    through, and it holds the id of every caller's job.  Every caller does
    return. *)
Theorem queueJob_callers_never_duplicate (s : Store) (jobs : list Job) :
  NoDup (backlog_queue s) ->
  (forall id, id ∈ backlog_queue s <-> is_Some (backlog_hset s !! id)) ->
  (forall schedule σ,
     exec schedule (start s jobs) = Some σ ->
     NoDup (backlog_queue (server σ))
     /\ (forallb returned (callers σ) = true ->
         exists added,
           backlog_queue (server σ) = backlog_queue s ++ added
           /\ length (filter (fun c => pushed c = true) (callers σ))
              = length added
           /\ (forall id, id ∈ added
                          <-> id ∈ getID <$> jobs /\ id ∉ backlog_queue s)
           /\ (forall j, j ∈ jobs -> getID j ∈ backlog_queue (server σ))
           /\ (forall id, id ∈ backlog_queue (server σ)
                          <-> is_Some (backlog_hset (server σ) !! id))))
  /\ (exists schedule σ,
        exec schedule (start s jobs) = Some σ
        /\ forallb returned (callers σ) = true).
Proof.
  intros Hnd Hiff. split.
  - intros schedule σ Hexec.
    destruct (queuers_consistent_exec s jobs schedule _ σ
                (queuers_consistent_start s jobs Hnd Hiff) Hexec)
      as [[(Hnd' & Hiff') ((added & Hq & Hcount) & Hfrom & Hjobs)] _].
    split.
    { apply NoDup_app in Hnd' as Hparts. by destruct Hparts as (? & _ & _). }
    intros Hret. destruct (all_returned_idle _ Hret) as [Hp Hu].
    rewrite Hp, Hu, ?app_nil_r in *.
    assert (forall j, j ∈ jobs -> getID j ∈ backlog_queue (server σ)) as Hall.
    { intros j Hj. destruct (Hjobs j Hj) as [?%elem_of_nil|Hsome]; [done|].
      by apply Hiff'. }
    exists added. split; [done|]. split; [done|]. split; [|by split].
    rewrite Hq in Hnd', Hfrom, Hall.
    apply NoDup_app in Hnd' as (_ & Hdisj & _).
    intros id. split.
    + intros Hin. split.
      * destruct (Hfrom id) as [Hold|?]; [apply elem_of_app; by right| |done].
        by destruct (Hdisj id Hold).
      * intros Hold. by apply (Hdisj id).
    + intros [(j & -> & Hj)%list_elem_of_fmap Hnew].
      pose proof (Hall j Hj) as [?|?]%elem_of_app; done.
  - destruct (queuers_one_by_one_completes (2 * length jobs) (start s jobs))
      as (σ & Hexec & Hret).
    { unfold start. cbn [callers]. clear.
      induction jobs as [|j jobs IH]; [done|]. rewrite fmap_cons.
      cbn [sum_list_with remaining length]. lia. }
    eauto.
Qed.

End Queueing.

Lemma queueJob_callers_never_duplicate_witness :
  NoDup (backlog_queue store_B1)
  /\ exists schedule σ,
       Queuers.exec schedule (Queuers.start store_B1 [job_A1; job_A1; job_B1])
       = Some σ
       /\ forallb Queuers.returned (Queuers.callers σ) = true.
Proof.
  split; [apply store_B1_ok|].
  exact (proj2 (queueJob_callers_never_duplicate store_B1
                  [job_A1; job_A1; job_B1]
                  (proj1 store_B1_ok) (proj1 (proj2 store_B1_ok)))).
Defined.

(** * A job queued while it is being fetched *)

(** Property X9.  [fetchJob] is three commands, not one: when a caller of
    [queueJob] writes a job between the pop of a caller of [fetchJob] and
    its delete (before the read of the count or after it), and the id is
    the one popped, the field is found to exist, so the job is not pushed
    and [queueJob] resolves with the "already in queue" outcome; the
    delete then removes the field.  The fetching caller gets a job of that
    id, with the count just written when the write came before its read
    and with the old count otherwise, and the id is in neither the queue
    nor the hash, although the job was queued after the pop. *)
Theorem job_queued_during_its_fetch_is_not_kept
    (s : Store) (J : Job) (rest : list string) (old : string) :
  Job_wf J = true ->
  backlog_queue s = getID J :: rest ->
  getID J ∉ rest ->
  backlog_hset s !! getID J = Some old ->
  let lost (fetched : Job) (s4 : Store) :=
    index fetched = index J /\ type fetched = type J
    /\ backlog_queue s4 = rest
    /\ (getID J ∉ backlog_queue s4)
    /\ backlog_hset s4 !! getID J = None
    /\ completed s4 = completed s in
  exists s1,
    Workers.worker_step Workers.Calling s
    = Some (Workers.Popped (getID J), s1)
    (* the write comes before the read of the count *)
    /\ (exists fetched s2 s3 s4,
          Queuers.caller_step (Queuers.Calling J) s1
          = Some (Queuers.Returned None, s2)
          /\ Workers.worker_step (Workers.Popped (getID J)) s2
             = Some (Workers.Created fetched, s3)
          /\ Workers.worker_step (Workers.Created fetched) s3
             = Some (Workers.Returned (Ok (Some fetched)), s4)
          /\ count fetched = parseInt (toString (count J))
          /\ (safe_count (count J) = true -> fetched = J)
          /\ lost fetched s4)
    (* the write comes after the read of the count *)
    /\ (exists fetched s2 s3 s4,
          Workers.worker_step (Workers.Popped (getID J)) s1
          = Some (Workers.Created fetched, s2)
          /\ Queuers.caller_step (Queuers.Calling J) s2
             = Some (Queuers.Returned None, s3)
          /\ Workers.worker_step (Workers.Created fetched) s3
             = Some (Workers.Returned (Ok (Some fetched)), s4)
          /\ count fetched = parseInt old
          /\ lost fetched s4).
Proof.
  intros HJ Hq Hrest Hold lost. subst lost. cbv beta.
  destruct s as [q h c]. cbn in Hq, Hold. subst q.
  destruct (createFromID_wf_id J (Some (toString (count J))) HJ)
    as (new_job & Hnew & Hnew_index & Hnew_type).
  destruct (createFromID_wf_id J (Some old) HJ)
    as (old_job & Hold_job & Hold_index & Hold_type).
  pose proof (createFromID_getID _ _ _ Hnew) as [Hnew_id _].
  pose proof (createFromID_getID _ _ _ Hold_job) as [Hold_id _].
  eexists. split; [reflexivity|]. split.
  - exists new_job. eexists _, _, _.
    cbn [Queuers.caller_step]. unfold Redis.hset, set_queue.
    cbn [get_hash backlog_hset backlog_queue completed]. rewrite Hold.
    change (0 =? 0) with true. cbv iota.
    split; [reflexivity|].
    cbn [Workers.worker_step]. unfold Redis.hget, set_hash.
    cbn [get_hash backlog_hset backlog_queue completed fst snd].
    rewrite lookup_insert_eq, Hnew.
    split; [reflexivity|].
    unfold Redis.hdel, set_hash.
    cbn [get_hash backlog_hset backlog_queue completed fst snd].
    split; [reflexivity|]. cbn [backlog_queue backlog_hset completed].
    split; [by apply (createFromID_count (getID J))|].
    split.
    { intros _. rewrite (createFromID_of_job J HJ) in Hnew. congruence. }
    split; [done|]. split; [done|]. split; [done|]. split; [done|].
    split; [|done]. rewrite Hnew_id. apply lookup_delete_eq.
  - exists old_job. eexists _, _, _.
    cbn [Workers.worker_step]. unfold Redis.hget, set_queue.
    cbn [get_hash backlog_hset backlog_queue completed fst snd].
    rewrite Hold, Hold_job.
    split; [reflexivity|].
    cbn [Queuers.caller_step]. unfold Redis.hset, set_hash.
    cbn [get_hash backlog_hset backlog_queue completed]. rewrite Hold.
    change (0 =? 0) with true. cbv iota.
    split; [reflexivity|].
    unfold Redis.hdel, set_hash.
    cbn [get_hash backlog_hset backlog_queue completed fst snd].
    split; [reflexivity|]. cbn [backlog_queue backlog_hset completed].
    split; [by apply (createFromID_count (getID J))|].
    split; [done|]. split; [done|]. split; [done|]. split; [done|].
    split; [|done]. rewrite Hold_id. apply lookup_delete_eq.
Qed.

Lemma job_queued_during_its_fetch_witness :
  Job_wf job_A1 = true
  /\ backlog_queue store_A1_B1 = getID job_A1 :: ["B:t1"]
  /\ (getID job_A1 ∉ ["B:t1"])
  /\ backlog_hset store_A1_B1 !! getID job_A1 = Some "3"
  /\ exists s1,
       Workers.worker_step Workers.Calling store_A1_B1
       = Some (Workers.Popped (getID job_A1), s1)
       /\ (exists fetched s2 s3 s4,
             Queuers.caller_step (Queuers.Calling (mkJob "A" "t1" (Num 9))) s1
             = Some (Queuers.Returned None, s2)
             /\ Workers.worker_step (Workers.Popped (getID job_A1)) s2
                = Some (Workers.Created fetched, s3)
             /\ Workers.worker_step (Workers.Created fetched) s3
                = Some (Workers.Returned (Ok (Some fetched)), s4)
             /\ fetched = mkJob "A" "t1" (Num 9)
             /\ backlog_queue s4 = ["B:t1"]
             /\ backlog_hset s4 !! getID job_A1 = None)
       /\ (exists fetched s2 s3 s4,
             Workers.worker_step (Workers.Popped (getID job_A1)) s1
             = Some (Workers.Created fetched, s2)
             /\ Queuers.caller_step (Queuers.Calling (mkJob "A" "t1" (Num 9))) s2
                = Some (Queuers.Returned None, s3)
             /\ Workers.worker_step (Workers.Created fetched) s3
                = Some (Workers.Returned (Ok (Some fetched)), s4)
             /\ count fetched = Num 3
             /\ backlog_queue s4 = ["B:t1"]
             /\ backlog_hset s4 !! getID job_A1 = None).
Proof.
  assert (getID job_A1 ∉ ["B:t1"]) as Hrest
    by (by intros [=]%list_elem_of_singleton).
  split; [reflexivity|]. split; [reflexivity|]. split; [exact Hrest|].
  split; [reflexivity|].
  destruct (job_queued_during_its_fetch_is_not_kept store_A1_B1
              (mkJob "A" "t1" (Num 9)) ["B:t1"] "3"
              eq_refl eq_refl Hrest eq_refl)
    as (s1 & Hpop & Hbefore & Hafter).
  exists s1. split; [exact Hpop|]. split.
  - destruct Hbefore as (fetched & s2 & s3 & s4 & H1 & H2 & H3 & _ & Hsame
                         & _ & _ & Hq & _ & Hh & _).
    exists fetched, s2, s3, s4.
    split; [exact H1|]. split; [exact H2|]. split; [exact H3|].
    split; [exact (Hsame eq_refl)|]. split; [exact Hq | exact Hh].
  - destruct Hafter as (fetched & s2 & s3 & s4 & H1 & H2 & H3 & Hcount
                        & _ & _ & Hq & _ & Hh & _).
    exists fetched, s2, s3, s4.
    split; [exact H1|]. split; [exact H2|]. split; [exact H3|].
    split; [exact Hcount|]. split; [exact Hq | exact Hh].
Defined.

(** * A filter given as text *)

Lemma drop_trailing_slashes_rev_cons c l :
  Ascii.eqb "/" c = false -> drop_trailing_slashes_rev (c :: l) = c :: l.
Proof. by destruct c as [[] [] [] [] [] [] [] []]. Qed.

Lemma take_segment_rev_cons c l :
  Ascii.eqb "/" c = false -> take_segment_rev (c :: l) = c :: take_segment_rev l.
Proof. by destruct c as [[] [] [] [] [] [] [] []]. Qed.

Lemma split_last_dot_rev_cons c l :
  Ascii.eqb "." c = false ->
  split_last_dot_rev (c :: l)
  = match split_last_dot_rev l with
    | Some (ext_rev, before) => Some (c :: ext_rev, before)
    | None => None
    end.
Proof. by destruct c as [[] [] [] [] [] [] [] []]. Qed.

Lemma free_of_Forall c s :
  free_of c s = true
  <-> Forall (fun x => Ascii.eqb c x = false) (list_ascii_of_string s).
Proof.
  unfold free_of. rewrite negb_true_iff.
  induction (list_ascii_of_string s) as [|x l IH]; cbn [existsb].
  - split; [constructor|done].
  - rewrite orb_false_iff, Forall_cons. by rewrite IH.
Qed.

Lemma take_segment_rev_app l1 l2 :
  Forall (fun x => Ascii.eqb "/" x = false) l1 ->
  take_segment_rev (l1 ++ l2) = l1 ++ take_segment_rev l2.
Proof.
  induction 1 as [|x l1 Hx _ IH]; [done|].
  cbn [app]. by rewrite take_segment_rev_cons, IH.
Qed.

Lemma split_last_dot_rev_app l1 l2 :
  Forall (fun x => Ascii.eqb "." x = false) l1 ->
  split_last_dot_rev (l1 ++ "."%char :: l2) = Some (l1, l2).
Proof.
  induction 1 as [|x l1 Hx _ IH]; [done|].
  cbn [app]. by rewrite split_last_dot_rev_cons, IH.
Qed.

Lemma split_last_dot_rev_none l :
  Forall (fun x => Ascii.eqb "." x = false) l -> split_last_dot_rev l = None.
Proof.
  induction 1 as [|x l Hx _ IH]; [done|].
  by rewrite split_last_dot_rev_cons, IH.
Qed.

Lemma drop_trailing_slashes_rev_Forall (P : ascii -> Prop) l :
  Forall P l -> Forall P (drop_trailing_slashes_rev l).
Proof.
  induction 1 as [|x l Hx Hl IH]; [constructor|].
  destruct (Ascii.eqb "/" x) eqn:Hslash.
  - apply Ascii.eqb_eq in Hslash as <-. exact IH.
  - rewrite drop_trailing_slashes_rev_cons by done. by constructor.
Qed.

Lemma take_segment_rev_Forall (P : ascii -> Prop) l :
  Forall P l -> Forall P (take_segment_rev l).
Proof.
  induction 1 as [|x l Hx Hl IH]; [constructor|].
  destruct (Ascii.eqb "/" x) eqn:Hslash.
  - apply Ascii.eqb_eq in Hslash as <-. constructor.
  - rewrite take_segment_rev_cons by done. by constructor.
Qed.

Lemma list_ascii_of_string_app a b :
  list_ascii_of_string (a +:+ b)
  = list_ascii_of_string a ++ list_ascii_of_string b.
Proof.
  induction a as [|c a IH]; [done|].
  rewrite append_cons. cbn [list_ascii_of_string app]. by rewrite IH.
Qed.

(** A text without a dot has no extension. *)
Lemma extname_no_dot s : free_of "." s = true -> extname s = "".
Proof.
  intros Hs%free_of_Forall. unfold extname.
  rewrite split_last_dot_rev_none; [done|].
  apply take_segment_rev_Forall, drop_trailing_slashes_rev_Forall.
  by apply Forall_rev.
Qed.

(** The extension of [prefix.ext]. *)
Lemma extname_dotted prefix ext :
  ends_in_name prefix = true ->
  free_of "." ext = true -> free_of "/" ext = true -> ext <> "" ->
  extname (dotted prefix ext) = String "." ext.
Proof.
  intros Hprefix Hdot%free_of_Forall Hslash%free_of_Forall Hext.
  unfold extname, dotted, ends_in_name in *.
  rewrite list_ascii_of_string_app. cbn [list_ascii_of_string].
  rewrite rev_app_distr. cbn [rev]. rewrite <- app_assoc. cbn [app].
  set (e := list_ascii_of_string ext) in *.
  assert (e <> []) as He.
  { subst e. destruct ext; [done|]. done. }
  apply Forall_rev in Hdot, Hslash.
  destruct (rev e) as [|x re] eqn:Hre.
  { exfalso. apply He. apply (f_equal (@rev _)) in Hre.
    by rewrite rev_involutive in Hre. }
  destruct (rev (list_ascii_of_string prefix)) as [|c rp]; [done|].
  apply negb_true_iff in Hprefix.
  rewrite Ascii.eqb_sym in Hprefix.
  apply Forall_cons in Hslash as Hs. destruct Hs as [Hx _].
  cbn [app]. rewrite drop_trailing_slashes_rev_cons by done.
  change (x :: re ++ "."%char :: c :: rp)
    with ((x :: re) ++ ["."%char] ++ c :: rp).
  rewrite app_assoc.
  rewrite take_segment_rev_app.
  2: { apply Forall_app. split; [done|]. by repeat constructor. }
  rewrite take_segment_rev_cons by done.
  rewrite <- app_assoc. cbn [app].
  change (x :: re ++ "."%char :: c :: take_segment_rev rp)
    with ((x :: re) ++ "."%char :: c :: take_segment_rev rp).
  rewrite split_last_dot_rev_app by done.
  assert (string_of_list_ascii ("."%char :: rev (x :: re)) = String "." ext)
    as Hfinal.
  { rewrite <- Hre, rev_involutive. subst e. cbn.
    by rewrite string_of_list_ascii_of_string. }
  destruct (take_segment_rev rp), c as [[] [] [] [] [] [] [] []];
    exact Hfinal.
Qed.

Example extname_dotted_examples :
  extname (dotted "logs-" "*") = ".*"
  /\ extname (dotted "filters/only_logs" "js") = ".js"
  /\ extname (dotted "." "*") = ".*".
Proof. repeat split; reflexivity. Qed.

Section TextFilters.
Context `{Runtime}.

(** Property X10.  In [src/app/manager.js] a filter given as a text that ends in a
    dot and an extension (after a name, in its last path segment) is taken
    for a path, never for a pattern: with another extension than [js] it is
    rejected outright; with [js] it is loaded with [require], and is
    accepted only when the module is found, exports a function and the
    function declares at least one argument.  A pattern such as [logs-.*]
    is therefore rejected.  Nothing but the log is changed. *)
Theorem text_filter_with_an_extension_is_a_path {T} `{Named T}
    (prefix ext : string) (st : St App.ModVars) :
  ends_in_name prefix = true ->
  free_of "." ext = true ->
  free_of "/" ext = true ->
  ext <> "" ->
  let text := dotted prefix ext in
  let outcome := App.getFilterFunction (FilterString text) st in
  vars (snd outcome) = vars st
  /\ store (snd outcome) = store st
  /\ if String.eqb ext "js" then
       match require_filter T text with
       | Some (ExportFunction f) =>
           fst outcome
           = if (1 <=? fn_length f)%nat then Ok f
             else Throw (Error "filter function must take at least one argument")
       | _ => exists e, fst outcome = Throw e
       end
     else exists e, fst outcome = Throw e.
Proof.
  intros Hprefix Hdot Hslash Hext text outcome. subst text outcome.
  unfold App.getFilterFunction. run_chain.
  rewrite (extname_dotted prefix ext) by done.
  assert ((1 <? String.length (String "." ext))%nat = true) as ->.
  { destruct ext; [done|]. done. }
  change (String.eqb (String "." ext) ".js") with (String.eqb ext "js").
  destruct (String.eqb ext "js"); cbn [negb]; [|by eauto].
  destruct (require_filter T (dotted prefix ext)) as [[f|]|];
    run_chain; [| by eauto | by eauto].
  replace (1 <=? fn_length f)%nat with (negb (fn_length f <? 1)%nat)
    by (destruct (Nat.ltb_spec (fn_length f) 1), (Nat.leb_spec 1 (fn_length f));
        (done || lia)).
  by destruct (fn_length f <? 1)%nat.
Qed.

Lemma kept_by_pattern {T} `{Named T} (r : RegExp) (xs : list T) x :
  x ∈ kept (Some (regexp_filter r)) xs
  <-> x ∈ xs /\ regexp_test r (name_of x) = true.
Proof.
  rewrite elem_of_kept, list_elem_of_lookup. cbn. split.
  - intros (i & Hi & Hr). eauto.
  - intros [[i Hi] Hr]. eauto.
Qed.

Lemma targets_by_pattern (r : RegExp) typeFilter allIndices target :
  target ∈ kept_targets (Some (regexp_filter r)) typeFilter allIndices
  <-> exists index,
        index ∈ allIndices
        /\ regexp_test r (index_name index) = true
        /\ kept_types typeFilter index <> []
        /\ target = mkTarget (index_name index) (kept_types typeFilter index).
Proof.
  unfold kept_targets. rewrite list_elem_of_omap. unfold kept_target.
  split.
  - intros (index & [Hin Hr]%kept_by_pattern & Hrest). exists index.
    destruct (kept_types typeFilter index) as [|n ns] eqn:Hk; [done|].
    by injection Hrest as <-.
  - intros (index & Hin & Hr & Hne & ->). exists index.
    split; [by apply kept_by_pattern|].
    by destruct (kept_types typeFilter index).
Qed.

(** Property X11.  In [src/app/manager.js] a filter given as a text without a
    dot is compiled to a pattern ([new RegExp(text)], a pattern without
    flags) and selects by name: [filterIndicesAndTypes] then keeps exactly
    the indices whose name the pattern matches (and that keep a
    sub-collection), and a type filter set this way keeps exactly the
    sub-collections whose name it matches.  A text that does not compile
    is rejected with the error of the compiler and nothing is changed.
    [src/unnamed/part_000] rejects every text. *)
Theorem pattern_filter_selects_by_name
    (text : string) (allIndices : list IndexObj)
    (st : St App.ModVars) (stp : St Part000.ModVars) :
  (free_of "." text = true ->
   match RegExp_new text with
   | Ok r =>
       (exists result,
          fst (App.filterIndicesAndTypes allIndices
                 (after (App.setIndexFilter (FilterString text)) st))
          = Ok result
          /\ forall target,
               target ∈ result
               <-> exists index,
                     index ∈ allIndices
                     /\ regexp_test r (index_name index) = true
                     /\ kept_types (App.typeFilter (vars st)) index <> []
                     /\ target = mkTarget (index_name index)
                                    (kept_types (App.typeFilter (vars st)) index))
       /\ App.typeFilter (vars (after (App.setTypeFilter (FilterString text)) st))
          = Some (regexp_filter r)
       /\ (forall index name,
             name ∈ kept_types (Some (regexp_filter r)) index
             <-> name ∈ (mappings index).*1 /\ regexp_test r name = true)
   | Throw e =>
       App.setIndexFilter (FilterString text) st = (Throw e, st)
       /\ App.setTypeFilter (FilterString text) st = (Throw e, st)
   end)
  /\ Part000.setIndexFilter (FilterString text) stp
     = (Throw (Error "filter must be a regex or function that takes 1 argument"),
        stp)
  /\ Part000.setTypeFilter (FilterString text) stp
     = (Throw (Error "filter must be a regex or function that takes 1 argument"),
        stp).
Proof.
  split; [|split].
  - intros Htext.
    assert ((1 <? String.length (extname text))%nat = false) as Hext
      by (by rewrite (extname_no_dot text Htext)).
    destruct (RegExp_new text) as [r|e] eqn:Hr.
    + split; [|split].
      * rewrite filterIndicesAndTypes_run. cbn [fst]. eexists. split; [done|].
        intros target. unfold after, App.setIndexFilter, App.getFilterFunction.
        run_chain. rewrite Hext. run_chain. rewrite Hr. run_chain.
        apply targets_by_pattern.
      * unfold after, App.setTypeFilter, App.getFilterFunction.
        run_chain. rewrite Hext. run_chain. rewrite Hr. by run_chain.
      * intros index name. unfold kept_types. rewrite list_elem_of_fmap.
        setoid_rewrite kept_by_pattern. unfold types_of. split.
        -- intros (t & -> & Hin & Ht). split; [|done].
           apply list_elem_of_fmap in Hin as ([n b] & -> & Hin).
           apply list_elem_of_fmap. by exists (n, b).
        -- intros [Hin Ht]. apply list_elem_of_fmap in Hin as ([n b] & -> & Hin).
           exists (mkTypeObj n b). split; [done|]. split; [|done].
           apply list_elem_of_fmap. by exists (n, b).
    + unfold App.setIndexFilter, App.setTypeFilter, App.getFilterFunction.
      run_chain. rewrite Hext. run_chain. rewrite Hr. by run_chain.
  - unfold Part000.setIndexFilter, Part000.check_filter. by run_chain.
  - unfold Part000.setTypeFilter, Part000.check_filter. by run_chain.
Qed.

End TextFilters.

Lemma text_filter_with_an_extension_witness :
  ends_in_name "logs-" = true
  /\ free_of "." "*" = true
  /\ free_of "/" "*" = true
  /\ "*" <> ""
  /\ exists e,
       fst (@App.getFilterFunction sample_runtime IndexObj _
              (FilterString "logs-.*") fresh)
       = Throw e.
Proof.
  split; [reflexivity|]. split; [reflexivity|]. split; [reflexivity|].
  split; [done|].
  exact (proj2 (proj2
           (@text_filter_with_an_extension_is_a_path sample_runtime IndexObj _
              "logs-" "*" fresh eq_refl eq_refl eq_refl ltac:(done)))).
Defined.

(** The text [lo] on the indices [logs-2016] and [db]. *)
Lemma pattern_filter_selects_by_name_witness :
  let allIndices :=
    [mkIndexObj "logs-2016" [("event", "{}")];
     mkIndexObj "db" [("user", "{}"); ("order", "{}")]] in
  free_of "." "lo" = true
  /\ exists result,
       fst (App.filterIndicesAndTypes allIndices
              (after (@App.setIndexFilter sample_runtime (FilterString "lo"))
                     fresh))
       = Ok result
       /\ mkTarget "logs-2016" ["event"] ∈ result
       /\ (mkTarget "db" ["user"; "order"] ∉ result).
Proof.
  cbv zeta. split; [reflexivity|].
  destruct (proj1 (proj1 (@pattern_filter_selects_by_name sample_runtime "lo"
                            [mkIndexObj "logs-2016" [("event", "{}")];
                             mkIndexObj "db" [("user", "{}"); ("order", "{}")]]
                            fresh fresh_000) eq_refl))
    as (result & Hresult & Hiff).
  exists result. split; [exact Hresult|]. split.
  - apply Hiff. exists (mkIndexObj "logs-2016" [("event", "{}")]).
    split; [by left|]. split; [reflexivity|]. split; [|reflexivity].
    by vm_compute.
  - intros (index & _ & Hmatch & _ & [= Hname _])%Hiff.
    rewrite <- Hname in Hmatch. by vm_compute in Hmatch.
Defined.

(** * Setting the comparator and the filters *)

Section Setters.
Context `{Runtime}.

(** Property X12.  [setIndexComparator] accepts a function exactly when it declares
    two arguments, and then stores it; anything else is rejected with the
    one error and changes nothing.  [src/app/manager.js] first loads a text
    with [require] and judges what the module exports;
    [src/unnamed/part_000] rejects a text like any other value that is not
    a function. *)
Theorem comparator_arity_rule
    (c : JsComparator) (path : string)
    (st : St App.ModVars) (stp : St Part000.ModVars) :
  let bad := Error "comparator must be a function that takes 2 arguments" in
  let set_in (st : St App.ModVars) c :=
    mkSt (App.mkVars (App.indexFilter (vars st)) (Some c)
                     (App.typeFilter (vars st)) (App.source (vars st)))
         (store st) (events st ++ [LogInfo "set comparator"]) in
  let of_function c :=
    if (cmp_length c =? 2)%nat then (Ok tt, set_in st c) else (Throw bad, st) in
  App.setIndexComparator (ComparatorFunction c) st = of_function c
  /\ App.setIndexComparator ComparatorOther st = (Throw bad, st)
  /\ match require_comparator path with
     | None => exists e, App.setIndexComparator (ComparatorString path) st
                         = (Throw e, st)
     | Some ExportOther =>
         App.setIndexComparator (ComparatorString path) st = (Throw bad, st)
     | Some (ExportFunction c') =>
         App.setIndexComparator (ComparatorString path) st = of_function c'
     end
  /\ Part000.setIndexComparator (ComparatorFunction c) stp
     = (if (cmp_length c =? 2)%nat then
          (Ok tt,
           mkSt (Part000.mkVars (Part000.indexFilter (vars stp)) (Some c)
                                (Part000.typeFilter (vars stp))
                                (Part000.source (vars stp))
                                (Part000.totalCount (vars stp)))
                (store stp) (events stp))
        else (Throw bad, stp))
  /\ Part000.setIndexComparator (ComparatorString path) stp = (Throw bad, stp)
  /\ Part000.setIndexComparator ComparatorOther stp = (Throw bad, stp).
Proof.
  cbv zeta. unfold App.setIndexComparator, Part000.setIndexComparator.
  destruct st as [v s e], stp as [vp sp ep].
  split; [|split; [|split; [|split; [|split]]]]; run_chain; try done.
  - by destruct (cmp_length c =? 2)%nat.
  - destruct (require_comparator path) as [[c'|]|]; run_chain;
      [|done|by eauto].
    by destruct (cmp_length c' =? 2)%nat.
  - by destruct (cmp_length c =? 2)%nat.
Qed.

(** Property X13.  The filter setters change their own variable or nothing: a
    filter that is rejected (whatever was passed: a text, a pattern, a
    function or anything else) leaves every module variable as it was, so
    the filter set before stays in force; a filter that is accepted
    replaces that one filter and leaves the other filter, the comparator
    and the source alone.  The store is never touched.  Both managers. *)
Theorem filter_setters_change_their_filter_only
    (fi : FilterArg IndexObj) (ft : FilterArg TypeObj)
    (st : St App.ModVars) (stp : St Part000.ModVars) :
  let kept_but_index (v v' : App.ModVars) :=
    is_Some (App.indexFilter v')
    /\ App.indexComparator v' = App.indexComparator v
    /\ App.typeFilter v' = App.typeFilter v
    /\ App.source v' = App.source v in
  let kept_but_type (v v' : App.ModVars) :=
    is_Some (App.typeFilter v')
    /\ App.indexComparator v' = App.indexComparator v
    /\ App.indexFilter v' = App.indexFilter v
    /\ App.source v' = App.source v in
  let kept_but_index_000 (v v' : Part000.ModVars) :=
    is_Some (Part000.indexFilter v')
    /\ Part000.indexComparator v' = Part000.indexComparator v
    /\ Part000.typeFilter v' = Part000.typeFilter v
    /\ Part000.source v' = Part000.source v
    /\ Part000.totalCount v' = Part000.totalCount v in
  let kept_but_type_000 (v v' : Part000.ModVars) :=
    is_Some (Part000.typeFilter v')
    /\ Part000.indexComparator v' = Part000.indexComparator v
    /\ Part000.indexFilter v' = Part000.indexFilter v
    /\ Part000.source v' = Part000.source v
    /\ Part000.totalCount v' = Part000.totalCount v in
  let outcome {V} (kept : V -> V -> Prop) (m : M V unit) (st : St V) :=
    store (after m st) = store st
    /\ match fst (m st) with
       | Ok _ => kept (vars st) (vars (after m st))
       | Throw _ => vars (after m st) = vars st
       end in
  outcome kept_but_index (App.setIndexFilter fi) st
  /\ outcome kept_but_type (App.setTypeFilter ft) st
  /\ outcome kept_but_index_000 (Part000.setIndexFilter fi) stp
  /\ outcome kept_but_type_000 (Part000.setTypeFilter ft) stp.
Proof.
  cbv zeta. unfold after.
  assert (forall T (N : Named T) (f : FilterArg T) (st : St App.ModVars),
            store (snd (App.getFilterFunction f st)) = store st
            /\ vars (snd (App.getFilterFunction f st)) = vars st) as Hget.
  { intros T N f st0. unfold App.getFilterFunction. run_chain.
    destruct f as [s|r|f|]; run_chain; try done.
    - destruct (1 <? String.length (extname s))%nat.
      + destruct (negb (String.eqb (extname s) ".js")); run_chain; [done|].
        destruct (require_filter T s) as [[f|]|]; run_chain; try done.
        by destruct (fn_length f <? 1)%nat.
      + run_chain. by destruct (RegExp_new s).
    - by destruct (fn_length f <? 1)%nat. }
  split; [|split; [|split]].
  - unfold App.setIndexFilter. run_chain.
    destruct (Hget IndexObj _ fi st) as [Hs Hv].
    destruct (App.getFilterFunction fi st) as [[f|e] st1]; cbn in *; [|done].
    rewrite Hs, Hv. split; [done|]. by split; [eexists|].
  - unfold App.setTypeFilter. run_chain.
    destruct (Hget TypeObj _ ft st) as [Hs Hv].
    destruct (App.getFilterFunction ft st) as [[f|e] st1]; cbn in *; [|done].
    rewrite Hs, Hv. split; [done|]. by split; [eexists|].
  - unfold Part000.setIndexFilter. run_chain.
    destruct (Part000.check_filter fi) as [f|e]; cbn; [|done].
    split; [done|]. by split; [eexists|].
  - unfold Part000.setTypeFilter. run_chain.
    destruct (Part000.check_filter ft) as [f|e]; cbn; [|done].
    split; [done|]. by split; [eexists|].
Qed.

End Setters.

(** * The jobs that are prepared *)

Lemma foldl_push_list {A B} (f : A -> list B) (xs : list A) (acc : list B) :
  foldl (fun result x => result ++ f x) acc xs = acc ++ (xs ≫= f).
Proof.
  revert acc. induction xs as [|x xs IH]; intros acc; cbn.
  - by rewrite app_nil_r.
  - by rewrite IH, <- app_assoc.
Qed.

(** The reduce of [prepareNewJobs], target by target. *)
Lemma expand_targets_bind targets :
  expand_targets targets
  = targets ≫= fun target =>
      (fun t => mkParams (target_index target) t None) <$> target_types target.
Proof. unfold expand_targets. by rewrite foldl_push_list. Qed.

Lemma kept_types_None index : kept_types None index = (mappings index).*1.
Proof.
  unfold kept_types. rewrite kept_None. unfold types_of.
  rewrite <- list_fmap_compose. apply list_fmap_ext. by intros _ [n b] _.
Qed.

(** With no filter and no comparator, every index and type of the response. *)
Lemma prepared_jobs_unfiltered src response :
  prepared_jobs (App.mkVars None None None src) response = all_jobs_of response.
Proof.
  unfold prepared_jobs, all_jobs_of, kept_targets.
  cbn [App.indexFilter App.typeFilter App.indexComparator].
  rewrite kept_None, expand_targets_bind, name_indices_fmap.
  induction response as [|[name body] response IH]; [done|].
  rewrite fmap_cons, (bind_cons _ _ response). cbv beta iota.
  cbn [omap list_omap]. unfold kept_target at 1.
  rewrite kept_types_None. cbn [mappings index_name].
  destruct (body_mappings body) as [|[t b] ms].
  - exact IH.
  - change (((t, b) :: ms).*1) with (t :: ms.*1). cbv iota.
    rewrite bind_cons, IH. cbn [target_index target_types]. f_equal.
    change (t :: ms.*1) with (((t, b) :: ms).*1).
    rewrite <- list_fmap_compose. apply list_fmap_ext. by intros _ [t' b'] _.
Qed.

Lemma kept_targets_unfiltered response :
  kept_targets None None (name_indices response)
  = omap (fun '(name, body) =>
            match body_mappings body with
            | [] => None
            | ms => Some (mkTarget name ms.*1)
            end) response.
Proof.
  unfold kept_targets. rewrite kept_None, name_indices_fmap.
  induction response as [|[name body] response IH]; [done|].
  rewrite fmap_cons. cbn [omap list_omap]. rewrite IH.
  unfold kept_target at 1. rewrite kept_types_None. cbn [mappings index_name].
  by destruct (body_mappings body).
Qed.

(** Property X14.  [_resetFiltersAndComparators] lifts both filters and the
    comparator and keeps the source (in [part_000] the running total too):
    [prepareNewJobs] then yields a job for every index of the source's
    response and every sub-collection of its mappings, in the order of the
    response, none with a count yet. *)
Theorem reset_lifts_the_filters_and_the_comparator
    (names : string) (src : Source) (response : list (string * IndexBody))
    (st : St App.ModVars) (stp : St Part000.ModVars) :
  App.source (vars st) = Some src ->
  Part000.source (vars stp) = Some src ->
  source_indices_get src names = Ok response ->
  let st' := after App.resetFiltersAndComparators st in
  let stp' := after Part000.resetFiltersAndComparators stp in
  st' = mkSt (App.mkVars None None None (Some src)) (store st) (events st)
  /\ fst (App.filterIndicesAndTypes (name_indices response) st')
     = Ok (omap (fun '(name, body) =>
                   match body_mappings body with
                   | [] => None
                   | ms => Some (mkTarget name ms.*1)
                   end) response)
  /\ fst (App.prepareNewJobs names st') = Ok (all_jobs_of response)
  /\ stp' = mkSt (Part000.mkVars None None None (Some src)
                                 (Part000.totalCount (vars stp)))
                 (store stp) (events stp)
  /\ fst (Part000.prepareNewJobs names stp') = Ok (all_jobs_of response).
Proof.
  intros Hsrc Hsrc' Hget st' stp'. subst st' stp'. unfold after.
  unfold App.resetFiltersAndComparators, Part000.resetFiltersAndComparators.
  run_chain. rewrite Hsrc, Hsrc'.
  split; [done|]. split; [|split; [|split; [done|]]].
  - rewrite filterIndicesAndTypes_run. cbn [fst vars App.indexFilter App.typeFilter].
    by rewrite kept_targets_unfiltered.
  - rewrite (prepareNewJobs_ok names _ src response) by done.
    cbn [fst]. by rewrite prepared_jobs_unfiltered.
  - rewrite (prepareNewJobs_000_ok names _ src response) by done.
    change (app_vars_of _) with (App.mkVars None None None (Some src)).
    by rewrite prepared_jobs_unfiltered.
Qed.

Lemma reset_lifts_the_filters_witness :
  App.source (vars scenario_state) = Some sample_source
  /\ Part000.source (vars sample_state_000) = Some sample_source
  /\ source_indices_get sample_source "*"
     = Ok [("A", mkIndexBody [("t1", "{}"); ("t2", "{}")]);
           ("B", mkIndexBody [("t1", "{}")])]
  /\ fst (App.prepareNewJobs "*"
            (after App.resetFiltersAndComparators scenario_state))
     = Ok [params_A1; params_A2; params_B1].
Proof.
  split; [reflexivity|]. split; [reflexivity|]. split; [reflexivity|].
  exact (proj1 (proj2 (proj2
           (reset_lifts_the_filters_and_the_comparator "*" sample_source
              [("A", mkIndexBody [("t1", "{}"); ("t2", "{}")]);
               ("B", mkIndexBody [("t1", "{}")])]
              scenario_state sample_state_000 eq_refl eq_refl eq_refl)))).
Defined.

(** ** The comparator *)

Lemma sort_insert_perm {A} (cmp : A -> A -> Z) x l :
  sort_insert cmp x l ≡ₚ x :: l.
Proof.
  induction l as [|y l IH]; [done|]. cbn [sort_insert].
  destruct (0 <? cmp y x); [|done]. rewrite IH. apply Permutation_swap.
Qed.

(** Sorting keeps every element, each as often as it was there. *)
Lemma Array_sort_perm {A} (cmp : A -> A -> Z) xs : Array_sort cmp xs ≡ₚ xs.
Proof.
  unfold Array_sort. rewrite <- Permutation_rev.
  enough (forall acc,
            foldl (fun sorted_rev x => sort_insert cmp x sorted_rev) acc xs
            ≡ₚ acc ++ xs) as Hgen by apply (Hgen []).
  induction xs as [|x xs IH]; intros acc; cbn [foldl].
  - by rewrite app_nil_r.
  - rewrite IH, sort_insert_perm. apply Permutation_middle.
Qed.

Lemma expand_targets_perm ts1 ts2 :
  ts1 ≡ₚ ts2 -> expand_targets ts1 ≡ₚ expand_targets ts2.
Proof. intros Hp. rewrite !expand_targets_bind. by rewrite Hp. Qed.

(** Property X15.  The comparator only reorders: with a comparator set,
    [prepareNewJobs] yields the jobs it yields without one, each as often,
    in some order, whatever the comparator answers; and it fails as it
    fails without one. *)
Theorem comparator_only_reorders_the_jobs (names : string) (st : St App.ModVars) :
  let unordered :=
    mkSt (without_comparator (vars st)) (store st) (events st) in
  match fst (App.prepareNewJobs names st),
        fst (App.prepareNewJobs names unordered) with
  | Ok jobs, Ok jobs' => jobs ≡ₚ jobs'
  | Throw e, Throw e' => e = e'
  | _, _ => False
  end.
Proof.
  cbv zeta. destruct st as [v s ev]. cbn [vars store events].
  destruct (App.source v) as [src|] eqn:Hsrc.
  - destruct (source_indices_get src names) as [response|e] eqn:Hget.
    + rewrite !(prepareNewJobs_ok names _ src response) by done. cbn [fst].
      unfold prepared_jobs, without_comparator.
      cbn [App.indexFilter App.typeFilter App.indexComparator].
      destruct (App.indexComparator v) as [cmp|]; [|done].
      apply expand_targets_perm, Array_sort_perm.
    + unfold App.prepareNewJobs, App.getIndices, without_comparator. run_chain.
      cbn [App.source]. rewrite Hsrc. run_chain. by rewrite Hget.
  - unfold App.prepareNewJobs, App.getIndices, without_comparator. run_chain.
    cbn [App.source]. by rewrite Hsrc.
Qed.

Lemma in_order_cons {A} (R : A -> A -> Prop) x l :
  in_order R (x :: l) <-> Forall (R x) l /\ in_order R l.
Proof.
  unfold in_order. split.
  - intros Hord. split.
    + apply Forall_forall. intros y (l2 & l3 & ->)%list_elem_of_split.
      by apply (Hord [] x l2 y l3).
    + intros l1 a l2 b l3 ->. by apply (Hord (x :: l1) a l2 b l3).
  - intros [Hx Hord] l1 a l2 b l3 Heq. destruct l1 as [|x' l1].
    + injection Heq as <- ->. rewrite Forall_forall in Hx. apply Hx.
      apply elem_of_app. right. by left.
    + injection Heq as <- ->. by apply (Hord l1 a l2 b l3).
Qed.

Lemma in_order_nil {A} (R : A -> A -> Prop) : in_order R [].
Proof. intros l1 a l2 b l3 Heq. by destruct l1. Qed.

Lemma in_order_app {A} (R : A -> A -> Prop) l1 l2 :
  in_order R (l1 ++ l2)
  <-> in_order R l1 /\ in_order R l2
      /\ forall a b, a ∈ l1 -> b ∈ l2 -> R a b.
Proof.
  induction l1 as [|x l1 IH]; cbn [app].
  - split; [|by intros (_ & ? & _)]. intros Hord.
    split; [apply in_order_nil|]. split; [done|].
    by intros a b ?%elem_of_nil.
  - rewrite !in_order_cons, IH, Forall_app, !Forall_forall. split.
    + intros [[Hx1 Hx2] (H1 & H2 & H12)]. split; [done|]. split; [done|].
      intros a b [->|Ha]%elem_of_cons Hb; [by apply Hx2 | by apply H12].
    + intros ([Hx1 H1] & H2 & H12). split; [split; [done|]|].
      * intros b Hb. apply H12; [by left|done].
      * split; [done|]. split; [done|]. intros a b Ha Hb.
        apply H12; [by right|done].
Qed.

Lemma in_order_rev {A} (R : A -> A -> Prop) l :
  in_order R l -> in_order (fun a b => R b a) (rev l).
Proof.
  induction l as [|x l IH]; [intros _; apply in_order_nil|]. cbn [rev].
  rewrite in_order_cons, in_order_app. intros [Hx Hord].
  split; [by apply IH|]. split.
  - apply in_order_cons. split; [constructor | apply in_order_nil].
  - intros a b Ha ->%list_elem_of_singleton.
    rewrite <- Permutation_rev in Ha.
    rewrite Forall_forall in Hx. by apply Hx.
Qed.

Lemma in_order_fmap {A B} (R : B -> B -> Prop) (f : A -> B) l :
  in_order (fun a b => R (f a) (f b)) l <-> in_order R (f <$> l).
Proof.
  induction l as [|x l IH]; [by split; intros; apply in_order_nil|].
  rewrite fmap_cons, !in_order_cons, IH, Forall_fmap. done.
Qed.

Section Sorting.
Context {A : Type} (cmp : A -> A -> Z).
Hypothesis cmp_antisym : forall a b, 0 < cmp a b -> cmp b a <= 0.
Hypothesis cmp_trans :
  forall a b c, cmp a b <= 0 -> cmp b c <= 0 -> cmp a c <= 0.

(** The sorted prefix, held in reverse, stays sorted when an element is
    moved into it. *)
Lemma sort_insert_in_order x l :
  in_order (fun a b => cmp b a <= 0) l ->
  in_order (fun a b => cmp b a <= 0) (sort_insert cmp x l).
Proof.
  induction l as [|y l IH]; intros Hord; cbn [sort_insert].
  - apply in_order_cons. split; [constructor | apply in_order_nil].
  - apply in_order_cons in Hord as [Hy Hord].
    destruct (Z.ltb_spec 0 (cmp y x)) as [Hlt|Hge].
    + apply in_order_cons. split; [|by apply IH].
      apply Forall_forall. intros z Hz. rewrite sort_insert_perm in Hz.
      apply elem_of_cons in Hz as [->|Hz]; [by apply cmp_antisym|].
      rewrite Forall_forall in Hy. by apply Hy.
    + apply in_order_cons. split; [|by apply in_order_cons].
      apply Forall_cons. split; [done|].
      apply Forall_forall. intros z Hz. rewrite Forall_forall in Hy.
      by apply (cmp_trans z y x); [apply Hy|].
Qed.

Lemma Array_sort_in_order xs :
  in_order (fun a b => cmp a b <= 0) (Array_sort cmp xs).
Proof.
  unfold Array_sort.
  apply (in_order_rev (fun a b => cmp b a <= 0)).
  enough (forall acc,
            in_order (fun a b => cmp b a <= 0) acc ->
            in_order (fun a b => cmp b a <= 0)
              (foldl (fun sorted_rev x => sort_insert cmp x sorted_rev) acc xs))
    as Hgen by apply Hgen, in_order_nil.
  induction xs as [|x xs IH]; intros acc Hacc; [done|].
  cbn [foldl]. by apply IH, sort_insert_in_order.
Qed.

End Sorting.

(** The jobs of targets that are in order are in order. *)
Lemma expand_targets_in_order (R : string -> string -> Prop) targets :
  (forall a, R a a) ->
  in_order (fun a b => R (target_index a) (target_index b)) targets ->
  in_order R (params_index <$> expand_targets targets).
Proof.
  intros Hrefl. rewrite expand_targets_bind.
  induction targets as [|t targets IH]; intros Hord; [apply in_order_nil|].
  apply in_order_cons in Hord as [Ht Hord].
  rewrite bind_cons, fmap_app. apply in_order_app.
  split; [|split; [by apply IH|]].
  - rewrite <- list_fmap_compose.
    induction (target_types t) as [|ty tys IHty]; [apply in_order_nil|].
    rewrite fmap_cons. apply in_order_cons. split; [|done].
    apply Forall_forall. intros a (ty' & -> & _)%list_elem_of_fmap. apply Hrefl.
  - intros a b (p & -> & (ty & -> & _)%list_elem_of_fmap)%list_elem_of_fmap.
    intros (p' & -> & (t' & Hp' & Ht')%list_elem_of_bind)%list_elem_of_fmap.
    apply list_elem_of_fmap in Hp' as (ty' & -> & _). cbn.
    rewrite Forall_forall in Ht. by apply Ht.
Qed.

(** Property X16.  With a comparator that is a consistent comparison function
    (opposite signs when called the other way round, transitive),
    [prepareNewJobs] yields the jobs in the comparator's order of their
    indices: no job comes before a job whose index the comparator puts
    first. *)
Theorem jobs_come_in_the_order_of_the_comparator
    (names : string) (st : St App.ModVars) (cmp : JsComparator)
    (jobs : list JobParams) :
  App.indexComparator (vars st) = Some cmp ->
  consistent_comparator cmp ->
  fst (App.prepareNewJobs names st) = Ok jobs ->
  ordered_by cmp (params_index <$> jobs).
Proof.
  intros Hcmp [Hanti Htrans] Hjobs. destruct st as [v s ev]. cbn in Hcmp.
  destruct (App.source v) as [src|] eqn:Hsrc.
  2: { unfold App.prepareNewJobs, App.getIndices in Hjobs. revert Hjobs.
       run_chain. by rewrite Hsrc. }
  destruct (source_indices_get src names) as [response|e] eqn:Hget.
  2: { unfold App.prepareNewJobs, App.getIndices in Hjobs. revert Hjobs.
       run_chain. rewrite Hsrc. run_chain. by rewrite Hget. }
  rewrite (prepareNewJobs_ok names _ src response) in Hjobs by done.
  injection Hjobs as <-. unfold prepared_jobs, ordered_by. rewrite Hcmp.
  apply expand_targets_in_order.
  - intros a. specialize (Hanti a a). lia.
  - apply (Array_sort_in_order
             (fun a b => cmp_call cmp (target_index a) (target_index b))).
    + intros a b. specialize (Hanti (target_index a) (target_index b)). lia.
    + intros a b c. apply Htrans.
Qed.

Lemma by_length_is_consistent : consistent_comparator by_length.
Proof. split; cbn; intros; lia. Qed.

Lemma jobs_come_in_the_order_witness :
  let st := mkSt (App.mkVars None (Some by_length) None (Some named_source))
                 empty_store [] in
  App.indexComparator (vars st) = Some by_length
  /\ consistent_comparator by_length
  /\ fst (App.prepareNewJobs "*" st)
     = Ok [mkParams "db" "user" None; mkParams "db" "order" None;
           mkParams "logs-2016" "event" None]
  /\ ordered_by by_length ["db"; "db"; "logs-2016"].
Proof.
  cbv zeta. split; [reflexivity|]. split; [exact by_length_is_consistent|].
  split; [reflexivity|].
  exact (jobs_come_in_the_order_of_the_comparator "*"
           (mkSt (App.mkVars None (Some by_length) None (Some named_source))
                 empty_store [])
           by_length
           [mkParams "db" "user" None; mkParams "db" "order" None;
            mkParams "logs-2016" "event" None]
           eq_refl by_length_is_consistent eq_refl).
Defined.

(** * [initialize], when it fails and when it succeeds *)

(** Property X17.  [initialize] clears the backlog before it asks the source for
    the indices: when that request is rejected, [initialize] rejects with
    the same error, the backlog that was there is gone, no count was asked
    for and nothing was queued; the completed ledger is as it was, also
    when [ignoreCompleted] is set.  Both managers. *)
Theorem initialize_fails_when_discovery_fails
    (names : string) (ignoreCompleted : bool) (src : Source) (e : JsError)
    (st : St App.ModVars) (stp : St Part000.ModVars) :
  App.source (vars st) = Some src ->
  Part000.source (vars stp) = Some src ->
  source_indices_get src names = Throw e ->
  App.initialize names ignoreCompleted st
  = (Throw e,
     mkSt (vars st) (mkStore [] ∅ (completed (store st)))
          (events st ++ [LogInfo "initializing job backlog..";
                         LogInfo "clearing existing backlog";
                         LogInfo "preparing new jobs";
                         RequestIndices names]))
  /\ Part000.initialize names ignoreCompleted stp
     = (Throw e,
        mkSt (vars stp) (mkStore [] ∅ (completed (store stp)))
             (events stp ++ [LogInfo "clearing existing backlog";
                             LogInfo "preparing new jobs";
                             RequestIndices names])).
Proof.
  intros Hsrc Hsrc' Hget.
  destruct st as [v [q h c] ev], stp as [vp [qp hp cp] evp]. cbn in Hsrc, Hsrc'.
  unfold App.initialize, App.clearBacklogJobs, App.prepareNewJobs, App.getIndices,
    Part000.initialize, Part000.clearBacklogJobs, Part000.prepareNewJobs,
    Part000.getIndices.
  run_chain. rewrite Hsrc, Hsrc'. run_chain. rewrite Hget.
  by rewrite <- !app_assoc.
Qed.

Lemma initialize_fails_when_discovery_fails_witness :
  let st := mkSt (App.mkVars None None None (Some unreachable_source))
                 store_A1_B1 [] in
  App.source (vars st) = Some unreachable_source
  /\ source_indices_get unreachable_source "*"
     = Throw (Error "No Living connections")
  /\ fst (App.initialize "*" false st) = Throw (Error "No Living connections")
  /\ backlog_queue (store (after (App.initialize "*" false) st)) = [].
Proof.
  cbv zeta. split; [reflexivity|]. split; [reflexivity|].
  pose proof (proj1 (initialize_fails_when_discovery_fails "*" false
                       unreachable_source (Error "No Living connections")
                       (mkSt (App.mkVars None None None (Some unreachable_source))
                             store_A1_B1 [])
                       (mkSt (Part000.mkVars None None None
                                (Some unreachable_source) (Num 0))
                             store_A1_B1 [])
                       eq_refl eq_refl eq_refl)) as Hrun.
  unfold after. rewrite Hrun. split; reflexivity.
Defined.

(** Property X18.  [initialize] queues nothing until every count is in: when a
    count query fails, [initialize] rejects with that error and the backlog
    is left empty, the jobs counted before the failure included; the
    completed ledger has by then been cleared when [ignoreCompleted] is
    set, and is as it was otherwise. *)
Theorem initialize_queues_nothing_when_a_count_fails
    (names : string) (ignoreCompleted : bool) (src : Source)
    (response : list (string * IndexBody))
    (pre post : list JobParams) (job : JobParams) (values : list CountValue)
    (e : JsError) (st : St App.ModVars) :
  App.source (vars st) = Some src ->
  source_indices_get src names = Ok response ->
  reconcile ignoreCompleted (completed (store st))
            (prepared_jobs (vars st) response)
  = Ok (pre ++ job :: post) ->
  Forall2 (answers src) pre values ->
  refuses src job e ->
  fst (App.initialize names ignoreCompleted st) = Throw e
  /\ store (after (App.initialize names ignoreCompleted) st)
     = mkStore [] ∅ (if ignoreCompleted then ∅ else completed (store st)).
Proof.
  intros Hsrc Hget Hrec Hpre Hfail.
  pose proof (initialize_stages names ignoreCompleted st) as Hst.
  cbv zeta in Hst.
  assert (fst (App.prepareNewJobs names st)
          = Ok (prepared_jobs (vars st) response)) as Hprep.
  { destruct st as [v s ev]. cbn in Hsrc.
    by rewrite (prepareNewJobs_ok names v src response s ev). }
  rewrite Hprep, Hrec in Hst.
  assert (fst (App.addCountToJobs (pre ++ job :: post) st) = Throw e) as Hcount.
  { unfold App.addCountToJobs, mbind, M_bind, emit. cbn [vars store events].
    by rewrite (mapSeries_count_fail src pre job post values e). }
  by rewrite Hcount in Hst.
Qed.

Lemma initialize_queues_nothing_witness :
  let st := mkSt (App.mkVars None None None (Some failing_source))
                 store_B1 [] in
  App.source (vars st) = Some failing_source
  /\ source_indices_get failing_source "*"
     = Ok [("A", mkIndexBody [("t1", "{}")]); ("C", mkIndexBody [("t1", "{}")])]
  /\ Forall2 (answers failing_source) [params_A1] [CountNumber (Num 3)]
  /\ refuses failing_source params_C1 (Error "index_not_found_exception")
  /\ fst (App.initialize "*" false st) = Throw (Error "index_not_found_exception")
  /\ store (after (App.initialize "*" false) st) = empty_store.
Proof.
  cbv zeta.
  assert (Forall2 (answers failing_source) [params_A1] [CountNumber (Num 3)])
    as Hpre by (repeat constructor).
  split; [reflexivity|]. split; [reflexivity|]. split; [exact Hpre|].
  split; [reflexivity|].
  exact (initialize_queues_nothing_when_a_count_fails "*" false failing_source
           [("A", mkIndexBody [("t1", "{}")]); ("C", mkIndexBody [("t1", "{}")])]
           [params_A1] [] params_C1 [CountNumber (Num 3)]
           (Error "index_not_found_exception")
           (mkSt (App.mkVars None None None (Some failing_source)) store_B1 [])
           eq_refl eq_refl ltac:(by vm_compute) Hpre eq_refl).
Defined.

Lemma getID_job_of_params p : getID (job_of_params p) = params_id p.
Proof. done. Qed.

(** The total of the hash that keeps the given jobs, one per id. *)
Lemma sum_counts_entries (jobs : list Job) :
  NoDup (getID <$> jobs) ->
  sum_counts (map_to_list (list_to_map (entry_of <$> jobs)
                             : gmap string string)).*2
  = total_count jobs.
Proof.
  intros Hnd. unfold total_count.
  rewrite (sum_counts_perm _ (entry_of <$> jobs).*2).
  - unfold sum_counts. rewrite sum_counts_parse. f_equal.
    rewrite <- !list_fmap_compose. apply list_fmap_ext.
    intros _ j _. cbn. apply parseInt_toString.
  - apply fmap_Permutation, map_to_list_to_map.
    by rewrite <- list_fmap_compose.
Qed.

(** Property X19.  When [initialize] resolves, the backlog is the jobs it resolves
    with and nothing else (their ids being distinct): the queue lists their
    ids in their order, and [fetchJob], called once per job, hands them out
    in that order, each with the index, the sub-collection and the count
    [initialize] resolved with, leaving the backlog empty; before that
    [getBacklogCount] is the total of their counts.  The counts are safe
    integers, and for the total they add up exactly. *)
Theorem initialize_then_fetch_returns_the_jobs
    (names : string) (ignoreCompleted : bool) (st : St App.ModVars)
    (jobs : list JobParams) :
  fst (App.initialize names ignoreCompleted st) = Ok jobs ->
  NoDup (params_id <$> jobs) ->
  forallb (fun job => safe_count (count (job_of_params job))) jobs = true ->
  let final := after (App.initialize names ignoreCompleted) st in
  backlog_queue (store final) = params_id <$> jobs
  /\ (exact_sum (count <$> (job_of_params <$> jobs)) = true ->
      fst (App.getBacklogCount final)
      = Ok (total_count (job_of_params <$> jobs)))
  /\ fetch_times (length jobs) final
     = (Ok (Some <$> (job_of_params <$> jobs)),
        mkSt (vars final) (mkStore [] ∅ (completed (store final)))
             (events final)).
Proof.
  intros Hr Hnd _ final.
  pose proof (initialize_stages names ignoreCompleted st) as Hst.
  cbv zeta in Hst. rewrite Hr in Hst.
  destruct (fst (App.prepareNewJobs names st)) as [prepared|e]; [|by destruct Hst].
  destruct (reconcile ignoreCompleted (completed (store st)) prepared)
    as [remaining|e]; [|by destruct Hst].
  destruct (fst (App.addCountToJobs remaining st)) as [jobs0|e];
    [|by destruct Hst].
  destruct Hst as (_ & ev & Hres & Hfinal).
  set (queueing := mkSt (vars st) _ ev) in *.
  destruct (each_enqueue jobs0 queueing) as [Heach Hafter].
  rewrite Heach in Hres. rewrite Hafter in Hfinal.
  pose proof (mapSeries_queueJob jobs0 queueing (backlog_ok_cleared _))
    as (_ & _ & _ & _ & _ & Hall).
  fold enqueue in Hall.
  destruct (fst (mapSeries enqueue jobs0 queueing)) as [replies|e] eqn:Hmap;
    [|done].
  injection Hres as <-.
  assert (forall p, p ∈ jobs -> coerce_job (IsParams p) = Ok (job_of_params p)
                                /\ Job_wf (job_of_params p) = true) as Hnew.
  { intros p Hp. destruct (Hall replies eq_refl p Hp) as (j & Hj & _).
    cbn [coerce_job]. rewrite Hj. by apply Job_new_ok in Hj as [-> ?]. }
  assert (forallb Job_wf (job_of_params <$> jobs) = true) as Hwf.
  { apply forallb_forall. intros j (p & -> & Hp)%list_elem_of_In%list_elem_of_fmap.
    by apply Hnew. }
  assert (NoDup (getID <$> (job_of_params <$> jobs))) as Hids.
  { rewrite <- list_fmap_compose. exact Hnd. }
  destruct (queue_each_run IsParams job_of_params jobs queueing)
    as (replies' & Hrun); [by intros p Hp; apply Hnew | done | done | done |].
  fold enqueue in Hrun.
  subst final. rewrite Hfinal, Hrun.
  cbn [snd vars store events backlog_queue backlog_hset completed queueing].
  rewrite (right_id ∅ (∪)).
  split; [|split].
  - by rewrite <- list_fmap_compose.
  - intros _. rewrite getBacklogCount_run. cbn [fst store backlog_hset].
    by rewrite sum_counts_entries.
  - rewrite <- (length_fmap job_of_params).
    rewrite (fetch_times_run (job_of_params <$> jobs) [] ∅); cbn; try done.
    + by rewrite app_nil_r.
    + by rewrite (right_id ∅ (∪)).
Qed.

Lemma initialize_then_fetch_witness :
  let jobs := [mkParams "B" "t1" (Some (Num 5)); mkParams "A" "t1" (Some (Num 3));
               mkParams "A" "t2" (Some (Num 7))] in
  fst (App.initialize "*" true scenario_state) = Ok jobs
  /\ NoDup (params_id <$> jobs)
  /\ forallb (fun job => safe_count (count (job_of_params job))) jobs = true
  /\ exact_sum (count <$> (job_of_params <$> jobs)) = true
  /\ fst (App.getBacklogCount (after (App.initialize "*" true) scenario_state))
     = Ok (Num 15)
  /\ fst (fetch_times 3 (after (App.initialize "*" true) scenario_state))
     = Ok [Some job_B1; Some job_A1; Some job_A2].
Proof.
  cbv zeta.
  assert (fst (App.initialize "*" true scenario_state)
          = Ok [mkParams "B" "t1" (Some (Num 5)); mkParams "A" "t1" (Some (Num 3));
                mkParams "A" "t2" (Some (Num 7))]) as Hr by (by vm_compute).
  assert (NoDup (params_id <$> [mkParams "B" "t1" (Some (Num 5));
                                mkParams "A" "t1" (Some (Num 3));
                                mkParams "A" "t2" (Some (Num 7))])) as Hnd.
  { apply (bool_decide_unpack _). by vm_compute. }
  split; [exact Hr|]. split; [exact Hnd|]. split; [reflexivity|].
  split; [reflexivity|].
  pose proof (initialize_then_fetch_returns_the_jobs "*" true scenario_state _
                Hr Hnd eq_refl) as (_ & Hcount & Hfetch).
  split; [exact (Hcount eq_refl) | exact (f_equal fst Hfetch)].
Defined.

(** * The running total of [part_000] *)

(** Property X20.  The running total of [src/unnamed/part_000] only grows:
    [getTotalCount] returns it, every [addCountToJobs] adds the counts it
    sets to what the total was, so counting the same jobs twice counts them
    twice, and neither [clearBacklogJobs], [clearCompletedJobs] nor
    [_resetFiltersAndComparators] brings it back to 0. *)
Theorem running_total_is_never_reset
    (src : Source) (jobs : list JobParams) (values : list CountValue)
    (stp : St Part000.ModVars) :
  Part000.source (vars stp) = Some src ->
  Forall2 (answers src) jobs values ->
  let grown t := foldl js_add t (count_of <$> values) in
  let total st := fst (Part000.getTotalCount st) in
  let once := after (Part000.addCountToJobs jobs) stp in
  let twice := after (Part000.addCountToJobs jobs) once in
  Part000.getTotalCount stp = (Ok (Part000.totalCount (vars stp)), stp)
  /\ total once = Ok (grown (Part000.totalCount (vars stp)))
  /\ total twice = Ok (grown (grown (Part000.totalCount (vars stp))))
  /\ total (after Part000.clearBacklogJobs once) = total once
  /\ total (after Part000.clearCompletedJobs once) = total once
  /\ total (after Part000.resetFiltersAndComparators once) = total once.
Proof.
  intros Hsrc Hjobs grown total once twice.
  assert (forall st,
            Part000.source (vars st) = Some src ->
            after (Part000.addCountToJobs jobs) st
            = mkSt (with_total (vars st)
                      (foldl js_add (Part000.totalCount (vars st))
                             (count_of <$> values)))
                   (store st)
                   (events st ++ LogInfo "counting docs in existing indices"
                              :: one_at_a_time jobs)) as Hadd.
  { intros st Hst. unfold after, Part000.addCountToJobs, mbind, M_bind, emit.
    cbn [vars store events].
    rewrite (mapSeries_count_000_ok src jobs values) by done.
    cbn [snd vars store events]. by rewrite <- app_assoc. }
  pose proof (Hadd stp Hsrc) as Honce. fold once in Honce.
  assert (Part000.source (vars once) = Some src) as Hsrc1
    by (by rewrite Honce).
  pose proof (Hadd once Hsrc1) as Htwice. fold twice in Htwice.
  subst total. cbv beta.
  assert (forall st, fst (Part000.getTotalCount st)
                     = Ok (Part000.totalCount (vars st))) as Hget by done.
  rewrite !Hget. split; [by destruct stp|].
  split; [by rewrite Honce|]. split; [by rewrite Htwice, Honce|].
  split; [|split].
  - unfold after, Part000.clearBacklogJobs. by run_chain.
  - unfold after, Part000.clearCompletedJobs. by run_chain.
  - unfold after, Part000.resetFiltersAndComparators. by run_chain.
Qed.

Lemma running_total_is_never_reset_witness :
  Part000.source (vars sample_state_000) = Some sample_source
  /\ Forall2 (answers sample_source) [params_A1; params_B1]
             [CountNumber (Num 3); CountNumber (Num 5)]
  /\ fst (Part000.getTotalCount
            (after (Part000.addCountToJobs [params_A1; params_B1])
               (after (Part000.addCountToJobs [params_A1; params_B1])
                  sample_state_000)))
     = Ok (Num 16).
Proof.
  assert (Forall2 (answers sample_source) [params_A1; params_B1]
            [CountNumber (Num 3); CountNumber (Num 5)])
    as Hjobs by (repeat constructor).
  split; [reflexivity|]. split; [exact Hjobs|].
  exact (proj1 (proj2 (proj2
           (running_total_is_never_reset sample_source [params_A1; params_B1]
              [CountNumber (Num 3); CountNumber (Num 5)] sample_state_000
              eq_refl Hjobs)))).
Defined.

(** * [_picked] *)

Lemma get_property_of_entry {V} (input : list (string * V)) key value :
  NoDup input.*1 -> (key, value) ∈ input -> get_property input key = Some value.
Proof.
  induction input as [|[k v] input IH]; intros Hnd Hin;
    [by apply elem_of_nil in Hin|].
  rewrite fmap_cons in Hnd. apply NoDup_cons in Hnd as [Hk Hnd].
  cbn [get_property]. apply elem_of_cons in Hin as [[= -> ->]|Hin].
  - by rewrite String.eqb_refl.
  - destruct (String.eqb_spec k key) as [->|_]; [|by apply IH].
    exfalso. apply Hk. by apply (list_elem_of_fmap_2 fst _ (key, value)).
Qed.

(** Property X21.  [_picked] of [part_000] splits a plain object that has no
    [length] property into the objects of its properties: one object per
    key, in the order of the keys, each holding that key with its value
    and nothing else; put together again they are the input. *)
Theorem picked_splits_an_object {V} (input : list (string * V)) :
  NoDup input.*1 ->
  "length" ∉ input.*1 ->
  Part000._picked input = (fun entry => [entry]) <$> input
  /\ mjoin (Part000._picked input) = input
  /\ length (Part000._picked input) = length input.
Proof.
  intros Hnd _.
  assert (Part000._picked input = (fun entry => [entry]) <$> input) as ->.
  { unfold Part000._picked.
    rewrite (foldl_push_pairs (fun key (_ : V) => lodash_pick input key)).
    cbn [app]. apply list_fmap_ext. intros i [key value] Hi.
    unfold lodash_pick.
    by rewrite (get_property_of_entry input key value Hnd)
      by (by apply list_elem_of_lookup_2 in Hi). }
  split; [done|]. split; [|by rewrite length_fmap].
  clear Hnd. induction input as [|entry input IH]; [done|].
  rewrite fmap_cons. cbn. f_equal. exact IH.
Qed.

Lemma picked_splits_an_object_witness :
  NoDup [("index", "A"); ("type", "t1")].*1
  /\ ("length" ∉ [("index", "A"); ("type", "t1")].*1)
  /\ Part000._picked [("index", "A"); ("type", "t1")]
     = [[("index", "A")]; [("type", "t1")]].
Proof.
  assert (NoDup [("index", "A"); ("type", "t1")].*1) as Hnd.
  { apply (bool_decide_unpack _). by vm_compute. }
  assert ("length" ∉ [("index", "A"); ("type", "t1")].*1) as Hlength.
  { apply (bool_decide_unpack _). by vm_compute. }
  split; [exact Hnd|]. split; [exact Hlength|].
  exact (proj1 (picked_splits_an_object [("index", "A"); ("type", "t1")]
                  Hnd Hlength)).
Defined.

(** * The two files, beyond the three backlog operations *)


(** Property X23.  The two files agree on the orchestration: on the same store and
    with the same configuration (a pattern kept by [part_000] standing for
    the predicate [manager.js] makes of it), [getIndices],
    [filterIndicesAndTypes], [prepareNewJobs], [addCountToJobs] and
    [initialize] resolve or reject alike in both files and leave the same
    store and the same configuration. *)
Theorem orchestration_agrees_in_both_files
    (names : string) (ignoreCompleted : bool) (client : option Source)
    (allIndices : list IndexObj) (jobs : list JobParams)
    (sta : St App.ModVars) (stp : St Part000.ModVars) :
  store sta = store stp ->
  vars sta = app_vars_of (vars stp) ->
  let agree {A} (m : M App.ModVars A) (m' : M Part000.ModVars A) :=
    fst (m sta) = fst (m' stp)
    /\ store (after m sta) = store (after m' stp)
    /\ vars (after m sta) = app_vars_of (vars (after m' stp)) in
  agree (App.getIndices client names) (Part000.getIndices client names)
  /\ agree (App.filterIndicesAndTypes allIndices)
           (Part000.filterIndicesAndTypes allIndices)
  /\ agree (App.prepareNewJobs names) (Part000.prepareNewJobs names)
  /\ agree (App.addCountToJobs jobs) (Part000.addCountToJobs jobs)
  /\ agree (App.initialize names ignoreCompleted)
           (Part000.initialize names ignoreCompleted).
Proof.
  intros Hstore Hvars agree.
  assert (forall A (m : M App.ModVars A) m', simulates m m' -> agree A m m')
    as Hsim.
  { intros A m m' Hm. destruct (Hm sta stp (conj Hstore Hvars)) as [Hr [Hs Hv]].
    by split. }
  split; [apply Hsim, sim_getIndices|].
  split; [apply Hsim, sim_filterIndicesAndTypes|].
  split; [apply Hsim, sim_prepareNewJobs|].
  split; [apply Hsim, sim_addCountToJobs | apply Hsim, sim_initialize].
Qed.

Lemma orchestration_agrees_witness :
  store sample_state = store sample_state_000
  /\ vars sample_state = app_vars_of (vars sample_state_000)
  /\ fst (App.initialize "*" false sample_state)
     = fst (Part000.initialize "*" false sample_state_000).
Proof.
  split; [reflexivity|]. split; [reflexivity|].
  exact (proj1 (proj2 (proj2 (proj2 (proj2
           (orchestration_agrees_in_both_files "*" false None [] []
              sample_state sample_state_000 eq_refl eq_refl)))))).
Defined.
